(** * r2v-to-plan2scene: the geometric reconstruction core of [r2vstk]

    A shallow embedding of the wall graph ([floorplan.py]), the geometry
    kernel ([util.py]), the wall splitter ([wall_split_utils.py]) and the
    pipeline stages of [house.py], followed by the properties of the
    specification that were checked against them.

    Conventions of the embedding.
    - Coordinates are Python [int]s ([convert_int] in the loaders, [//] in
      the splitter), hence [Z].  Configuration values that are floats
      ([tolerance_distance], [cutoff_gradient], [threshold], ...) are
      rationals [Q]; floating-point rounding is not modelled: square roots
      and angles are exact.
    - [Corner], [Wall] and [Hole] are mutable Python objects compared by
      identity (none of them defines [__eq__]); the hash of a Wall is the
      hash of its [str], which changes when one of its Corners moves
      ([Wall_hash]).  Corners live in an arena
      [corners] and are named by their index; walls are named by their
      index in [WallLinkageGraph.walls]; a hole by its wall and its index
      in [wall.holes].
    - A Python [dict] is an association list in insertion order.
    - A raised exception is the [Raise] case of [result]. *)

From Stdlib Require Import ZArith QArith Qabs Lia List String Bool DecimalString Permutation Sorted.
From stdpp Require Import base list strings gmap.
Import ListNotations.

Local Open Scope Z_scope.

(* ===================================================================== *)
(** * Python runtime: exceptions, ordered dicts, [sorted], [str] *)
(* ===================================================================== *)

Inductive exn : Type :=
| ZeroDivisionError
| IndexError
| KeyError (key : string)
| AssertionError
| StraightenWallsFailed (house_path : string) (iter_count : nat) (cause : exn).

Inductive result (A : Type) : Type :=
| Ok (a : A)
| Raise (e : exn).
Arguments Ok {A} a.
Arguments Raise {A} e.

#[export] Instance result_ret : MRet result := fun _ a => Ok a.
#[export] Instance result_bind : MBind result := fun _ _ f m =>
  match m with
  | Ok a => f a
  | Raise e => Raise e
  end.

(** [str(n)] for a Python [int]. *)
Definition str (n : Z) : string := NilZero.string_of_int (Z.to_int n).

Abbreviation Pos := (Z * Z)%type (only parsing).

Definition Pos_eqb (a b : Pos) : bool := (a.1 =? b.1) && (a.2 =? b.2).

Module Dict.
(** A [dict]: entries in insertion order, keys unique. *)
Definition t (K V : Type) : Type := list (K * V).

Section Ops.
Context {K V : Type} `{EqDecision K}.

Definition values (d : t K V) : list V := map snd d.
Definition keys (d : t K V) : list K := map fst d.

Fixpoint get (d : t K V) (k : K) : option V :=
  match d with
  | [] => None
  | (k', v) :: d' => if decide (k' = k) then Some v else get d' k
  end.

(** [d[k] = v]: an existing key keeps its place, a new one goes last. *)
Fixpoint set (d : t K V) (k : K) (v : V) : t K V :=
  match d with
  | [] => [(k, v)]
  | (k', v') :: d' =>
      if decide (k' = k) then (k', v) :: d' else (k', v') :: set d' k v
  end.

Fixpoint remove (d : t K V) (k : K) : t K V :=
  match d with
  | [] => []
  | (k', v') :: d' => if decide (k' = k) then d' else (k', v') :: remove d' k
  end.
End Ops.
End Dict.

(** [del d[k]] on a dict with [str] keys: [KeyError] when the key is absent. *)
Definition dict_del {V} (d : Dict.t string V) (k : string) : result (Dict.t string V) :=
  match Dict.get d k with
  | Some _ => Ok (Dict.remove d k)
  | None => Raise (KeyError k)
  end.

Section Sorted.
Context {A K : Type} (leb : K -> K -> bool) (key : A -> K).

Fixpoint insert_sorted (x : A) (l : list A) : list A :=
  match l with
  | [] => [x]
  | y :: l' =>
      if leb (key x) (key y) then x :: y :: l' else y :: insert_sorted x l'
  end.

(** [sorted(l, key=key)]: ascending and stable. *)
Fixpoint sorted (l : list A) : list A :=
  match l with
  | [] => []
  | x :: l' => insert_sorted x (sorted l')
  end.
End Sorted.

Definition Qlt_bool (a b : Q) : bool := negb (Qle_bool b a).

(** A non-negative real whose square is rational, such as the value of
    [math.sqrt] on an integer or the quotient of an integer by such a
    root.  [Sqrt r] stands for the real number √r; it is only ever
    compared, and comparisons of roots are comparisons of radicands. *)
Record Root : Type := Sqrt { radicand : Q }.

Module Root.
(** [abs(z)] *)
Definition of_abs (z : Z) : Root := Sqrt (inject_Z (z * z)).
Definition ltb (a b : Root) : bool := Qlt_bool (radicand a) (radicand b).
Definition leb (a b : Root) : bool := Qle_bool (radicand a) (radicand b).
(** [min(a, b)] *)
Definition min (a b : Root) : Root := if ltb b a then b else a.
(** [0 < √r] *)
Definition pos (a : Root) : bool := Qlt_bool 0 (radicand a).
(** [√r < c] and [√r > c] for a float [c] of either sign. *)
Definition lt_Q (a : Root) (c : Q) : bool :=
  Qlt_bool 0 c && Qlt_bool (radicand a) (c * c).
Definition gt_Q (a : Root) (c : Q) : bool :=
  Qlt_bool c 0 || Qlt_bool (c * c) (radicand a).
(** [a / b], raising on [b = 0.0]. *)
Definition div (a b : Root) : result Root :=
  if Qeq_bool (radicand b) 0 then Raise ZeroDivisionError
  else Ok (Sqrt (radicand a / radicand b)).
End Root.

(* ===================================================================== *)
(** * floorplan.py: Corner, Hole, Wall, WallLinkageGraph *)
(* ===================================================================== *)

Abbreviation CornerRef := nat (only parsing).
Abbreviation WallRef := nat (only parsing).

Module Corner.
Record t : Type := mk { pos : Pos; adj : list WallRef }.
(** [Corner.__repr__], from a position. *)
Definition repr (p : Pos) : string := (str p.1 ++ "_" ++ str p.2)%string.
End Corner.

Module Hole.
Record t : Type := mk {
  min_x : Z;
  max_x : Z;
  type : option string;       (* [None], "door" or "window" *)
  id : string
}.
End Hole.

(** A stand-alone [LineSegment] (an opening): its two [Corner]s are built
    for it alone and never moved, so it holds their positions. *)
Module LineSegment.
Record t : Type := mk { p1 : Pos; p2 : Pos }.
End LineSegment.

Module Wall.
Record t : Type := mk {
  p1 : CornerRef;
  p2 : CornerRef;
  holes : list Hole.t;
  left_room_type : option string;
  right_room_type : option string;
  id : option string
}.
End Wall.

Record WallLinkageGraph : Type := mkGraph {
  corners : list Corner.t;            (* the Corner objects, by reference *)
  wall_corners : Dict.t string CornerRef;    (* position-derived key -> Corner *)
  tolerance_distance : Q;
  walls : list Wall.t
}.

Definition dummy_corner : Corner.t := Corner.mk (0, 0) [].
Definition dummy_wall : Wall.t := Wall.mk 0%nat 0%nat [] None None None.

Definition corner (g : WallLinkageGraph) (c : CornerRef) : Corner.t :=
  nth c (corners g) dummy_corner.
Definition wall (g : WallLinkageGraph) (w : WallRef) : Wall.t :=
  nth w (walls g) dummy_wall.
Definition pos_of (g : WallLinkageGraph) (c : CornerRef) : Pos := Corner.pos (corner g c).
Definition adj_of (g : WallLinkageGraph) (c : CornerRef) : list WallRef := Corner.adj (corner g c).

Definition WallLinkageGraph_init (tolerance : Q) : WallLinkageGraph :=
  mkGraph [] [] tolerance [].

(** [LineSegment.__repr__] for a wall: ["<" + str(p1) + ":" + str(p2) + ">"],
    from the positions its two Corners have now. *)
Definition Wall_repr (g : WallLinkageGraph) (w : WallRef) : string :=
  ("<" ++ Corner.repr (pos_of g (Wall.p1 (wall g w))) ++ ":"
       ++ Corner.repr (pos_of g (Wall.p2 (wall g w))) ++ ">")%string.

(** [LineSegment.__hash__]: [hash(str(self))].  The hash of a string is
    modelled by the string itself: strings that differ hash differently.
    A wall's hash changes when one of its Corners moves. *)
Definition Wall_hash (g : WallLinkageGraph) (w : WallRef) : string := Wall_repr g w.

(* ===================================================================== *)
(** * util.py: the geometry kernel *)
(* ===================================================================== *)

(** [manhattan_distance_between]: despite its name, the maximum of the two
    coordinate differences. *)
Definition manhattan_distance_between (a b : Pos) : Z :=
  Z.max (Z.abs (a.1 - b.1)) (Z.abs (a.2 - b.2)).

(** [sq_distance]: the Euclidean distance, [math.sqrt(dx**2 + dy**2)].
    The value is the exact root.  Where [math.sqrt] rounds two different
    distances to the same float, the code finds them equal and this
    definition does not. *)
Definition sq_distance (a b : Pos) : Root :=
  Sqrt (inject_Z ((a.1 - b.1) * (a.1 - b.1) + (a.2 - b.2) * (a.2 - b.2))).

Definition get_closest_and_furthest (target a b : Pos) : Pos * Pos :=
  let dp1 := sq_distance target a in
  let dp2 := sq_distance target b in
  if Root.ltb dp1 dp2 then (a, b) else (b, a).

(** [find_closest(target, other_nodes, cutoff_distance, exclude=[])]. *)
Definition find_closest (g : WallLinkageGraph) (target : Pos)
    (other_nodes : Dict.t string CornerRef) (cutoff_distance : Q)
  : option CornerRef * option CornerRef :=
  let distance_tuples :=
    omap (fun other_node =>
            let distance := manhattan_distance_between (pos_of g other_node) target in
            if Qlt_bool (inject_Z distance) cutoff_distance
            then Some (distance, other_node) else None)
         (Dict.values other_nodes) in
  let distance_tuples := sorted Z.leb fst distance_tuples in
  match distance_tuples with
  | a :: b :: _ => (Some a.2, Some b.2)
  | [a] => (Some a.2, None)
  | [] => (None, None)
  end.

(** [math.acos(p[0] / h) * 180 / math.pi] for a non-zero vector, on the
    diamond scale: [90 * (1 - x / (|x| + |y|))] is strictly increasing in
    the true angle over [0, 180] and agrees with it at 0, 90 and 180
    degrees.  The face tracer only compares differences of such angles
    taken modulo 360, and those comparisons are the same on any strictly
    increasing scale.  The values are exact.  [math.acos] rounds, so that
    the code can find the angles of two parallel directions different in
    the last digit; the properties of the face tracer below hold
    whichever of several walls at nearly the same angle it takes. *)
Definition acos_degrees (p : Pos) : Q :=
  90 * (1 - inject_Z p.1 / inject_Z (Z.abs p.1 + Z.abs p.2)).

Definition find_angle (p : Pos) : result Q :=
  if (p.1 =? 0) && (p.2 =? 0) then Raise ZeroDivisionError
  else
    let ang := acos_degrees p in
    Ok (if 0 <? p.2 then - ang else ang)%Q.

Definition find_angle_between (v1 v2 : Pos) : result Q :=
  a2 ← find_angle v2;
  a1 ← find_angle v1;
  let a1 := (if Qlt_bool a1 0 then 360 + a1 else a1)%Q in
  let a2 := (if Qlt_bool a2 0 then 360 + a2 else a2)%Q in
  Ok (a2 - a1)%Q.

Fixpoint mapM {A B : Type} (f : A -> result B) (l : list A) : result (list B) :=
  match l with
  | [] => Ok []
  | x :: l' => y ← f x; ys ← mapM f l'; Ok (y :: ys)
  end.

(** The end of [w] that is not [vertex]: [o = w.p1; if o == vertex: o = w.p2]. *)
Definition other_end (g : WallLinkageGraph) (w : WallRef) (vertex : CornerRef) : CornerRef :=
  if Nat.eqb (Wall.p1 (wall g w)) vertex then Wall.p2 (wall g w) else Wall.p1 (wall g w).

Definition vector_from (g : WallLinkageGraph) (vertex other : CornerRef) : Pos :=
  ((pos_of g other).1 - (pos_of g vertex).1, (pos_of g other).2 - (pos_of g vertex).2).

Definition _find_next_wall (g : WallLinkageGraph) (vertex : CornerRef) (in_wall : WallRef)
  : result (option WallRef) :=
  if Nat.eqb (length (adj_of g vertex)) 1 then Ok None
  else
    let in_other := other_end g in_wall vertex in
    let in_other_vector := vector_from g vertex in_other in
    walls_with_angles ←
      mapM (fun w =>
              let adj_other := other_end g w vertex in
              let adj_other_vector := vector_from g vertex adj_other in
              angle_between ← find_angle_between in_other_vector adj_other_vector;
              let angle_between :=
                (if Qlt_bool angle_between 0 then angle_between + 360 else angle_between)%Q in
              Ok (angle_between, w))
           (filter (fun w => negb (Nat.eqb w in_wall)) (adj_of g vertex));
    match sorted Qle_bool fst walls_with_angles with
    | a :: _ => Ok (Some a.2)
    | [] => Raise IndexError
    end.

Definition option_nat_eqb (a : option nat) (b : nat) : bool :=
  match a with
  | Some x => Nat.eqb x b
  | None => false
  end.

(** The [while iter_count < 500] loop of [find_room]; [fuel] is
    [500 - iter_count].  [walls] is never empty. *)
Fixpoint find_room_loop (g : WallLinkageGraph) (fuel : nat) (walls : list WallRef)
    (current_node : CornerRef) : result (list WallRef) :=
  match fuel with
  | O => Ok walls
  | S fuel' =>
      next_wall ← _find_next_wall g current_node (List.last walls 0%nat);
      if option_nat_eqb next_wall (hd 0%nat walls) then Ok walls
      else
        match next_wall with
        | None =>
            let new_current_wall := List.last walls 0%nat in
            let new_current_node := other_end g new_current_wall current_node in
            find_room_loop g fuel' (walls ++ [new_current_wall]) new_current_node
        | Some next_wall =>
            let new_current_node := other_end g next_wall current_node in
            find_room_loop g fuel' (walls ++ [next_wall]) new_current_node
        end
  end.

Definition find_room (g : WallLinkageGraph) (start_node : CornerRef) (start_wall : WallRef)
  : result (list WallRef) :=
  find_room_loop g 500 [start_wall] start_node.

(** One pass of the [for i, w in enumerate(unvisited_walls)] loop of
    [get_polyline]: the first wall with an end at [last], removed from the
    list, and its other end. *)
Fixpoint polyline_next (g : WallLinkageGraph) (last : CornerRef) (unvisited : list WallRef)
  : option (CornerRef * list WallRef) :=
  match unvisited with
  | [] => None
  | w :: rest =>
      if Nat.eqb (Wall.p1 (wall g w)) last then Some (Wall.p2 (wall g w), rest)
      else if Nat.eqb (Wall.p2 (wall g w)) last then Some (Wall.p1 (wall g w), rest)
      else match polyline_next g last rest with
           | Some (c, rest') => Some (c, w :: rest')
           | None => None
           end
  end.

Fixpoint polyline_loop (g : WallLinkageGraph) (fuel : nat) (points : list CornerRef)
    (unvisited : list WallRef) : list CornerRef :=
  match fuel with
  | O => points
  | S fuel' =>
      match polyline_next g (List.last points 0%nat) unvisited with
      | Some (c, rest) => polyline_loop g fuel' (points ++ [c]) rest
      | None => points
      end
  end.

Definition get_polyline (g : WallLinkageGraph) (ws : list WallRef) : result (list Pos) :=
  match ws with
  | [] => Raise IndexError
  | w0 :: rest =>
      let points := [Wall.p1 (wall g w0); Wall.p2 (wall g w0)] in
      Ok (map (pos_of g) (polyline_loop g (length rest) points rest))
  end.

(** [get_pd(grad, intercept, p)].  The value is exact; the code's float
    can exceed it in the last digit, which matters only for an opening
    whose offset equals the margin. *)
Definition get_pd (grad intercept : Q) (p : Pos) : Root :=
  let num := (- grad * inject_Z p.1 + inject_Z p.2 - intercept)%Q in
  Sqrt ((num * num) / (grad * grad + 1))%Q.

Definition line_contains_check (g : WallLinkageGraph) (parent : WallRef)
    (child : LineSegment.t) (pd_margin : Q) : bool * option Root :=
  let pp1 := pos_of g (Wall.p1 (wall g parent)) in
  let pp2 := pos_of g (Wall.p2 (wall g parent)) in
  let c1 := LineSegment.p1 child in
  let c2 := LineSegment.p2 child in
  let '(pd1, pd2) :=
    if 0 <? Z.abs (pp2.1 - pp1.1) then
      let parent_grad := (inject_Z (pp2.2 - pp1.2) / inject_Z (pp2.1 - pp1.1))%Q in
      let parent_intercept := (inject_Z pp1.2 - parent_grad * inject_Z pp1.1)%Q in
      (get_pd parent_grad parent_intercept c1, get_pd parent_grad parent_intercept c2)
    else
      (Root.of_abs (c1.1 - pp1.1), Root.of_abs (c2.1 - pp2.1)) in
  if Root.gt_Q pd1 pd_margin then (false, None)
  else if Root.gt_Q pd2 pd_margin then (false, None)
  else
    let p1_c1_distance := sq_distance pp1 c1 in
    let p1_c2_distance := sq_distance pp1 c2 in
    let p2_c1_distance := sq_distance pp2 c1 in
    let p2_c2_distance := sq_distance pp2 c2 in
    if Root.ltb p1_c1_distance p1_c2_distance && Root.ltb p2_c2_distance p2_c1_distance
    then (true, Some (Root.min pd1 pd2))
    else if Root.ltb p1_c2_distance p1_c1_distance && Root.ltb p2_c1_distance p2_c2_distance
    then (true, Some (Root.min pd1 pd2))
    else (false, None).

(* ===================================================================== *)
(** * floorplan.py: WallLinkageGraph.add_wall *)
(* ===================================================================== *)

(** [n = Corner(p); self.wall_corners[str(p[0]) + "_" + str(p[1])] = n] *)
Definition new_corner (g : WallLinkageGraph) (p : Pos) : WallLinkageGraph * CornerRef :=
  let n := length (corners g) in
  (mkGraph (corners g ++ [Corner.mk p []])
           (Dict.set (wall_corners g) (Corner.repr p) n)
           (tolerance_distance g) (walls g),
   n).

(** [if n is None: n = Corner(p); ...] *)
Definition or_new_corner (g : WallLinkageGraph) (n : option CornerRef) (p : Pos)
  : WallLinkageGraph * CornerRef :=
  match n with
  | Some c => (g, c)
  | None => new_corner g p
  end.

(** [c.adj.append(w)] *)
Definition adj_append (cs : list Corner.t) (c : CornerRef) (w : WallRef) : list Corner.t :=
  alter (fun k => Corner.mk (Corner.pos k) (Corner.adj k ++ [w])) c cs.

Definition add_wall (g : WallLinkageGraph) (p1 p2 : Pos)
    (left_room_type right_room_type : option string) : result WallLinkageGraph :=
  if (p1.1 =? p2.1) && (p1.2 =? p2.2) then Ok g
  else
    let '(n1, n1_backup) := find_closest g p1 (wall_corners g) (tolerance_distance g) in
    let '(g, n1) := or_new_corner g n1 p1 in
    let '(n2, n2_backup) := find_closest g p2 (wall_corners g) (tolerance_distance g) in
    let '(g, n2) := or_new_corner g n2 p2 in
    let '(n1, n2) :=
      if Nat.eqb n1 n2 then
        if manhattan_distance_between (pos_of g n1) p1 <? manhattan_distance_between (pos_of g n1) p2
        then (Some n1, n2_backup)
        else (n1_backup, Some n2)
      else (Some n1, Some n2) in
    let '(g, n1) := or_new_corner g n1 p1 in
    let '(g, n2) := or_new_corner g n2 p2 in
    if ((pos_of g n1).1 =? (pos_of g n2).1) && ((pos_of g n1).2 =? (pos_of g n2).2)
    then Raise AssertionError
    else
      let w := length (walls g) in
      Ok (mkGraph (adj_append (adj_append (corners g) n1 w) n2 w)
                  (wall_corners g) (tolerance_distance g)
                  (walls g ++ [Wall.mk n1 n2 [] left_room_type right_room_type None])).

(** A run of [add_wall] over raw segments, as in [generate_wall_graph]. *)
Fixpoint add_walls (g : WallLinkageGraph) (segs : list (Pos * Pos)) : result WallLinkageGraph :=
  match segs with
  | [] => Ok g
  | (a, b) :: rest => g' ← add_wall g a b None None; add_walls g' rest
  end.

(* ===================================================================== *)
(** * wall_split_utils.py *)
(* ===================================================================== *)

Abbreviation Line := ((Z * Z) * (Z * Z))%type (only parsing).

(** [p[d]] for an axis index [d] that is 0 or 1. *)
Definition coord (p : Pos) (d : Z) : Z := if d =? 0 then p.1 else p.2.

Definition calcLineDirection (line : Line) : Z :=
  if Z.abs (line.1.1 - line.2.1) <? Z.abs (line.1.2 - line.2.2) then 1 else 0.

Definition lineRange (line : Line) : Z * Z * Z * Z :=
  let direction := calcLineDirection line in
  let fixedValue := (coord line.1 (1 - direction) + coord line.2 (1 - direction)) / 2 in
  let minValue := Z.min (coord line.1 direction) (coord line.2 direction) in
  let maxValue := Z.max (coord line.1 direction) (coord line.2 direction) in
  (direction, fixedValue, minValue, maxValue).

Definition pointDistance (point_1 point_2 : Pos) : Z :=
  Z.max (Z.abs (point_1.1 - point_2.1)) (Z.abs (point_1.2 - point_2.2)).

Definition end_point (line : Line) (c : Z) : Pos := if c =? 0 then line.1 else line.2.

(** The two nested [for c in range(2)] loops: the first pair of ends, in
    the order (0,0), (0,1), (1,0), (1,1), no farther apart than [gap]. *)
Definition first_point_connection (line_1 line_2 : Line) (gap : Q) : option (Z * Z) :=
  List.find (fun c =>
               negb (Qlt_bool gap (inject_Z (pointDistance (end_point line_1 c.1)
                                                           (end_point line_2 c.2)))))
            [(0, 0); (0, 1); (1, 0); (1, 1)].

Definition _findConnections (line_1 line_2 : Line) (gap : Q) : (Z * Z) * Pos :=
  match first_point_connection line_1 line_2 gap with
  | Some (c_1, c_2) =>
      let a := end_point line_1 c_1 in
      let b := end_point line_2 c_2 in
      ((c_1, c_2), ((a.1 + b.1) / 2, (a.2 + b.2) / 2))
  | None =>
      let '(direction_1, fixedValue_1, min_1, max_1) := lineRange line_1 in
      let '(direction_2, fixedValue_2, min_2, max_2) := lineRange line_2 in
      if direction_1 =? direction_2 then ((-1, -1), (0, 0))
      else if Qlt_bool (inject_Z (Z.min fixedValue_1 max_2)) (inject_Z (Z.max fixedValue_1 min_2) - gap)
              || Qlt_bool (inject_Z (Z.min fixedValue_2 max_1)) (inject_Z (Z.max fixedValue_2 min_1) - gap)
      then ((-1, -1), (0, 0))
      else if Qle_bool (inject_Z (Z.abs (min_1 - fixedValue_2))) gap
      then ((0, 2), (fixedValue_2, fixedValue_1))
      else if Qle_bool (inject_Z (Z.abs (max_1 - fixedValue_2))) gap
      then ((1, 2), (fixedValue_2, fixedValue_1))
      else if Qle_bool (inject_Z (Z.abs (min_2 - fixedValue_1))) gap
      then ((2, 0), (fixedValue_2, fixedValue_1))
      else if Qle_bool (inject_Z (Z.abs (max_2 - fixedValue_1))) gap
      then ((2, 1), (fixedValue_2, fixedValue_1))
      else ((2, 2), (fixedValue_2, fixedValue_1))
  end.

(** [find_connections(l1, l2, gap)]: both branches call
    [_findConnections(..., gap=5)]. *)
Definition find_connections (l1 l2 : Line) (gap : Q) : (Z * Z) * Pos :=
  if l1.1.1 =? l1.2.1 then
    let '(r, p) := _findConnections l2 l1 5 in
    ((r.2, r.1), p)
  else
    _findConnections l1 l2 5.

(* ===================================================================== *)
(** * house.py: configuration and the House *)
(* ===================================================================== *)

(** The values of [conf.parser_config] read by the core. *)
Module Conf.
Record t : Type := mk {
  wall_join_margin : Q;
  split_walls_max_iter : nat;
  straighten_walls_cutoff_gradient : Q;
  straighten_walls_max_iter : nat;
  eliminate_false_rooms_enabled : bool;
  eliminate_false_rooms_threshold : Q;
  max_door_perpendicular_offset : Q;
  seed : Z                              (* [ConfigManager.seed] *)
}.
End Conf.

(** A parsed input record (a Python dict); optional keys are options. *)
Module Datum.
Record t : Type := mk {
  x_min : Z;
  y_min : Z;
  x_max : Z;
  y_max : Z;
  category : string;
  left_room_type : option string;
  right_room_type : option string;
  dump_1 : option string;
  dump_2 : option string
}.
#[global] Instance eq_dec : EqDecision t.
Proof. solve_decision. Defined.
End Datum.

(** A room key, a [frozenset] of Walls, is named by the set of its member
    walls (walls are compared by identity).  A CPython set also stores,
    next to each member, the hash the member had when the set was built,
    and [wall in room_key] looks the wall up by its present hash.  Every
    key of a house is built by [generate_wall_graph] from the graph it has
    just built, before any Corner moves, so all keys store the same hash
    for a wall: the house keeps these hashes in [House.room_key_hashes]. *)
Abbreviation RoomKey := (gset nat) (only parsing).

Module RoomDescription.
Record t : Type := mk {
  room_key : RoomKey;
  walls : list WallRef;
  room_id : option string
}.
#[global] Instance eq_dec : EqDecision t.
Proof. solve_decision. Defined.
End RoomDescription.

(** A hole object: the wall that owns it and its index in [wall.holes]. *)
Abbreviation HoleRef := (nat * nat)%type (only parsing).

Abbreviation RDREdge := (gset nat * (nat * nat) * option (gset nat))%type (only parsing).

Module House.
Record t : Type := mk {
  file_name : string;
  walls : list Datum.t;
  openings : list Datum.t;
  wall_graph : WallLinkageGraph;
  ordered_rooms : list RoomKey;
  room_description_map : Dict.t RoomKey RoomDescription.t;
  rdr : list RDREdge;
  (* for each Wall, the hash that the keys of [room_description_map]
     store for it: the hash it had when they were built *)
  room_key_hashes : list string
}.
End House.

Definition with_wall_graph (h : House.t) (g : WallLinkageGraph) : House.t :=
  House.mk (House.file_name h) (House.walls h) (House.openings h) g
           (House.ordered_rooms h) (House.room_description_map h) (House.rdr h)
           (House.room_key_hashes h).

(* --------------------------------------------------------------------- *)
(** ** split_source_walls *)

Definition is_manhattan (w : Datum.t) : bool :=
  (Datum.x_min w =? Datum.x_max w) || (Datum.y_min w =? Datum.y_max w).

Definition line_of (w : Datum.t) : Line :=
  ((Datum.x_min w, Datum.y_min w), (Datum.x_max w, Datum.y_max w)).

(** The inner [for i2, wall2 in enumerate(self.walls)] loop for a fixed
    [wall1]: the index and record of the wall to break and the point [p]. *)
Fixpoint split_scan_inner (margin : Q) (i1 : nat) (wall1 : Datum.t)
    (i2 : nat) (rest : list Datum.t) : option (nat * Datum.t * Pos) :=
  match rest with
  | [] => None
  | wall2 :: rest' =>
      if negb (is_manhattan wall2) then split_scan_inner margin i1 wall1 (S i2) rest'
      else if bool_decide (wall1 = wall2) then split_scan_inner margin i1 wall1 (S i2) rest'
      else
        let '(t, p) := find_connections (line_of wall1) (line_of wall2) margin in
        if t.1 =? 2 then Some (i1, wall1, p)
        else if t.2 =? 2 then Some (i2, wall2, p)
        else split_scan_inner margin i1 wall1 (S i2) rest'
  end.

(** The outer [for i1, wall1 in enumerate(self.walls)] loop up to the first
    split. *)
Fixpoint split_scan_outer (margin : Q) (all : list Datum.t)
    (i1 : nat) (rest : list Datum.t) : option (nat * Datum.t * Pos) :=
  match rest with
  | [] => None
  | wall1 :: rest' =>
      if negb (is_manhattan wall1) then split_scan_outer margin all (S i1) rest'
      else
        match split_scan_inner margin i1 wall1 0 all with
        | Some r => Some r
        | None => split_scan_outer margin all (S i1) rest'
        end
  end.

Definition split_segments (to_break : Datum.t) (p : Pos) : Datum.t * Datum.t :=
  (Datum.mk (Datum.x_min to_break) (Datum.y_min to_break) p.1 p.2 "wall"
            (Datum.left_room_type to_break) (Datum.right_room_type to_break) None None,
   Datum.mk p.1 p.2 (Datum.x_max to_break) (Datum.y_max to_break) "wall"
            (Datum.left_room_type to_break) (Datum.right_room_type to_break) None None).

(** One turn of the [while changed and left_iterations > 0] loop.  After a
    split the list is one longer, so the outer [for] always has a next
    element, at which [start_over] is cleared and the scan abandoned: each
    turn performs the first split found, or none. *)
Definition split_once (margin : Q) (ws : list Datum.t) : option (list Datum.t) :=
  match split_scan_outer margin ws 0 ws with
  | Some (to_break_i, to_break, p) =>
      let '(seg1, seg2) := split_segments to_break p in
      Some (delete to_break_i ws ++ [seg1; seg2])
  | None => None
  end.

Fixpoint split_loop (margin : Q) (left_iterations : nat) (ws : list Datum.t) : list Datum.t :=
  match left_iterations with
  | O => ws
  | S left' =>
      match split_once margin ws with
      | Some ws' => split_loop margin left' ws'
      | None => ws
      end
  end.

Definition split_source_walls (conf : Conf.t) (h : House.t) : House.t :=
  House.mk (House.file_name h)
           (split_loop (Conf.wall_join_margin conf) (Conf.split_walls_max_iter conf) (House.walls h))
           (House.openings h) (House.wall_graph h) (House.ordered_rooms h)
           (House.room_description_map h) (House.rdr h) (House.room_key_hashes h).

(* --------------------------------------------------------------------- *)
(** ** _find_adjacent_rooms, compute_rdr *)

(** [wall in room_key], a lookup in a [frozenset]: the wall is found when
    it is a member of the key and the hash it has now is the hash the key
    stores for it. *)
Definition wall_in_room_key (h : House.t) (w : WallRef) (room_key : RoomKey) : bool :=
  bool_decide (w ∈ room_key)
  && bool_decide (House.room_key_hashes h !! w = Some (Wall_hash (House.wall_graph h) w)).

Definition _find_adjacent_rooms (h : House.t) (w : WallRef) : list RoomKey :=
  filter (fun room_key => wall_in_room_key h w room_key = true)
         (Dict.keys (House.room_description_map h)).

(** The edges appended for one hole of wall [w]. *)
Definition rdr_edges_of_hole (h : House.t) (w : WallRef) (i : nat) (hole : Hole.t)
  : list RDREdge :=
  if bool_decide (Hole.type hole = Some "door"%string) then
    match _find_adjacent_rooms h w with
    | [] => []
    | [a] => [(a, (w, i), None)]
    | [a; b] => [(a, (w, i), Some b); (b, (w, i), Some a)]
    | _ => []
    end
  else [].

Definition rdr_edges_of_wall (h : House.t) (w : WallRef) (wl : Wall.t) : list RDREdge :=
  concat (imap (rdr_edges_of_hole h w) (Wall.holes wl)).

Definition compute_rdr (h : House.t) : House.t :=
  House.mk (House.file_name h) (House.walls h) (House.openings h) (House.wall_graph h)
           (House.ordered_rooms h) (House.room_description_map h)
           (House.rdr h ++ concat (imap (rdr_edges_of_wall h) (walls (House.wall_graph h))))
           (House.room_key_hashes h).

(* --------------------------------------------------------------------- *)
(** ** straighten_walls *)

(** [0 < abs(d) / sq_distance(a, b) < cutoff] *)
Definition slope_in_cutoff (d : Z) (a b : Pos) (cutoff : Q) : result bool :=
  v ← Root.div (Root.of_abs d) (sq_distance a b);
  Ok (Root.pos v && Root.lt_Q v cutoff).

(** The [for wall in self.wall_graph.walls] scan for the first inclined wall. *)
Fixpoint find_inclined (g : WallLinkageGraph) (cutoff : Q) (ws : list WallRef)
  : result (option WallRef) :=
  match ws with
  | [] => Ok None
  | w :: rest =>
      let a := pos_of g (Wall.p1 (wall g w)) in
      let b := pos_of g (Wall.p2 (wall g w)) in
      in_x ← slope_in_cutoff (a.1 - b.1) a b cutoff;
      if in_x : bool then Ok (Some w)
      else
        in_y ← slope_in_cutoff (a.2 - b.2) a b cutoff;
        if in_y : bool then Ok (Some w) else find_inclined g cutoff rest
  end.

(** [c.pos = p] *)
Definition set_pos (g : WallLinkageGraph) (c : CornerRef) (p : Pos) : WallLinkageGraph :=
  mkGraph (alter (fun k => Corner.mk p (Corner.adj k)) c (corners g))
          (wall_corners g) (tolerance_distance g) (walls g).

Definition with_wall_corners (g : WallLinkageGraph) (d : Dict.t string CornerRef) : WallLinkageGraph :=
  mkGraph (corners g) d (tolerance_distance g) (walls g).

(** The corner that a correction of [found_wall] moves and its new
    position. *)
Definition correction (g : WallLinkageGraph) (found_wall : WallRef) (x_axis : bool)
  : CornerRef * Pos :=
  let c1 := Wall.p1 (wall g found_wall) in
  let c2 := Wall.p2 (wall g found_wall) in
  let a := pos_of g c1 in
  let b := pos_of g c2 in
  if x_axis then
    (* This is a x axis correction. Move the top vertex *)
    if a.2 <? b.2 then (c1, (b.1, a.2)) else (c2, (a.1, b.2))
  else
    (* This is a y axis correction. Move the left vertex *)
    if a.1 <? b.1 then (c1, (a.1, b.2)) else (c2, (b.1, a.2)).

(** The body of the [try] block: the graph it leaves behind, and whether
    it corrected a wall ([Ok true]), found none ([Ok false], the [break])
    or raised. *)
Definition straighten_iteration (cutoff : Q) (g : WallLinkageGraph)
  : WallLinkageGraph * result bool :=
  match find_inclined g cutoff (seq 0 (length (walls g))) with
  | Raise e => (g, Raise e)
  | Ok None => (g, Ok false)
  | Ok (Some found_wall) =>
      let a := pos_of g (Wall.p1 (wall g found_wall)) in
      let b := pos_of g (Wall.p2 (wall g found_wall)) in
      match slope_in_cutoff (a.1 - b.1) a b cutoff with
      | Raise e => (g, Raise e)
      | Ok x_axis =>
          let '(move_point, new_pos) := correction g found_wall x_axis in
          let moved_point_key := Corner.repr (pos_of g move_point) in
          let g := set_pos g move_point new_pos in
          match dict_del (wall_corners g) moved_point_key with
          | Raise e => (g, Raise e)
          | Ok d =>
              (with_wall_corners g (Dict.set d (Corner.repr (pos_of g move_point)) move_point),
               Ok true)
          end
      end
  end.

(** The [while iter_count < max_iter_count] loop; [fuel] is
    [max_iter_count - iter_count]. *)
Fixpoint straighten_loop (cutoff : Q) (house_path : string) (fuel iter_count : nat)
    (g : WallLinkageGraph) : WallLinkageGraph * result unit :=
  match fuel with
  | O => (g, Ok tt)        (* "max iterations exceeded": a warning *)
  | S fuel' =>
      match straighten_iteration cutoff g with
      | (g', Raise e) => (g', Raise (StraightenWallsFailed house_path iter_count e))
      | (g', Ok false) => (g', Ok tt)
      | (g', Ok true) => straighten_loop cutoff house_path fuel' (S iter_count) g'
      end
  end.

(** [straighten_walls]: the house as the call leaves it, and the exception
    that leaves the call, if any. *)
Definition straighten_walls (conf : Conf.t) (h : House.t) : House.t * result unit :=
  let '(g, r) :=
    straighten_loop (Conf.straighten_walls_cutoff_gradient conf) (House.file_name h)
                    (Conf.straighten_walls_max_iter conf) 0 (House.wall_graph h) in
  (with_wall_graph h g, r).

(* --------------------------------------------------------------------- *)
(** ** id_gen.py *)

(** [ran = Random()]: the generator of [id_gen] is created without a seed
    when the module is imported, so Python seeds it from operating-system
    entropy; [ConfigManager.setup_seed] seeds the [random] module and
    numpy, not this object.  A generator is the sequence of values its
    calls to [randint(0, RAND_MAX)] return, and the number of calls made. *)
Module Random.
Record t : Type := mk { draws : nat -> Z; calls : nat }.
Definition randint (ran : t) : Z * t := (draws ran (calls ran), mk (draws ran) (S (calls ran))).
End Random.

Definition generate_hole_id (ran : Random.t) : string * Random.t :=
  let '(n, ran) := Random.randint ran in
  (("hole_" ++ str n)%string, ran).

(** [Hole(min_x, max_x)] *)
Definition Hole_init (min_x max_x : Z) (ran : Random.t) : Hole.t * Random.t :=
  let '(id, ran) := generate_hole_id ran in
  (Hole.mk min_x max_x None id, ran).

(* --------------------------------------------------------------------- *)
(** ** _eliminate_false_rooms *)

Definition Qsum (l : list Q) : Q := fold_left Qplus l 0%Q.

(** What [parent_polygon.intersection(child_polygon)] returns: a
    [Polygon], or a geometry of another class. *)
Inductive Geometry (polygon : Type) : Type :=
| IsPolygon (p : polygon)
| NotPolygon.
Arguments IsPolygon {polygon} p.
Arguments NotPolygon {polygon}.

Section Shapely.
(** The part of [shapely.geometry.Polygon] the room filter uses: the
    constructor ([None] when it raises), [area] and [intersection]. *)
Context {polygon : Type}.
Variable Polygon : list Pos -> option polygon.
Variable area : polygon -> Q.
Variable intersection : polygon -> polygon -> Geometry polygon.

(** The [for child_candidate_key in self.room_description_map] loop. *)
Fixpoint contained_children_loop (g : WallLinkageGraph)
    (parent_candidate_key : RoomKey) (parent_polygon : polygon)
    (entries : list (RoomKey * RoomDescription.t))
    (contained_children : list (RoomKey * Q * polygon))
  : result (list (RoomKey * Q * polygon)) :=
  match entries with
  | [] => Ok contained_children
  | (child_candidate_key, rd) :: rest =>
      if decide (child_candidate_key = parent_candidate_key)
      then contained_children_loop g parent_candidate_key parent_polygon rest contained_children
      else
        child_polyline ← get_polyline g (RoomDescription.walls rd);
        if (length child_polyline <? 3)%nat
        then contained_children_loop g parent_candidate_key parent_polygon rest contained_children
        else
          match Polygon child_polyline with
          | None => contained_children_loop g parent_candidate_key parent_polygon rest contained_children
          | Some child_polygon =>
              match intersection parent_polygon child_polygon with
              | IsPolygon i =>
                  if Qlt_bool 0 (area i)
                  then contained_children_loop g parent_candidate_key parent_polygon rest
                         (contained_children ++ [(child_candidate_key, area child_polygon, child_polygon)])
                  else contained_children_loop g parent_candidate_key parent_polygon rest contained_children
              | NotPolygon =>
                  contained_children_loop g parent_candidate_key parent_polygon rest contained_children
              end
          end
  end.

(** The [for parent_candidate_key in self.room_description_map] loop. *)
Fixpoint fully_contained_loop (g : WallLinkageGraph) (threshold : Q)
    (room_description_map : Dict.t RoomKey RoomDescription.t)
    (entries : list (RoomKey * RoomDescription.t))
    (fully_contained_keys : list RoomKey) : result (list RoomKey) :=
  match entries with
  | [] => Ok fully_contained_keys
  | (parent_candidate_key, rd) :: rest =>
      parent_polyline ← get_polyline g (RoomDescription.walls rd);
      if (length parent_polyline <? 3)%nat
      then fully_contained_loop g threshold room_description_map rest fully_contained_keys
      else
        match Polygon parent_polyline with
        | None => fully_contained_loop g threshold room_description_map rest fully_contained_keys
        | Some parent_polygon =>
            contained_children ←
              contained_children_loop g parent_candidate_key parent_polygon room_description_map [];
            let total_area := Qsum (map (fun a => a.1.2) contained_children) in
            if Qlt_bool (Qabs (total_area - area parent_polygon))
                        (area parent_polygon * threshold)
            then fully_contained_loop g threshold room_description_map rest
                   (fully_contained_keys ++ [parent_candidate_key])
            else fully_contained_loop g threshold room_description_map rest fully_contained_keys
        end
  end.

Definition with_room_description_map (h : House.t) (m : Dict.t RoomKey RoomDescription.t) : House.t :=
  House.mk (House.file_name h) (House.walls h) (House.openings h) (House.wall_graph h)
           (House.ordered_rooms h) m (House.rdr h) (House.room_key_hashes h).

(** [_eliminate_false_rooms]; the keys deleted at the end were read off the
    map itself, so [del] finds each of them. *)
Definition _eliminate_false_rooms (conf : Conf.t) (h : House.t) : result House.t :=
  let m := House.room_description_map h in
  fully_contained_keys ←
    fully_contained_loop (House.wall_graph h) (Conf.eliminate_false_rooms_threshold conf) m m [];
  Ok (with_room_description_map h (fold_left Dict.remove fully_contained_keys m)).

(* --------------------------------------------------------------------- *)
(** ** generate_wall_graph *)

(** [for wall in self.walls: self.wall_graph.add_wall(...)] *)
Fixpoint add_source_walls (g : WallLinkageGraph) (ws : list Datum.t) : result WallLinkageGraph :=
  match ws with
  | [] => Ok g
  | w :: rest =>
      g' ← add_wall g (Datum.x_min w, Datum.y_min w) (Datum.x_max w, Datum.y_max w)
                    (Datum.left_room_type w) (Datum.right_room_type w);
      add_source_walls g' rest
  end.

(** Room detection: both faces of every wall, keyed by [frozenset].  The
    hashes that the keys store are those of the walls of [g]; see
    [generate_wall_graph_rooms]. *)
Fixpoint detect_rooms (g : WallLinkageGraph) (ws : list WallRef)
    (m : Dict.t RoomKey RoomDescription.t) : result (Dict.t RoomKey RoomDescription.t) :=
  match ws with
  | [] => Ok m
  | w :: rest =>
      r1 ← find_room g (Wall.p1 (wall g w)) w;
      let room_key1 : RoomKey := list_to_set r1 in
      let m := Dict.set m room_key1 (RoomDescription.mk room_key1 r1 None) in
      r2 ← find_room g (Wall.p2 (wall g w)) w;
      let room_key2 : RoomKey := list_to_set r2 in
      let m := Dict.set m room_key2 (RoomDescription.mk room_key2 r2 None) in
      detect_rooms g rest m
  end.

Definition w_doors (h : House.t) : list LineSegment.t :=
  map (fun p => LineSegment.mk (Datum.x_min p, Datum.y_min p) (Datum.x_max p, Datum.y_max p))
      (House.openings h).

(** A door of [w_doors] is an object: it is named by its index there. *)
Abbreviation DoorRef := nat (only parsing).

Definition wall_door_pairs (g : WallLinkageGraph) (margin : Q) (doors : list LineSegment.t)
  : list (Root * DoorRef * WallRef) :=
  concat (imap (fun d door =>
                  omap (fun w =>
                          match line_contains_check g w door margin with
                          | (true, Some pd) => Some (pd, d, w)
                          | _ => None
                          end)
                       (seq 0 (length (walls g))))
               doors).

(** [wall.holes.append(new_door)] *)
Definition holes_append (g : WallLinkageGraph) (w : WallRef) (new_door : Hole.t) : WallLinkageGraph :=
  mkGraph (corners g) (wall_corners g) (tolerance_distance g)
          (alter (fun wl => Wall.mk (Wall.p1 wl) (Wall.p2 wl) (Wall.holes wl ++ [new_door])
                                    (Wall.left_room_type wl) (Wall.right_room_type wl) (Wall.id wl))
                 w (walls g)).

(** [for pd, door, wall in wall_door_pairs] *)
Fixpoint add_doors_loop (g : WallLinkageGraph) (ran : Random.t) (doors : list LineSegment.t)
    (pairs : list (Root * DoorRef * WallRef)) (added_doors : list DoorRef)
  : WallLinkageGraph * Random.t :=
  match pairs with
  | [] => (g, ran)
  | (pd, d, w) :: rest =>
      if bool_decide (d ∈ added_doors) then add_doors_loop g ran doors rest added_doors
      else
        let door := nth d doors (LineSegment.mk (0, 0) (0, 0)) in
        let wp1 := pos_of g (Wall.p1 (wall g w)) in
        let '(min_point, max_point) :=
          get_closest_and_furthest wp1 (LineSegment.p1 door) (LineSegment.p2 door) in
        let '(new_door, ran) :=
          Hole_init (manhattan_distance_between wp1 min_point)
                    (manhattan_distance_between wp1 max_point) ran in
        add_doors_loop (holes_append g w new_door) ran doors rest (added_doors ++ [d])
  end.

(** The "Add doors" part of [generate_wall_graph]. *)
Definition add_doors (conf : Conf.t) (h : House.t) (g : WallLinkageGraph) (ran : Random.t)
  : WallLinkageGraph * Random.t :=
  let doors := w_doors h in
  let pairs := wall_door_pairs g (Conf.max_door_perpendicular_offset conf) doors in
  let pairs := sorted Root.leb (fun x => x.1.1) pairs in
  add_doors_loop g ran doors pairs [].

(** The first part of [generate_wall_graph]: the wall graph and the rooms
    detected on it. *)
Definition generate_wall_graph_rooms (conf : Conf.t) (h : House.t) : result House.t :=
  g ← add_source_walls (WallLinkageGraph_init (Conf.wall_join_margin conf)) (House.walls h);
  m ← detect_rooms g (seq 0 (length (walls g))) [];
  Ok (House.mk (House.file_name h) (House.walls h) (House.openings h) g
               (House.ordered_rooms h) m (House.rdr h)
               (map (Wall_hash g) (seq 0 (length (walls g))))).

Definition generate_wall_graph (conf : Conf.t) (h : House.t) (ran : Random.t)
  : result (House.t * Random.t) :=
  h ← generate_wall_graph_rooms conf h;
  h ← (if Conf.eliminate_false_rooms_enabled conf then _eliminate_false_rooms conf h else Ok h);
  let ordered_rooms := Dict.keys (House.room_description_map h) in
  let '(g, ran) := add_doors conf h (House.wall_graph h) ran in
  Ok (House.mk (House.file_name h) (House.walls h) (House.openings h) g
               ordered_rooms (House.room_description_map h) (House.rdr h)
               (House.room_key_hashes h),
      ran).

End Shapely.

(* --------------------------------------------------------------------- *)
(** ** Shapely on axis-aligned boxes *)

(** An instance of the [Shapely] interface that is exact for polygons whose
    region is an axis-aligned box (a rectangle traced along its sides,
    possibly with extra vertices on them): the area is the shoelace
    formula, and the intersection of two boxes is the overlap of their
    extents, a [Polygon] when it has an interior and a point, a line or the
    empty collection otherwise.  Other polygons are outside its domain and
    their intersection is reported as [NotPolygon]. *)
Module BoxGeometry.

Fixpoint shoelace (pl : list Pos) : Z :=
  match pl with
  | a :: (b :: _) as rest => a.1 * b.2 - b.1 * a.2 + shoelace rest
  | _ => 0
  end.

Definition close (pl : list Pos) : list Pos :=
  match pl with
  | [] => []
  | a :: _ => pl ++ [a]
  end.

Definition twice_area (pl : list Pos) : Z := Z.abs (shoelace (close pl)).

Definition extent (pl : list Pos) : Z * Z * Z * Z :=
  match pl with
  | [] => (0, 0, 0, 0)
  | a :: rest =>
      fold_left (fun e p => (Z.min e.1.1.1 p.1, Z.min e.1.1.2 p.2, Z.max e.1.2 p.1, Z.max e.2 p.2))
                rest (a.1, a.2, a.1, a.2)
  end.

Definition is_box (pl : list Pos) : bool :=
  let '(x0, y0, x1, y1) := extent pl in
  twice_area pl =? 2 * (x1 - x0) * (y1 - y0).

Definition Polygon (pl : list Pos) : option (list Pos) :=
  if (length pl <? 3)%nat then None else Some pl.

Definition area (pl : list Pos) : Q := inject_Z (twice_area pl) / 2.

Definition intersection (p q : list Pos) : Geometry (list Pos) :=
  if is_box p && is_box q then
    let '(px0, py0, px1, py1) := extent p in
    let '(qx0, qy0, qx1, qy1) := extent q in
    let x0 := Z.max px0 qx0 in
    let y0 := Z.max py0 qy0 in
    let x1 := Z.min px1 qx1 in
    let y1 := Z.min py1 qy1 in
    if (x0 <? x1) && (y0 <? y1)
    then IsPolygon [(x0, y0); (x1, y0); (x1, y1); (x0, y1); (x0, y0)]
    else NotPolygon
  else NotPolygon.

End BoxGeometry.

(* ===================================================================== *)
(** * The annotation stages: util.py, floorplan.py, house.py, id_gen.py *)
(* ===================================================================== *)

(* --------------------------------------------------------------------- *)
(** ** util.py: hole_to_line, rect_line_distance *)

(** A real number [rat + coef * √rad] with [0 <= rad]: the square of the
    distance between a lattice point and a point that [hole_to_line] places
    on a wall.  Such numbers are only compared, and the comparisons are
    decided exactly. *)
Module Surd.
Record t : Type := mk { rat : Q; coef : Q; rad : Z }.

Definition of_Z (z : Z) : t := mk (inject_Z z) 0 1.

Definition sgn (q : Q) : Z := Z.sgn (Qnum q).

(** The sign of [a + b * √m]. *)
Definition sign2 (a b : Q) (m : Z) : Z :=
  let sb := if m =? 0 then 0 else sgn b in
  if sb =? 0 then sgn a
  else if sgn a =? 0 then sb
  else if sgn a =? sb then sb
  else
    let c := sgn (a * a - b * b * inject_Z m) in
    if c =? 0 then 0 else if 0 <? c then sgn a else sb.

(** The sign of [a + b * √m + c * √n]. *)
Definition sign3 (a b : Q) (m : Z) (c : Q) (n : Z) : Z :=
  let ss := sign2 a b m in
  let st := if n =? 0 then 0 else sgn c in
  if st =? 0 then ss
  else if ss =? 0 then st
  else if ss =? st then ss
  else
    let d := sign2 (a * a + b * b * inject_Z m - c * c * inject_Z n) (2 * a * b) m in
    if d =? 0 then 0 else if 0 <? d then ss else st.

(** [x < y] *)
Definition ltb (x y : t) : bool :=
  sign3 (rat x - rat y) (coef x) (rad x) (- coef y) (rad y) <? 0.

(** [min(x, y)] *)
Definition min (x y : t) : t := if ltb y x then y else x.
End Surd.

(** A point [origin + along / √len2], as [hole_to_line] computes it from
    the two ends of a wall and an offset along it. *)
Module WallPoint.
Record t : Type := mk { origin : Pos; along : Pos; len2 : Z }.
End WallPoint.

Definition hole_to_line (wall_p1 wall_p2 : Pos) (hole_start hole_end : Z)
  : result (WallPoint.t * WallPoint.t) :=
  let dx := wall_p2.1 - wall_p1.1 in
  let dy := wall_p2.2 - wall_p1.2 in
  let distance2 := dx * dx + dy * dy in
  if distance2 =? 0 then Raise ZeroDivisionError
  else Ok (WallPoint.mk wall_p1 (dx * hole_start, dy * hole_start) distance2,
           WallPoint.mk wall_p1 (dx * hole_end, dy * hole_end) distance2).

(** [sq_distance(c, p)] for a lattice point [c] and a point [p] on a wall,
    squared. *)
Definition sq_distance_to (c : Pos) (p : WallPoint.t) : Surd.t :=
  let a := c.1 - (WallPoint.origin p).1 in
  let b := c.2 - (WallPoint.origin p).2 in
  let n := WallPoint.along p in
  let l := inject_Z (WallPoint.len2 p) in
  Surd.mk (inject_Z (a * a + b * b) + inject_Z (n.1 * n.1 + n.2 * n.2) / l)
          (- inject_Z (2 * (a * n.1 + b * n.2)) / l)
          (WallPoint.len2 p).

Definition rect_line_distance (rect_p1 rect_p2 : Pos) (line_p1 line_p2 : WallPoint.t) : Surd.t :=
  let c1 := (rect_p1.1, rect_p1.2) in
  let c2 := (rect_p2.1, rect_p1.2) in
  let c3 := (rect_p2.1, rect_p2.2) in
  let c4 := (rect_p1.1, rect_p2.2) in
  fold_left (fun min_distance c =>
               let min_distance := Surd.min min_distance (sq_distance_to c line_p1) in
               Surd.min min_distance (sq_distance_to c line_p2))
            [c1; c2; c3; c4] (sq_distance_to c1 line_p1).


(* --------------------------------------------------------------------- *)
(** ** floorplan.py: AABBAnnotation *)

Module AABBAnnotation.
Record t : Type := mk { type : string; p1 : Pos; p2 : Pos }.
End AABBAnnotation.

(* --------------------------------------------------------------------- *)
(** ** house.py: classify_doors_and_windows *)

(** [hole.type = value] for the hole [i] of wall [w]. *)
Definition set_hole_type (g : WallLinkageGraph) (w i : nat) (value : string) : WallLinkageGraph :=
  mkGraph (corners g) (wall_corners g) (tolerance_distance g)
          (alter (fun wl =>
                    Wall.mk (Wall.p1 wl) (Wall.p2 wl)
                            (alter (fun hole => Hole.mk (Hole.min_x hole) (Hole.max_x hole)
                                                        (Some value) (Hole.id hole))
                                   i (Wall.holes wl))
                            (Wall.left_room_type wl) (Wall.right_room_type wl) (Wall.id wl))
                 w (walls g)).

(** [for hole in wall.holes: hole.type = "door"] *)
Definition set_holes_door (g : WallLinkageGraph) (w : WallRef) : WallLinkageGraph :=
  mkGraph (corners g) (wall_corners g) (tolerance_distance g)
          (alter (fun wl =>
                    Wall.mk (Wall.p1 wl) (Wall.p2 wl)
                            (map (fun hole => Hole.mk (Hole.min_x hole) (Hole.max_x hole)
                                                      (Some "door"%string) (Hole.id hole))
                                 (Wall.holes wl))
                            (Wall.left_room_type wl) (Wall.right_room_type wl) (Wall.id wl))
                 w (walls g)).

(** The first loop: the holes of every wall that lies in two rooms become
    doors; a wall in more than two rooms fails the assertion. *)
Fixpoint classify_internal_walls (room_keys : list RoomKey) (g : WallLinkageGraph)
    (ws : list WallRef) : WallLinkageGraph * result unit :=
  match ws with
  | [] => (g, Ok tt)
  | w :: rest =>
      let adjacent_rooms_keys := filter (fun room_key : gset nat => w ∈ room_key) room_keys in
      if (2 <? length adjacent_rooms_keys)%nat then (g, Raise AssertionError)
      else
        let g := if Nat.eqb (length adjacent_rooms_keys) 2 then set_holes_door g w else g in
        classify_internal_walls room_keys g rest
  end.

(** [for hole in wall.holes] inside the search for the hole closest to an
    entrance annotation. *)
Fixpoint closest_hole_in_wall (g : WallLinkageGraph) (annotation : AABBAnnotation.t)
    (w : WallRef) (i : nat) (holes : list Hole.t)
    (closest_hole : option HoleRef) (closest_hole_distance : Surd.t)
  : result (option HoleRef * Surd.t) :=
  match holes with
  | [] => Ok (closest_hole, closest_hole_distance)
  | hole :: rest =>
      match Hole.type hole with
      | None =>
          hole_line ← hole_to_line (pos_of g (Wall.p1 (wall g w))) (pos_of g (Wall.p2 (wall g w)))
                                   (Hole.min_x hole) (Hole.max_x hole);
          let hole_rect_dist :=
            rect_line_distance (AABBAnnotation.p1 annotation) (AABBAnnotation.p2 annotation)
                               hole_line.1 hole_line.2 in
          if Surd.ltb hole_rect_dist closest_hole_distance
          then closest_hole_in_wall g annotation w (S i) rest (Some (w, i)) hole_rect_dist
          else closest_hole_in_wall g annotation w (S i) rest closest_hole closest_hole_distance
      | Some _ =>
          closest_hole_in_wall g annotation w (S i) rest closest_hole closest_hole_distance
      end
  end.

(** [for wall in self.room_description_map[room_key].walls] *)
Fixpoint closest_hole_in_room (g : WallLinkageGraph) (annotation : AABBAnnotation.t)
    (ws : list WallRef) (closest_hole : option HoleRef) (closest_hole_distance : Surd.t)
  : result (option HoleRef * Surd.t) :=
  match ws with
  | [] => Ok (closest_hole, closest_hole_distance)
  | w :: rest =>
      r ← closest_hole_in_wall g annotation w 0 (Wall.holes (wall g w))
                               closest_hole closest_hole_distance;
      closest_hole_in_room g annotation rest r.1 r.2
  end.

(** [for annotation in annotations] for one room: the hole closest to each
    entrance annotation becomes a door. *)
Fixpoint classify_entrances_of_room (g : WallLinkageGraph) (room_walls : list WallRef)
    (annotations : list AABBAnnotation.t) : WallLinkageGraph * result unit :=
  match annotations with
  | [] => (g, Ok tt)
  | annotation :: rest =>
      if bool_decide (AABBAnnotation.type annotation = "entrance"%string) then
        (* The square of 10000000000000000. *)
        match closest_hole_in_room g annotation room_walls None
                (Surd.of_Z (10000000000000000 * 10000000000000000)) with
        | Raise e => (g, Raise e)
        | Ok (Some (w, i), _) =>
            classify_entrances_of_room (set_hole_type g w i "door") room_walls rest
        | Ok (None, _) => classify_entrances_of_room g room_walls rest
        end
      else classify_entrances_of_room g room_walls rest
  end.

(** [for room_key, rd in self.room_description_map.items()].  The
    embedding of [RoomDescription] does not carry the field
    [rd.annotations]; [annotations rd] stands for it. *)
Fixpoint classify_entrances (annotations : RoomDescription.t -> list AABBAnnotation.t)
    (g : WallLinkageGraph) (items : list (RoomKey * RoomDescription.t))
  : WallLinkageGraph * result unit :=
  match items with
  | [] => (g, Ok tt)
  | (room_key, rd) :: rest =>
      match classify_entrances_of_room g (RoomDescription.walls rd) (annotations rd) with
      | (g, Raise e) => (g, Raise e)
      | (g, Ok _) => classify_entrances annotations g rest
      end
  end.

(** [if hole.type is None: hole.type = "window"] for every hole. *)
Definition set_remaining_windows (g : WallLinkageGraph) : WallLinkageGraph :=
  mkGraph (corners g) (wall_corners g) (tolerance_distance g)
          (map (fun wl =>
                  Wall.mk (Wall.p1 wl) (Wall.p2 wl)
                          (map (fun hole =>
                                  match Hole.type hole with
                                  | None => Hole.mk (Hole.min_x hole) (Hole.max_x hole)
                                                    (Some "window"%string) (Hole.id hole)
                                  | Some _ => hole
                                  end)
                               (Wall.holes wl))
                          (Wall.left_room_type wl) (Wall.right_room_type wl) (Wall.id wl))
               (walls g)).

(** [classify_doors_and_windows]: the house as the call leaves it, and the
    exception that leaves the call, if any. *)
Definition classify_doors_and_windows (annotations : RoomDescription.t -> list AABBAnnotation.t)
    (h : House.t) : House.t * result unit :=
  let g := House.wall_graph h in
  match classify_internal_walls (Dict.keys (House.room_description_map h)) g
                                (seq 0 (length (walls g))) with
  | (g, Raise e) => (with_wall_graph h g, Raise e)
  | (g, Ok _) =>
      match classify_entrances annotations g (House.room_description_map h) with
      | (g, Raise e) => (with_wall_graph h g, Raise e)
      | (g, Ok _) => (with_wall_graph h (set_remaining_windows g), Ok tt)
      end
  end.

(* --------------------------------------------------------------------- *)
(** ** id_gen.py: generate_wall_id *)

(** [wall.id = value] *)
Definition set_wall_id (g : WallLinkageGraph) (w : WallRef) (value : string) : WallLinkageGraph :=
  mkGraph (corners g) (wall_corners g) (tolerance_distance g)
          (alter (fun wl => Wall.mk (Wall.p1 wl) (Wall.p2 wl) (Wall.holes wl)
                                    (Wall.left_room_type wl) (Wall.right_room_type wl)
                                    (Some value))
                 w (walls g)).

(** [generate_wall_id(room_id, wall)]: the id, and the graph and the
    generator as the call leaves them. *)
Definition generate_wall_id (room_id : string) (g : WallLinkageGraph) (w : WallRef)
    (ran : Random.t) : string * WallLinkageGraph * Random.t :=
  match Wall.id (wall g w) with
  | Some id => (id, g, ran)
  | None =>
      let '(n, ran) := Random.randint ran in
      let id := (room_id ++ "_wall" ++ str n)%string in
      (id, set_wall_id g w id, ran)
  end.

(* --------------------------------------------------------------------- *)
(** ** house.py: _load_data *)

(** What [_load_data] assigns to the house. *)
Module Loaded.
Record t : Type := mk {
  walls : list Datum.t;
  raw_objects : list Datum.t;
  openings : list Datum.t;
  entrances : list Datum.t;
  stairs : list Datum.t;
  raw_room_annotations : list Datum.t;
  x_min : Z;
  y_min : Z;
  x_max : Z;
  y_max : Z
}.
End Loaded.

(** [x["category"] == c] and [x["category"] not in cs] *)
Definition category_is (c : string) (x : Datum.t) : bool := bool_decide (Datum.category x = c).
Definition category_not_in (cs : list string) (x : Datum.t) : bool :=
  negb (bool_decide (Datum.category x ∈ cs)).

(** [min(l)] and [max(l)]: [None] stands for the [ValueError] on an empty
    list. *)
Definition list_min (l : list Z) : option Z :=
  match l with
  | [] => None
  | z :: l' => Some (fold_left Z.min l' z)
  end.
Definition list_max (l : list Z) : option Z :=
  match l with
  | [] => None
  | z :: l' => Some (fold_left Z.max l' z)
  end.

Definition _load_data (data : list Datum.t) : option Loaded.t :=
  let walls := List.filter (category_is "wall") data in
  let raw_objects := List.filter (category_not_in ["wall"; "door"; "entrance"]%string) data in
  let openings := List.filter (category_is "door") data in
  let entrances := List.filter (category_is "entrance") data in
  let stairs := List.filter (category_is "stairs") data in
  let raw_room_annotations := List.filter (category_not_in ["wall"; "door"]%string) data in
  x_min ← list_min (map Datum.x_min data ++ map Datum.x_max data);
  y_min ← list_min (map Datum.y_min data ++ map Datum.y_max data);
  x_max ← list_max (map Datum.x_min data ++ map Datum.x_max data);
  y_max ← list_max (map Datum.y_min data ++ map Datum.y_max data);
  Some (Loaded.mk walls raw_objects openings entrances stairs raw_room_annotations
                  x_min y_min x_max y_max).

(* ===================================================================== *)
(** * Example floorplans *)
(* ===================================================================== *)

Module Examples.

Definition wall_datum (a b c d : Z) : Datum.t := Datum.mk a b c d "wall" None None None None.
Definition door_datum (a b c d : Z) : Datum.t := Datum.mk a b c d "door" None None None None.

Definition conf (wall_join_margin : Q) : Conf.t :=
  Conf.mk wall_join_margin 10 (1 # 10) 100 true (1 # 10) 5 12415.

Definition house (ws ds : list Datum.t) : House.t :=
  House.mk "plan.txt" ws ds (WallLinkageGraph_init 0) [] [] [] [].

Definition graph_of (r : result WallLinkageGraph) : WallLinkageGraph :=
  match r with
  | Ok g => g
  | Raise _ => WallLinkageGraph_init 0
  end.

Definition house_of_graph (g : WallLinkageGraph) : House.t :=
  House.mk "plan.txt" [] [] g [] [] [] [].

(** A horizontal wall and a vertical wall whose lower end stops 8 short of
    it: a T-junction with a gap of 8. *)
Definition t_junction : House.t :=
  house [wall_datum 0 0 100 0; wall_datum 50 8 50 100] [].

(** A near-vertical wall from (0,0) to (1,100). *)
Definition leaning_wall : WallLinkageGraph :=
  graph_of (add_walls (WallLinkageGraph_init (1 # 2)) [((0, 0), (1, 100))]).

(** The leaning wall with a short wall from its top end to (1,0): once the
    top end is moved to x = 1 the short wall has length zero. *)
Definition leaning_wall_with_stub : WallLinkageGraph :=
  graph_of (add_walls (WallLinkageGraph_init (1 # 2)) [((0, 0), (1, 100)); ((0, 0), (1, 0))]).

(** Four walls, three of them with a door; wall 1 lies between the two
    rooms, wall 0 borders one room only and wall 3 borders none.  No
    Corner has moved since the room keys were built. *)
Definition door_hole (id : string) : Hole.t := Hole.mk 2 4 (Some "door"%string) id.

Definition two_rooms : House.t :=
  let g := mkGraph [Corner.mk (0, 0) [0; 1; 3]%nat; Corner.mk (10, 0) [0; 2]%nat;
                    Corner.mk (0, 10) [1; 2]%nat; Corner.mk (0, 20) [3]%nat]
                   [("0_0"%string, 0%nat); ("10_0"%string, 1%nat);
                    ("0_10"%string, 2%nat); ("0_20"%string, 3%nat)]
                   (1 # 2)
                   [Wall.mk 0 1 [door_hole "hole_1"] None None None;
                    Wall.mk 0 2 [door_hole "hole_2"] None None None;
                    Wall.mk 1 2 [] None None None;
                    Wall.mk 0 3 [door_hole "hole_3"] None None None] in
  let a : gset nat := {[ 0%nat; 1%nat ]} in
  let b : gset nat := {[ 1%nat; 2%nat ]} in
  House.mk "plan.txt" [] [] g [a; b]
           [(a, RoomDescription.mk a [0; 1]%nat None); (b, RoomDescription.mk b [1; 2]%nat None)]
           [] (map (Wall_hash g) (seq 0 4)).

Definition house_of (r : result House.t) : House.t :=
  match r with
  | Ok h => h
  | Raise _ => house [] []
  end.

(** The rectangle (0,0)-(10,10) split into two halves by a wall at x = 5,
    with a door on the dividing wall; and the house after room detection,
    with its three rooms: the outer perimeter and the two halves. *)
Definition split_rectangle : House.t :=
  house [wall_datum 0 0 5 0; wall_datum 5 0 10 0; wall_datum 10 0 10 10;
         wall_datum 10 10 5 10; wall_datum 5 10 0 10; wall_datum 0 10 0 0;
         wall_datum 5 0 5 10]
        [door_datum 5 3 5 6].

Definition split_rectangle_rooms : House.t :=
  house_of (generate_wall_graph_rooms (conf (1 # 2)) split_rectangle).

Definition outer_room : gset nat := list_to_set [5; 4; 3; 2; 1; 0]%nat.
Definition left_room : gset nat := list_to_set [6; 4; 5; 0]%nat.
Definition right_room : gset nat := list_to_set [6; 1; 2; 3]%nat.

(** The square (0,0)-(10,0)-(10,10)-(0,10). *)
Definition unit_square : WallLinkageGraph :=
  graph_of (add_walls (WallLinkageGraph_init (1 # 2))
                      [((0, 0), (10, 0)); ((10, 0), (10, 10));
                       ((10, 10), (0, 10)); ((0, 10), (0, 0))]).


(** A generator whose draws are [start], [start + 1], ... *)
Definition ran (start : Z) : Random.t := Random.mk (fun k => start + Z.of_nat k) 0.

(** The house that [generate_wall_graph] leaves, with Shapely restricted to
    boxes. *)
Definition generated (c : Conf.t) (h : House.t) (r : Random.t) : House.t :=
  match generate_wall_graph BoxGeometry.Polygon BoxGeometry.area BoxGeometry.intersection c h r with
  | Ok (h', _) => h'
  | Raise _ => h
  end.

(** The configuration with the room filter switched off. *)
Definition conf_no_filter : Conf.t :=
  Conf.mk (1 # 2) 10 (1 # 10) 100 false (1 # 10) 5 12415.

(** The square (0,0)-(10,10) with an opening (-5,0)-(15,0) that runs past
    both ends of the bottom wall. *)
Definition square_with_long_opening : House.t :=
  house [wall_datum 0 0 10 0; wall_datum 10 0 10 10; wall_datum 10 10 0 10;
         wall_datum 0 10 0 0]
        [door_datum (-5) 0 15 0].

(** The square (0,0)-(100,100) with an opening on its bottom wall, one on
    its top wall and one on its left wall, after [generate_wall_graph]
    (room filter off). *)
Definition square_with_openings : House.t :=
  generated conf_no_filter
    (house [wall_datum 0 0 100 0; wall_datum 100 0 100 100;
            wall_datum 100 100 0 100; wall_datum 0 100 0 0]
           [door_datum 40 0 60 0; door_datum 40 100 60 100; door_datum 0 30 0 50])
    (ran 7).

(** An entrance annotation below the bottom wall. *)
Definition entrance_below : AABBAnnotation.t := AABBAnnotation.mk "entrance" (45, -10) (55, -2).

(** The house [two_rooms] with a third room key that contains wall 1. *)
Definition three_rooms_on_one_wall : House.t :=
  let c : gset nat := {[ 1%nat; 3%nat ]} in
  House.mk "plan.txt" [] [] (House.wall_graph two_rooms) []
           (House.room_description_map two_rooms ++ [(c, RoomDescription.mk c [1; 3]%nat None)])
           [] (House.room_key_hashes two_rooms).

(** A horizontal wall and a vertical wall that stops 3 short of it. *)
Definition t_junction_walls : list Datum.t :=
  [wall_datum 0 0 100 0; wall_datum 50 3 50 100].

(** The wall (0,0)-(100,0) in a graph of tolerance 4. *)
Definition single_wall : WallLinkageGraph :=
  graph_of (add_walls (WallLinkageGraph_init 4) [((0, 0), (100, 0))]).

(** The rectangle (0,0)-(100,100) split into two rooms by a wall from
    (50,0) to (51,100), which leans by one unit, with an opening
    (50,30)-(50,60) on that wall.  The walls are numbered as in
    [split_rectangle], so the rooms have the same keys. *)
Definition leaning_divider : House.t :=
  house [wall_datum 0 0 50 0; wall_datum 50 0 100 0; wall_datum 100 0 100 100;
         wall_datum 100 100 51 100; wall_datum 51 100 0 100; wall_datum 0 100 0 0;
         wall_datum 50 0 51 100]
        [door_datum 50 30 50 60].

End Examples.

(* ===================================================================== *)
(** * Vocabulary of the properties *)
(* ===================================================================== *)

(** Close a decidable closed goal by evaluating its decision procedure. *)
Ltac decide_by_computation :=
  match goal with
  | |- ?P => apply (@bool_decide_unpack P _); vm_compute; exact I
  end.

(* --------------------------------------------------------------------- *)
(** ** Wall straightener *)

(** What a straightening step may not touch: the wall list (endpoints,
    holes, labels), the number of corners and every adjacency list. *)
Definition same_topology (g g' : WallLinkageGraph) : Prop :=
  walls g' = walls g
  /\ tolerance_distance g' = tolerance_distance g
  /\ length (corners g') = length (corners g)
  /\ forall c, adj_of g' c = adj_of g c.

(** [corrections cutoff k g g']: [k] successive iterations of the loop body,
    each of which corrected a wall, lead from [g] to [g']. *)
Inductive corrections (cutoff : Q) : nat -> WallLinkageGraph -> WallLinkageGraph -> Prop :=
| corrections_O (g : WallLinkageGraph) : corrections cutoff 0 g g
| corrections_S (k : nat) (g g' g'' : WallLinkageGraph) :
    straighten_iteration cutoff g = (g', Ok true) ->
    corrections cutoff k g' g'' ->
    corrections cutoff (S k) g g''.

(* --------------------------------------------------------------------- *)
(** ** Room keys *)

(** Wall [w] still has the hash that the room keys store for it: neither
    of its Corners has changed its position since the keys were built. *)
Definition hash_kept (h : House.t) (w : WallRef) : Prop :=
  House.room_key_hashes h !! w = Some (Wall_hash (House.wall_graph h) w).

(* --------------------------------------------------------------------- *)
(** ** Room filter *)

(** The polyline of a wall list, empty where [get_polyline] raises. *)
Definition polyline_of (g : WallLinkageGraph) (ws : list WallRef) : list Pos :=
  match get_polyline g ws with
  | Ok pl => pl
  | Raise _ => []
  end.

(** An optional element as a list of at most one element. *)
Definition option_list {T : Type} (o : option T) : list T :=
  match o with
  | Some x => [x]
  | None => []
  end.

Section RoomFilterVocabulary.
Context {polygon : Type}.
Variable Polygon : list Pos -> option polygon.
Variable area : polygon -> Q.
Variable intersection : polygon -> polygon -> Geometry polygon.

(** The area that room [B] adds to the total for parent [A]: its own
    polygon area, when it is another room, has a polyline of at least three
    vertices from which a [Polygon] can be built, and intersects the parent
    in a single [Polygon] of positive area. *)
Definition child_area (g : WallLinkageGraph) (A : gset nat) (PA : polygon)
    (B : gset nat * RoomDescription.t) : option Q :=
  if decide (B.1 = A) then None
  else
    let pl := polyline_of g (RoomDescription.walls B.2) in
    if (length pl <? 3)%nat then None
    else
      match Polygon pl with
      | None => None
      | Some PB =>
          match intersection PA PB with
          | IsPolygon i => if Qlt_bool 0 (area i) then Some (area PB) else None
          | NotPolygon => None
          end
      end.

(** The same with the summand as the specification words it: the area of
    the intersection itself. *)
Definition child_intersection_area (g : WallLinkageGraph) (A : gset nat) (PA : polygon)
    (B : gset nat * RoomDescription.t) : option Q :=
  if decide (B.1 = A) then None
  else
    let pl := polyline_of g (RoomDescription.walls B.2) in
    if (length pl <? 3)%nat then None
    else
      match Polygon pl with
      | None => None
      | Some PB =>
          match intersection PA PB with
          | IsPolygon i => if Qlt_bool 0 (area i) then Some (area i) else None
          | NotPolygon => None
          end
      end.

(** The sum of the specification: intersection areas. *)
Definition children_intersection_area (g : WallLinkageGraph)
    (m : Dict.t (gset nat) RoomDescription.t) (A : gset nat) (PA : polygon) : Q :=
  Qsum (omap (child_intersection_area g A PA) m).

(** The sum of the code, [total_area]: the children's own areas. *)
Definition children_area (g : WallLinkageGraph)
    (m : Dict.t (gset nat) RoomDescription.t) (A : gset nat) (PA : polygon) : Q :=
  Qsum (omap (child_area g A PA) m).

(** The deletion criterion for room [A]. *)
Definition covered_by_children (g : WallLinkageGraph) (threshold : Q)
    (m : Dict.t (gset nat) RoomDescription.t) (A : gset nat * RoomDescription.t) : Prop :=
  let pl := polyline_of g (RoomDescription.walls A.2) in
  (3 <= length pl)%nat
  /\ exists PA, Polygon pl = Some PA
       /\ (Qabs (children_area g m A.1 PA - area PA) < area PA * threshold)%Q.

(** The criterion as a boolean. *)
Definition covered_by_childrenb (g : WallLinkageGraph) (threshold : Q)
    (m : Dict.t (gset nat) RoomDescription.t) (A : gset nat * RoomDescription.t) : bool :=
  let pl := polyline_of g (RoomDescription.walls A.2) in
  if (length pl <? 3)%nat then false
  else
    match Polygon pl with
    | None => false
    | Some PA => Qlt_bool (Qabs (children_area g m A.1 PA - area PA)) (area PA * threshold)
    end.

End RoomFilterVocabulary.

(* --------------------------------------------------------------------- *)
(** ** Wall graph *)

(** Corner [c] is strictly within [cutoff] of the point [p], in the metric
    of [manhattan_distance_between]. *)
Definition near (g : WallLinkageGraph) (c : nat) (p : Z * Z) (cutoff : Q) : Prop :=
  (inject_Z (manhattan_distance_between (pos_of g c) p) < cutoff)%Q.

(** Every entry of the corner index refers to a Corner of the arena. *)
Definition index_in_range (g : WallLinkageGraph) : Prop :=
  forall c, c ∈ Dict.values (wall_corners g) -> (c < length (corners g))%nat.

(** How [add_wall], taking [g] to [g'], resolved the raw endpoint [p] to
    the corner [n]: an indexed Corner of [g] strictly within tolerance, or
    a Corner that did not exist in [g] and sits at [p]. *)
Definition resolved (g g' : WallLinkageGraph) (n : nat) (p : Z * Z) : Prop :=
  (n ∈ Dict.values (wall_corners g) /\ near g n p (tolerance_distance g))
  \/ ((length (corners g) <= n)%nat /\ pos_of g' n = p).

(** [g'] is [g] with more Corners at the end of the arena. *)
Definition grows (g g' : WallLinkageGraph) : Prop :=
  (exists extra, corners g' = corners g ++ extra)
  /\ tolerance_distance g' = tolerance_distance g
  /\ walls g' = walls g.

(** Among the Corners of the index [d], [n] is one nearest to [p] strictly
    within the tolerance. *)
Definition nearest (g : WallLinkageGraph) (d : Dict.t string nat) (p : Z * Z) (n : nat) : Prop :=
  n ∈ Dict.values d /\ near g n p (tolerance_distance g)
  /\ forall m, m ∈ Dict.values d -> near g m p (tolerance_distance g) ->
               manhattan_distance_between (pos_of g n) p
               <= manhattan_distance_between (pos_of g m) p.

(** Among the Corners of the index [d] other than [a], [n] is one nearest
    to [p] strictly within the tolerance. *)
Definition next_nearest (g : WallLinkageGraph) (d : Dict.t string nat) (p : Z * Z)
    (a n : nat) : Prop :=
  n ∈ Dict.values d /\ near g n p (tolerance_distance g)
  /\ forall m, m ∈ Dict.values d -> near g m p (tolerance_distance g) -> m <> a ->
               manhattan_distance_between (pos_of g n) p
               <= manhattan_distance_between (pos_of g m) p.

(** [a] is the only Corner of the index [d] strictly within the tolerance
    of [p]. *)
Definition only_near (g : WallLinkageGraph) (d : Dict.t string nat) (p : Z * Z) (a : nat) : Prop :=
  forall m, m ∈ Dict.values d -> near g m p (tolerance_distance g) -> m = a.

(** The merge rule of [add_wall] for one endpoint [p] of the wall it adds
    to reach [g'], where [d] is the corner index at the lookup of [p],
    [old] the number of Corners before the call, [n] the Corner that [p]
    gets and [n'] the Corner that the other endpoint gets.  With no
    indexed Corner within tolerance, [n] is a fresh Corner at [p].
    Otherwise [n] is a nearest indexed Corner, unless that Corner went to
    the other endpoint in the tie-break ([loses_tie]): then [n] is a
    nearest one among the others or, when there is no other, a fresh
    Corner at [p]. *)
Definition merged (g' : WallLinkageGraph) (old : nat) (d : Dict.t string nat)
    (p : Z * Z) (n n' : nat) (loses_tie : Prop) : Prop :=
  ((forall c, c ∈ Dict.values d -> ~ near g' c p (tolerance_distance g')) ->
   (old <= n)%nat /\ pos_of g' n = p)
  /\ ((exists c, c ∈ Dict.values d /\ near g' c p (tolerance_distance g')) ->
      nearest g' d p n
      \/ (nearest g' d p n' /\ loses_tie
          /\ (next_nearest g' d p n' n
              \/ (only_near g' d p n' /\ (old <= n)%nat /\ pos_of g' n = p)))).

(** The sum of the two coordinate differences, the Manhattan (L1) metric of
    the specification. *)
Definition l1_distance (a b : Z * Z) : Z := Z.abs (a.1 - b.1) + Z.abs (a.2 - b.2).

(** A well-formed graph, as [add_wall] builds it: every wall joins two
    corners of the arena at different positions and is registered in the
    adjacency list of both; every adjacency list is duplicate-free and
    holds only walls of the graph that end at the corner. *)
Definition wall_okb (g : WallLinkageGraph) (w : nat) : bool :=
  let c1 := Wall.p1 (wall g w) in
  let c2 := Wall.p2 (wall g w) in
  (c1 <? length (corners g))%nat && (c2 <? length (corners g))%nat
  && negb (Pos_eqb (pos_of g c1) (pos_of g c2))
  && bool_decide (w ∈ adj_of g c1) && bool_decide (w ∈ adj_of g c2).

(** The adjacency list of corner [c] is in order. *)
Definition corner_okb (g : WallLinkageGraph) (c : nat) : bool :=
  bool_decide (NoDup (adj_of g c))
  && forallb (fun w => (w <? length (walls g))%nat
                       && (Nat.eqb (Wall.p1 (wall g w)) c || Nat.eqb (Wall.p2 (wall g w)) c))
             (adj_of g c).

(** Every wall and every corner of the graph is in order. *)
Definition well_formedb (g : WallLinkageGraph) : bool :=
  forallb (wall_okb g) (seq 0 (length (walls g)))
  && forallb (corner_okb g) (seq 0 (length (corners g))).

(** Corner [c] is an end of wall [w]. *)
Definition incident (g : WallLinkageGraph) (w c : nat) : Prop :=
  Wall.p1 (wall g w) = c \/ Wall.p2 (wall g w) = c.


(* --------------------------------------------------------------------- *)
(** ** Openings and holes *)

(** Two graphs with the same corners and the same endpoints of every wall:
    they differ at most in the holes of their walls. *)
Definition same_geometry (g g' : WallLinkageGraph) : Prop :=
  corners g' = corners g
  /\ length (walls g') = length (walls g)
  /\ forall w, Wall.p1 (wall g' w) = Wall.p1 (wall g w)
               /\ Wall.p2 (wall g' w) = Wall.p2 (wall g w).

(** What the opening assignment records for an opening [door] matched to
    wall [w]. *)
Definition hole_of_opening (g : WallLinkageGraph) (margin : Q) (w : nat)
    (door : LineSegment.t) (hole : Hole.t) : Prop :=
  let wp1 := pos_of g (Wall.p1 (wall g w)) in
  let closest_furthest :=
    get_closest_and_furthest wp1 (LineSegment.p1 door) (LineSegment.p2 door) in
  (line_contains_check g w door margin).1 = true
  /\ Hole.min_x hole = manhattan_distance_between wp1 closest_furthest.1
  /\ Hole.max_x hole = manhattan_distance_between wp1 closest_furthest.2
  /\ 0 <= Hole.min_x hole
  /\ 0 <= Hole.max_x hole.

(** No wall of the graph has a hole yet. *)
Definition no_holes (g : WallLinkageGraph) : Prop :=
  forall w, Wall.holes (wall g w) = [].

(** The identifiers of the holes, wall by wall. *)
Definition hole_ids (h : House.t) : list (list string) :=
  map (fun wl => map Hole.id (Wall.holes wl)) (walls (House.wall_graph h)).

(** The configuration with another seed. *)
Definition with_seed (conf : Conf.t) (seed : Z) : Conf.t :=
  Conf.mk (Conf.wall_join_margin conf) (Conf.split_walls_max_iter conf)
          (Conf.straighten_walls_cutoff_gradient conf) (Conf.straighten_walls_max_iter conf)
          (Conf.eliminate_false_rooms_enabled conf) (Conf.eliminate_false_rooms_threshold conf)
          (Conf.max_door_perpendicular_offset conf) seed.

(* --------------------------------------------------------------------- *)
(** ** Face tracing and polylines *)




(** Corners [a] and [b] are the two ends of wall [w]. *)
Definition joins (g : WallLinkageGraph) (w a b : nat) : Prop :=
  (Wall.p1 (wall g w) = a /\ Wall.p2 (wall g w) = b)
  \/ (Wall.p2 (wall g w) = a /\ Wall.p1 (wall g w) = b).

(** Every two consecutive corners of [cs] are joined by a wall of [ws]. *)
Fixpoint chain (g : WallLinkageGraph) (ws : list nat) (cs : list nat) : Prop :=
  match cs with
  | a :: (b :: _) as rest => (exists w, w ∈ ws /\ joins g w a b) /\ chain g ws rest
  | _ => True
  end.

(* --------------------------------------------------------------------- *)
(** ** Wall splitter *)

(** A horizontal, respectively vertical, segment of non-zero length. *)
Definition horizontal (l : (Z * Z) * (Z * Z)) : Prop := l.1.2 = l.2.2 /\ l.1.1 <> l.2.1.

Definition vertical (l : (Z * Z) * (Z * Z)) : Prop := l.1.1 = l.2.1 /\ l.1.2 <> l.2.2.

(** The point [p] lies on the segment [l], more than 5 away from both of
    its ends. *)
Definition strictly_inside (l : (Z * Z) * (Z * Z)) (p : Z * Z) : Prop :=
  (horizontal l /\ p.2 = l.1.2 /\ Z.min l.1.1 l.2.1 + 5 < p.1 < Z.max l.1.1 l.2.1 - 5)
  \/ (vertical l /\ p.1 = l.1.1 /\ Z.min l.1.2 l.2.2 + 5 < p.2 < Z.max l.1.2 l.2.2 - 5).

(** The point [p] lies on the line of the segment [l], no more than 5
    beyond its ends. *)
Definition reaches (l : (Z * Z) * (Z * Z)) (p : Z * Z) : Prop :=
  (horizontal l /\ p.2 = l.1.2 /\ Z.min l.1.1 l.2.1 - 5 <= p.1 <= Z.max l.1.1 l.2.1 + 5)
  \/ (vertical l /\ p.1 = l.1.1 /\ Z.min l.1.2 l.2.2 - 5 <= p.2 <= Z.max l.1.2 l.2.2 + 5).

(** An axis-aligned source wall has two different ends. *)
Definition proper (w : Datum.t) : Prop :=
  is_manhattan w = true -> Datum.x_min w <> Datum.x_max w \/ Datum.y_min w <> Datum.y_max w.

(* --------------------------------------------------------------------- *)
(** ** Wall straightener: the outcome *)

(** The coordinate difference [d] of the segment from [a] to [b] is not a
    small slope: it is zero, or [abs(d) / length] is at least [cutoff]. *)
Definition not_inclined (cutoff : Q) (d : Z) (a b : Z * Z) : Prop :=
  d = 0 \/ (cutoff <= 0)%Q
  \/ (cutoff * cutoff * radicand (sq_distance a b) <= inject_Z (d * d))%Q.

(** Wall [w] has two different endpoints and the straightener finds
    nothing to correct on it. *)
Definition settled (g : WallLinkageGraph) (cutoff : Q) (w : nat) : Prop :=
  let a := pos_of g (Wall.p1 (wall g w)) in
  let b := pos_of g (Wall.p2 (wall g w)) in
  a <> b /\ not_inclined cutoff (a.1 - b.1) a b /\ not_inclined cutoff (a.2 - b.2) a b.

(* --------------------------------------------------------------------- *)
(** ** Opening assignment *)

(** The number of holes on the walls of the graph. *)
Definition holes_count (g : WallLinkageGraph) : nat :=
  length (concat (map Wall.holes (walls g))).

(** Some wall of the graph contains the opening. *)
Definition matched (g : WallLinkageGraph) (margin : Q) (door : LineSegment.t) : bool :=
  existsb (fun w => (line_contains_check g w door margin).1) (seq 0 (length (walls g))).

(** Wall [w] contains the opening [door] with offset [pd], and no wall of
    the graph contains it with a smaller offset. *)
Definition best_match (g : WallLinkageGraph) (margin : Q) (w : nat)
    (door : LineSegment.t) : Prop :=
  exists pd,
    line_contains_check g w door margin = (true, Some pd)
    /\ forall w' pd', (w' < length (walls g))%nat ->
                      line_contains_check g w' door margin = (true, Some pd') ->
                      Root.leb pd pd' = true.

(* --------------------------------------------------------------------- *)
(** ** Doors and windows *)

(** Hole [b] is hole [a] after classification steps: the same interval and
    identifier; the type is kept, or set to "door", or set to "window" if
    it was unresolved. *)
Definition hole_retyped (a b : Hole.t) : Prop :=
  Hole.min_x b = Hole.min_x a /\ Hole.max_x b = Hole.max_x a /\ Hole.id b = Hole.id a
  /\ (Hole.type b = Hole.type a \/ Hole.type b = Some "door"%string
      \/ (Hole.type a = None /\ Hole.type b = Some "window"%string)).

(** The same for a wall and its holes. *)
Definition wall_retyped (a b : Wall.t) : Prop :=
  Wall.p1 b = Wall.p1 a /\ Wall.p2 b = Wall.p2 a
  /\ Wall.left_room_type b = Wall.left_room_type a
  /\ Wall.right_room_type b = Wall.right_room_type a
  /\ Wall.id b = Wall.id a
  /\ Forall2 hole_retyped (Wall.holes a) (Wall.holes b).

(** The graphs differ at most in the types of their holes. *)
Definition retyped (g g' : WallLinkageGraph) : Prop :=
  corners g' = corners g /\ wall_corners g' = wall_corners g
  /\ tolerance_distance g' = tolerance_distance g
  /\ Forall2 wall_retyped (walls g) (walls g').

(** The number of room keys that contain wall [w]. *)
Definition rooms_of_wall (h : House.t) (w : nat) : nat :=
  length (filter (fun room_key : gset nat => w ∈ room_key)
                 (Dict.keys (House.room_description_map h))).

(** The hole is classified as a door. *)
Definition is_door (hole : Hole.t) : Prop := Hole.type hole = Some "door"%string.

(** Wall [w] has coincident ends and carries an unresolved hole. *)
Definition collapsed_with_open_hole (g : WallLinkageGraph) (w : nat) : Prop :=
  pos_of g (Wall.p1 (wall g w)) = pos_of g (Wall.p2 (wall g w))
  /\ exists hole, hole ∈ Wall.holes (wall g w) /\ Hole.type hole = None.

(* ===================================================================== *)
(** * Properties *)
(* ===================================================================== *)

(* --------------------------------------------------------------------- *)
(** ** Wall splitter: the junction gap *)

Lemma find_connections_gap_irrelevant (l1 l2 : Line) (gap gap' : Q) :
  find_connections l1 l2 gap = find_connections l1 l2 gap'.
Proof. reflexivity. Qed.

(** C3.  With [wall_join_margin = 10] the free end (50,8) of the vertical
    wall lies within the configured gap of the interior point (50,0) of the
    horizontal wall, and [_findConnections] called with that gap reports
    the junction [(2, 0)] at (50,0); but [find_connections] drops its [gap]
    argument and tests with the constant 5, reports no connection, and
    [split_source_walls] leaves both walls unsplit. *)
Theorem split_source_walls_ignores_configured_gap :
  let w1 := Examples.wall_datum 0 0 100 0 in
  let w2 := Examples.wall_datum 50 8 50 100 in
  _findConnections (line_of w1) (line_of w2) 10 = ((2, 0), (50, 0))
  /\ find_connections (line_of w1) (line_of w2) 10 = ((-1, -1), (0, 0))
  /\ House.walls (split_source_walls (Examples.conf 10) Examples.t_junction) = [w1; w2].
Proof. vm_compute. repeat split; reflexivity. Qed.

(** Conversely, with [wall_join_margin = 0.5] a free end that stops 3 short
    of the horizontal wall is outside the configured gap, and the wall is
    split all the same. *)
Lemma split_source_walls_splits_beyond_configured_gap :
  House.walls (split_source_walls (Examples.conf (1 # 2))
                 (Examples.house [Examples.wall_datum 0 0 100 0; Examples.wall_datum 50 3 50 100] []))
  = [Examples.wall_datum 50 3 50 100; Examples.wall_datum 0 0 50 0; Examples.wall_datum 50 0 100 0].
Proof. vm_compute. reflexivity. Qed.

(* --------------------------------------------------------------------- *)
(** ** Wall straightener *)

Lemma corner_lookup (g : WallLinkageGraph) (c : CornerRef) :
  corner g c = default dummy_corner (corners g !! c).
Proof. unfold corner. apply nth_lookup. Qed.

Lemma pos_of_set_pos_eq (g : WallLinkageGraph) (c : CornerRef) (p : Pos) :
  (c < length (corners g))%nat -> pos_of (set_pos g c p) c = p.
Proof.
  intros Hc. unfold pos_of. rewrite corner_lookup. simpl.
  rewrite list_lookup_alter_eq.
  destruct (lookup_lt_is_Some_2 (corners g) c Hc) as [k Hk].
  rewrite Hk. reflexivity.
Qed.

Lemma corner_set_pos_ne (g : WallLinkageGraph) (c c' : CornerRef) (p : Pos) :
  c' <> c -> corner (set_pos g c p) c' = corner g c'.
Proof.
  intros Hne. rewrite !corner_lookup. simpl.
  rewrite list_lookup_alter_ne by congruence. reflexivity.
Qed.

Lemma adj_of_set_pos (g : WallLinkageGraph) (c c' : CornerRef) (p : Pos) :
  adj_of (set_pos g c p) c' = adj_of g c'.
Proof.
  unfold adj_of. rewrite !corner_lookup. simpl.
  destruct (decide (c' = c)) as [->|Hne].
  - rewrite list_lookup_alter_eq.
    destruct (corners g !! c) as [k|] eqn:Hk; simpl in *; rewrite ?Hk; reflexivity.
  - rewrite list_lookup_alter_ne by congruence. reflexivity.
Qed.

Lemma same_topology_refl (g : WallLinkageGraph) : same_topology g g.
Proof. repeat split. Qed.

Lemma same_topology_trans (g1 g2 g3 : WallLinkageGraph) :
  same_topology g1 g2 -> same_topology g2 g3 -> same_topology g1 g3.
Proof.
  intros (Hw & Ht & Hl & Ha) (Hw' & Ht' & Hl' & Ha').
  split; [congruence|split; [congruence|split; [congruence|]]].
  intros c. rewrite Ha'. apply Ha.
Qed.

Lemma same_topology_set_pos (g : WallLinkageGraph) (c : CornerRef) (p : Pos) :
  same_topology g (set_pos g c p).
Proof.
  split; [reflexivity|split; [reflexivity|split]].
  - simpl. apply length_alter.
  - intros c'. apply adj_of_set_pos.
Qed.

Lemma same_topology_with_wall_corners (g : WallLinkageGraph) (d : Dict.t string CornerRef) :
  same_topology g (with_wall_corners g d).
Proof. repeat split. Qed.

Lemma straighten_iteration_topology (cutoff : Q) (g : WallLinkageGraph) :
  same_topology g (straighten_iteration cutoff g).1.
Proof.
  unfold straighten_iteration.
  destruct (find_inclined _ _ _) as [[w|]|e]; simpl; try apply same_topology_refl.
  destruct (slope_in_cutoff _ _ _ _) as [x_axis|e]; simpl; try apply same_topology_refl.
  destruct (correction g w x_axis) as [move_point new_pos].
  destruct (dict_del _ _) as [d|e]; simpl.
  - eapply same_topology_trans; [apply same_topology_set_pos|].
    apply same_topology_with_wall_corners.
  - apply same_topology_set_pos.
Qed.

Lemma straighten_loop_topology (cutoff : Q) (path : string) (fuel : nat) :
  forall (i : nat) (g : WallLinkageGraph),
    same_topology g (straighten_loop cutoff path fuel i g).1.
Proof.
  induction fuel as [|fuel IH]; intros i g; simpl.
  - apply same_topology_refl.
  - pose proof (straighten_iteration_topology cutoff g) as Hstep.
    destruct (straighten_iteration cutoff g) as [g' [[|]|e]]; simpl in *; try exact Hstep.
    eapply same_topology_trans; [exact Hstep|apply IH].
Qed.

(** Whatever [straighten_walls] does, and whether it returns or raises,
    the house it leaves has the same wall list (same walls, same endpoint
    corners, same holes), the same corners with the same adjacency lists,
    and the same room descriptions (the same key objects, with the members
    and the hashes they were built with, and the same wall lists), RDR
    edges and raw records: only corner positions and the corner index can
    differ. *)
Lemma straighten_walls_frame (conf : Conf.t) (h : House.t) :
  let h' := (straighten_walls conf h).1 in
  walls (House.wall_graph h') = walls (House.wall_graph h)
  /\ length (corners (House.wall_graph h')) = length (corners (House.wall_graph h))
  /\ (forall c, adj_of (House.wall_graph h') c = adj_of (House.wall_graph h) c)
  /\ (forall w, Wall.holes (wall (House.wall_graph h') w) = Wall.holes (wall (House.wall_graph h) w))
  /\ (forall w, Wall.p1 (wall (House.wall_graph h') w) = Wall.p1 (wall (House.wall_graph h) w)
                /\ Wall.p2 (wall (House.wall_graph h') w) = Wall.p2 (wall (House.wall_graph h) w))
  /\ House.room_description_map h' = House.room_description_map h
  /\ House.room_key_hashes h' = House.room_key_hashes h
  /\ House.ordered_rooms h' = House.ordered_rooms h
  /\ House.rdr h' = House.rdr h
  /\ House.walls h' = House.walls h
  /\ tolerance_distance (House.wall_graph h') = tolerance_distance (House.wall_graph h).
Proof.
  unfold straighten_walls.
  pose proof (straighten_loop_topology (Conf.straighten_walls_cutoff_gradient conf)
                (House.file_name h) (Conf.straighten_walls_max_iter conf) 0
                (House.wall_graph h)) as (Hw & Ht & Hl & Ha).
  destruct (straighten_loop _ _ _ _ _) as [g r]. simpl in *.
  assert (Hwall : forall w, wall g w = wall (House.wall_graph h) w).
  { intros w. unfold wall. rewrite Hw. reflexivity. }
  repeat split; auto; intros; rewrite ?Hwall; reflexivity.
Qed.

(** C10.  [straighten_walls] does not leave wall membership in the room
    keys unchanged, as the program tests it.  On the rectangle with the
    leaning dividing wall (room filter off) it returns normally after
    moving the Corner at (50,0) to (51,0).  The room map is the same: the
    left room still has the key and the wall list it had.  But a key
    stores the hash its walls had when it was built, and
    [LineSegment.__hash__] is taken from the Corner positions: before the
    call [wall in room_key] finds each of the four walls of the left room
    in its key, after the call it no longer finds the two that end at the
    moved Corner. *)
Theorem straighten_walls_breaks_room_key_lookup :
  let conf := Examples.conf_no_filter in
  let h := Examples.generated conf Examples.leaning_divider (Examples.ran 7) in
  let h' := (straighten_walls conf h).1 in
  (straighten_walls conf h).2 = Ok tt
  /\ pos_of (House.wall_graph h) 1%nat = (50, 0)
  /\ pos_of (House.wall_graph h') 1%nat = (51, 0)
  /\ House.room_description_map h' = House.room_description_map h
  /\ RoomDescription.walls
       <$> Dict.get (House.room_description_map h') Examples.left_room
     = Some [6; 4; 5; 0]%nat
  /\ map (fun w => wall_in_room_key h w Examples.left_room) [6; 4; 5; 0]%nat
     = [true; true; true; true]
  /\ map (fun w => wall_in_room_key h' w Examples.left_room) [6; 4; 5; 0]%nat
     = [false; true; true; false].
Proof. vm_compute. repeat split; reflexivity. Qed.

Lemma straighten_loop_raises (cutoff : Q) (path : string) (k : nat)
    (g gk : WallLinkageGraph) :
  corrections cutoff k g gk ->
  forall (fuel i : nat) (g' : WallLinkageGraph) (e : exn),
    (k < fuel)%nat ->
    straighten_iteration cutoff gk = (g', Raise e) ->
    straighten_loop cutoff path fuel i g
    = (g', Raise (StraightenWallsFailed path (i + k) e)).
Proof.
  induction 1 as [g|k g g1 g2 Hstep Hrest IH]; intros fuel i g' e Hlt Hraise.
  - destruct fuel as [|fuel]; [lia|]. simpl. rewrite Hraise.
    replace (i + 0)%nat with i by lia. reflexivity.
  - destruct fuel as [|fuel]; [lia|]. simpl. rewrite Hstep.
    rewrite (IH fuel (S i) g' e) by (lia || assumption).
    replace (S i + k)%nat with (i + S k)%nat by lia. reflexivity.
Qed.

(** An exception leaves [straighten_walls] only as [StraightenWallsFailed]
    with the file path of the house and an iteration count below the cap. *)
Lemma straighten_loop_raises_only_wrapped (cutoff : Q) (path : string) (fuel : nat) :
  forall (i : nat) (g g' : WallLinkageGraph) (e : exn),
    straighten_loop cutoff path fuel i g = (g', Raise e) ->
    exists (k : nat) (gk : WallLinkageGraph) (cause : exn),
      e = StraightenWallsFailed path (i + k) cause
      /\ (k < fuel)%nat
      /\ corrections cutoff k g gk
      /\ straighten_iteration cutoff gk = (g', Raise cause).
Proof.
  induction fuel as [|fuel IH]; intros i g g' e H; simpl in H.
  - discriminate.
  - destruct (straighten_iteration cutoff g) as [g1 [[|]|cause]] eqn:Hstep.
    + apply IH in H as (k & gk & cause & -> & Hlt & Hc & Hr).
      exists (S k), gk, cause. repeat split.
      * f_equal. lia.
      * lia.
      * econstructor; eassumption.
      * assumption.
    + discriminate.
    + injection H as <- <-. exists 0%nat, g, cause. repeat split.
      * f_equal. lia.
      * lia.
      * constructor.
      * assumption.
Qed.

(** C5.  If, after [k] successful corrections and before the iteration cap,
    the body of the loop raises an exception [e], then [straighten_walls]
    does not return normally: the exception that leaves the call is
    [StraightenWallsFailed] carrying the file path of the house, the
    iteration count [k] and [e] as its cause. *)
Theorem straighten_walls_wraps_and_propagates (conf : Conf.t) (h : House.t)
    (k : nat) (gk g' : WallLinkageGraph) (e : exn) :
  corrections (Conf.straighten_walls_cutoff_gradient conf) k (House.wall_graph h) gk ->
  (k < Conf.straighten_walls_max_iter conf)%nat ->
  straighten_iteration (Conf.straighten_walls_cutoff_gradient conf) gk = (g', Raise e) ->
  straighten_walls conf h
  = (with_wall_graph h g', Raise (StraightenWallsFailed (House.file_name h) k e)).
Proof.
  intros Hc Hlt Hraise. unfold straighten_walls.
  rewrite (straighten_loop_raises _ (House.file_name h) k _ gk Hc
             (Conf.straighten_walls_max_iter conf) 0 g' e Hlt Hraise).
  reflexivity.
Qed.

Lemma straighten_walls_wraps_and_propagates_witness :
  (straighten_walls (Examples.conf (1 # 2))
                    (Examples.house_of_graph Examples.leaning_wall_with_stub)).2
  = Raise (StraightenWallsFailed "plan.txt" 1 ZeroDivisionError).
Proof.
  set (g1 := (straighten_iteration (1 # 10) Examples.leaning_wall_with_stub).1).
  rewrite (straighten_walls_wraps_and_propagates
             (Examples.conf (1 # 2))
             (Examples.house_of_graph Examples.leaning_wall_with_stub)
             1 g1 g1 ZeroDivisionError).
  - reflexivity.
  - econstructor; [|constructor]. vm_compute. reflexivity.
  - vm_compute. lia.
  - vm_compute. reflexivity.
Defined.

Lemma is_Some_dict_del {V : Type} (d : Dict.t string V) (k : string) :
  is_Some (Dict.get d k) -> dict_del d k = Ok (Dict.remove d k).
Proof. intros [v Hv]. unfold dict_del. rewrite Hv. reflexivity. Qed.

(** C4 (amended).  When the scan finds an inclined wall, the iteration
    moves one endpoint and only that one: for an x-axis correction (a
    near-vertical wall) the first endpoint if its y is strictly smaller
    (the top vertex in image coordinates), otherwise the second; for a
    y-axis correction the first endpoint if its x is strictly smaller (the
    left vertex), otherwise the second.  The moved corner takes its
    partner's coordinate on the snapped axis, and the corner index loses
    the key of its old position and receives the key of its new one. *)
Theorem straighten_iteration_moves_top_or_left_vertex
    (cutoff : Q) (g : WallLinkageGraph) (w : WallRef) (x_axis : bool) :
  let c1 := Wall.p1 (wall g w) in
  let c2 := Wall.p2 (wall g w) in
  let a := pos_of g c1 in
  let b := pos_of g c2 in
  let first := if x_axis then a.2 <? b.2 else a.1 <? b.1 in
  let moved := if first then c1 else c2 in
  let partner := if first then c2 else c1 in
  find_inclined g cutoff (seq 0 (length (walls g))) = Ok (Some w) ->
  slope_in_cutoff (a.1 - b.1) a b cutoff = Ok x_axis ->
  (moved < length (corners g))%nat ->
  is_Some (Dict.get (wall_corners g) (Corner.repr (pos_of g moved))) ->
  exists g',
    straighten_iteration cutoff g = (g', Ok true)
    /\ pos_of g' moved
       = (if x_axis then ((pos_of g partner).1, (pos_of g moved).2)
          else ((pos_of g moved).1, (pos_of g partner).2))
    /\ (forall c, c <> moved -> pos_of g' c = pos_of g c)
    /\ wall_corners g'
       = Dict.set (Dict.remove (wall_corners g) (Corner.repr (pos_of g moved)))
                  (Corner.repr (pos_of g' moved)) moved.
Proof.
  intros c1 c2 a b first moved partner Hfound Hslope Hlt Hkey.
  unfold straighten_iteration. rewrite Hfound.
  fold c1 c2 a b. rewrite Hslope.
  assert (Hcorr : correction g w x_axis
                  = (moved, if x_axis then ((pos_of g partner).1, (pos_of g moved).2)
                            else ((pos_of g moved).1, (pos_of g partner).2))).
  { unfold correction. fold c1 c2 a b.
    subst moved partner first. destruct x_axis.
    - destruct (a.2 <? b.2); reflexivity.
    - destruct (a.1 <? b.1); reflexivity. }
  rewrite Hcorr.
  set (new_pos := if x_axis then ((pos_of g partner).1, (pos_of g moved).2)
                  else ((pos_of g moved).1, (pos_of g partner).2)).
  change (wall_corners (set_pos g moved new_pos)) with (wall_corners g).
  rewrite (is_Some_dict_del _ _ Hkey).
  eexists. split; [reflexivity|].
  assert (Hpos : pos_of (set_pos g moved new_pos) moved = new_pos)
    by (apply pos_of_set_pos_eq; exact Hlt).
  split; [exact Hpos|]. split.
  - intros c Hc. unfold pos_of.
    change (corner (with_wall_corners (set_pos g moved new_pos) _) c)
      with (corner (set_pos g moved new_pos) c).
    rewrite corner_set_pos_ne by exact Hc. reflexivity.
  - simpl. unfold pos_of at 2.
    change (corner (with_wall_corners (set_pos g moved new_pos) _) moved)
      with (corner (set_pos g moved new_pos) moved).
    reflexivity.
Qed.

Lemma straighten_iteration_moves_top_or_left_vertex_witness :
  exists g',
    straighten_iteration (1 # 10) Examples.leaning_wall = (g', Ok true)
    /\ pos_of g' 0%nat = (1, 0)
    /\ (forall c, c <> 0%nat -> pos_of g' c = pos_of Examples.leaning_wall c).
Proof.
  destruct (straighten_iteration_moves_top_or_left_vertex
              (1 # 10) Examples.leaning_wall 0%nat true)
    as (g' & Hiter & Hpos & Hothers & _).
  - vm_compute. reflexivity.
  - vm_compute. reflexivity.
  - vm_compute. lia.
  - vm_compute. eexists. reflexivity.
  - exists g'. split; [exact Hiter|]. split; [exact Hpos|exact Hothers].
Defined.

(** C4, as stated, fails on the wall from (0,0) to (1,100) with
    [cutoff_gradient = 0.1]: its slope along x is about 0.01, so it is
    corrected, but the endpoint with the greater y, (1,100), stays where it
    is and the endpoint with the smaller y is moved to x = 1. *)
Lemma straighten_walls_keeps_greater_y_endpoint :
  let g := Examples.leaning_wall in
  let h' := (straighten_walls (Examples.conf (1 # 2)) (Examples.house_of_graph g)).1 in
  let g' := House.wall_graph h' in
  let c1 := Wall.p1 (wall g 0%nat) in
  let c2 := Wall.p2 (wall g 0%nat) in
  find_inclined g (1 # 10) [0%nat] = Ok (Some 0%nat)
  /\ (pos_of g c1).2 < (pos_of g c2).2
  /\ pos_of g' c2 = pos_of g c2
  /\ pos_of g c1 = (0, 0) /\ pos_of g' c1 = (1, 0).
Proof. vm_compute. repeat split; reflexivity. Qed.

(* --------------------------------------------------------------------- *)
(** ** RDR derivation *)

Section IndexedConcat.
Context {A B : Type} (P : B -> Prop) `{!forall b, Decision (P b)}.

Lemma filter_none (l : list B) :
  (forall b, b ∈ l -> ~ P b) -> filter P l = [].
Proof.
  induction l as [|b l IH]; intros Hno; [reflexivity|].
  rewrite filter_cons. destruct (decide (P b)) as [Hb|Hb].
  - exfalso. apply (Hno b); [left|exact Hb].
  - apply IH. intros b' Hb'. apply Hno. right. exact Hb'.
Qed.

Lemma filter_all (l : list B) :
  (forall b, b ∈ l -> P b) -> filter P l = l.
Proof.
  induction l as [|b l IH]; intros Hall; [reflexivity|].
  rewrite filter_cons. destruct (decide (P b)) as [Hb|Hb].
  - f_equal. apply IH. intros b' Hb'. apply Hall. right. exact Hb'.
  - exfalso. apply Hb, Hall. left.
Qed.

Lemma filter_concat_imap_none (l : list A) :
  forall (f : nat -> A -> list B),
    (forall j y b, l !! j = Some y -> b ∈ f j y -> ~ P b) ->
    filter P (concat (imap f l)) = [].
Proof.
  induction l as [|a l IH]; intros f Hno; [reflexivity|].
  simpl. rewrite filter_app.
  rewrite (filter_none (f 0%nat a)) by (intros b; apply (Hno 0%nat a b); reflexivity).
  simpl. apply IH. intros j y b Hy. apply (Hno (S j) y b). exact Hy.
Qed.

(** In an indexed concatenation, a filter that rejects everything produced
    at the other indices keeps what it keeps of the one index. *)
Lemma filter_concat_imap_at (l : list A) :
  forall (f : nat -> A -> list B) (i : nat) (x : A),
    l !! i = Some x ->
    (forall j y b, j <> i -> l !! j = Some y -> b ∈ f j y -> ~ P b) ->
    filter P (concat (imap f l)) = filter P (f i x).
Proof.
  induction l as [|a l IH]; intros f i x Hi Hother; [discriminate|].
  simpl. rewrite filter_app. destruct i as [|i]; simpl in Hi.
  - injection Hi as ->.
    rewrite filter_concat_imap_none, app_nil_r; [reflexivity|].
    intros j y b Hy. apply (Hother (S j) y b); [lia|exact Hy].
  - rewrite (filter_none (f 0%nat a)) by (intros b; apply (Hother 0%nat a b); [lia|reflexivity]).
    simpl. apply (IH (f ∘ S) i x Hi).
    intros j y b Hj Hy. apply (Hother (S j) y b); [lia|exact Hy].
Qed.
End IndexedConcat.

Lemma rdr_edges_of_hole_ref (h : House.t) (w i : nat) (hole : Hole.t) e :
  e ∈ rdr_edges_of_hole h w i hole -> e.1.2 = (w, i).
Proof.
  unfold rdr_edges_of_hole. case_bool_decide as Hdoor; [|intros He; inversion He].
  destruct (_find_adjacent_rooms h w) as [|a [|b [|c l]]]; intros He.
  - inversion He.
  - apply list_elem_of_singleton in He as ->. reflexivity.
  - apply elem_of_cons in He as [->|He]; [reflexivity|].
    apply list_elem_of_singleton in He as ->. reflexivity.
  - inversion He.
Qed.

Lemma rdr_edges_of_wall_ref (h : House.t) (w : nat) (wl : Wall.t) e :
  e ∈ rdr_edges_of_wall h w wl -> e.1.2.1 = w.
Proof.
  unfold rdr_edges_of_wall. intros He.
  apply list_elem_of_In, in_concat in He as (es & Hes & He).
  apply list_elem_of_In, elem_of_lookup_imap in Hes as (i & hole & -> & _).
  apply list_elem_of_In, rdr_edges_of_hole_ref in He. rewrite He. reflexivity.
Qed.

(** The edges of the final list that reference a given hole are the ones
    that referenced it before the call, followed by the ones appended for
    that hole. *)
Lemma compute_rdr_edges_of_hole (h : House.t) (w i : nat) (wl : Wall.t) (hole : Hole.t) :
  walls (House.wall_graph h) !! w = Some wl ->
  Wall.holes wl !! i = Some hole ->
  filter (fun e => e.1.2 = (w, i)) (House.rdr (compute_rdr h))
  = filter (fun e => e.1.2 = (w, i)) (House.rdr h) ++ rdr_edges_of_hole h w i hole.
Proof.
  intros Hw Hi. simpl. rewrite filter_app. f_equal.
  rewrite (filter_concat_imap_at _ _ _ w wl Hw).
  - unfold rdr_edges_of_wall.
    rewrite (filter_concat_imap_at _ _ _ i hole Hi).
    + apply filter_all. intros e. apply rdr_edges_of_hole_ref.
    + intros j y e Hj _ He Heq. apply rdr_edges_of_hole_ref in He.
      rewrite He in Heq. congruence.
  - intros j y e Hj _ He Heq. apply rdr_edges_of_wall_ref in He.
    rewrite Heq in He. simpl in He. congruence.
Qed.

Lemma wall_in_room_key_spec (h : House.t) (w : nat) (k : gset nat) :
  wall_in_room_key h w k = true <-> w ∈ k /\ hash_kept h w.
Proof.
  unfold wall_in_room_key, hash_kept.
  rewrite andb_true_iff, !bool_decide_eq_true. reflexivity.
Qed.

(** The lookup that [_find_adjacent_rooms] makes finds a wall with a
    changed hash in no key. *)
Lemma find_adjacent_rooms_stale (h : House.t) (w : nat) :
  ~ hash_kept h w -> _find_adjacent_rooms h w = [].
Proof.
  intros Hstale. unfold _find_adjacent_rooms. apply filter_none.
  intros k _ Hk. apply wall_in_room_key_spec in Hk as [_ Hk]. contradiction.
Qed.

Lemma find_adjacent_rooms_two (h : House.t) (w : nat) (a b : gset nat) :
  let keys := Dict.keys (House.room_description_map h) in
  hash_kept h w ->
  NoDup keys -> a <> b -> a ∈ keys -> b ∈ keys -> w ∈ a -> w ∈ b ->
  (forall k, k ∈ keys -> w ∈ k -> k = a \/ k = b) ->
  _find_adjacent_rooms h w = [a; b] \/ _find_adjacent_rooms h w = [b; a].
Proof.
  intros keys Hkept Hnd Hab Ha Hb Hwa Hwb Honly.
  apply Permutation_length_2_inv. symmetry.
  apply NoDup_Permutation.
  - apply NoDup_filter. exact Hnd.
  - apply NoDup_cons. split; [|apply NoDup_singleton].
    intros Hin. apply list_elem_of_singleton in Hin. contradiction.
  - intros k. unfold _find_adjacent_rooms. rewrite list_elem_of_filter.
    rewrite elem_of_cons, list_elem_of_singleton, wall_in_room_key_spec. split.
    + intros [[Hwk _] Hk]. apply Honly; assumption.
    + intros [->| ->]; repeat split; assumption.
Qed.

Lemma find_adjacent_rooms_one (h : House.t) (w : nat) (a : gset nat) :
  let keys := Dict.keys (House.room_description_map h) in
  hash_kept h w ->
  NoDup keys -> a ∈ keys -> w ∈ a ->
  (forall k, k ∈ keys -> w ∈ k -> k = a) ->
  _find_adjacent_rooms h w = [a].
Proof.
  intros keys Hkept Hnd Ha Hwa Honly.
  apply Permutation_singleton_r.
  apply NoDup_Permutation.
  - apply NoDup_filter. exact Hnd.
  - apply NoDup_singleton.
  - intros k. unfold _find_adjacent_rooms. rewrite list_elem_of_filter.
    rewrite list_elem_of_singleton, wall_in_room_key_spec. split.
    + intros [[Hwk _] Hk]. apply Honly; assumption.
    + intros ->. repeat split; assumption.
Qed.

Lemma find_adjacent_rooms_none (h : House.t) (w : nat) :
  (forall k, k ∈ Dict.keys (House.room_description_map h) -> w ∉ k) ->
  _find_adjacent_rooms h w = [].
Proof.
  intros Hno. unfold _find_adjacent_rooms. apply filter_none.
  intros k Hk Hw. apply wall_in_room_key_spec in Hw as [Hw _]. exact (Hno k Hk Hw).
Qed.

(** What [compute_rdr] does for a hole of type "door" on a wall [w] none
    of whose Corners has moved since the room keys were built.  Among the
    edges of the RDR list after the call, those that reference the hole
    are the ones that referenced it before (none in a fresh house)
    followed by: both [(A, hole, B)] and [(B, hole, A)], in the order of
    the two keys in the room map, when [A] and [B] are the two room keys
    that contain [w]; the single edge [(A, hole, None)] when [A] is the
    only one; nothing when no key contains [w]. *)
Lemma compute_rdr_door_edges (h : House.t) (w i : nat) (wl : Wall.t) (hole : Hole.t) :
  let keys := Dict.keys (House.room_description_map h) in
  let before := filter (fun e => e.1.2 = (w, i)) (House.rdr h) in
  let after := filter (fun e => e.1.2 = (w, i)) (House.rdr (compute_rdr h)) in
  walls (House.wall_graph h) !! w = Some wl ->
  Wall.holes wl !! i = Some hole ->
  Hole.type hole = Some "door"%string ->
  hash_kept h w ->
  NoDup keys ->
  (forall a b : gset nat,
      a <> b -> a ∈ keys -> b ∈ keys -> w ∈ a -> w ∈ b ->
      (forall k, k ∈ keys -> w ∈ k -> k = a \/ k = b) ->
      after = before ++ [(a, (w, i), Some b); (b, (w, i), Some a)]
      \/ after = before ++ [(b, (w, i), Some a); (a, (w, i), Some b)])
  /\ (forall a : gset nat,
      a ∈ keys -> w ∈ a -> (forall k, k ∈ keys -> w ∈ k -> k = a) ->
      after = before ++ [(a, (w, i), None)])
  /\ ((forall k, k ∈ keys -> w ∉ k) -> after = before).
Proof.
  intros keys before after Hw Hi Hdoor Hkept Hnd.
  subst before after. rewrite (compute_rdr_edges_of_hole h w i wl hole Hw Hi).
  unfold rdr_edges_of_hole. rewrite bool_decide_eq_true_2 by exact Hdoor.
  split; [|split].
  - intros a b Hab Ha Hb Hwa Hwb Honly.
    destruct (find_adjacent_rooms_two h w a b Hkept Hnd Hab Ha Hb Hwa Hwb Honly) as [-> | ->];
      [left|right]; reflexivity.
  - intros a Ha Hwa Honly.
    rewrite (find_adjacent_rooms_one h w a Hkept Hnd Ha Hwa Honly). reflexivity.
  - intros Hno. rewrite (find_adjacent_rooms_none h w Hno). apply app_nil_r.
Qed.

(** The two rooms and the door on the wall between them. *)
Lemma compute_rdr_door_edges_two_rooms :
  let a : gset nat := {[ 0%nat; 1%nat ]} in
  let b : gset nat := {[ 1%nat; 2%nat ]} in
  let after := filter (fun e => e.1.2 = (1%nat, 0%nat))
                      (House.rdr (compute_rdr Examples.two_rooms)) in
  after = [] ++ [(a, (1, 0)%nat, Some b); (b, (1, 0)%nat, Some a)]
  \/ after = [] ++ [(b, (1, 0)%nat, Some a); (a, (1, 0)%nat, Some b)].
Proof.
  intros a b after.
  assert (Hkeys : Dict.keys (House.room_description_map Examples.two_rooms) = [a; b])
    by reflexivity.
  destruct (compute_rdr_door_edges Examples.two_rooms 1 0
              (Wall.mk 0 2 [Examples.door_hole "hole_2"] None None None)
              (Examples.door_hole "hole_2")) as (Htwo & _ & _).
  - reflexivity.
  - reflexivity.
  - reflexivity.
  - reflexivity.
  - rewrite Hkeys. decide_by_computation.
  - apply (Htwo a b).
    + decide_by_computation.
    + rewrite Hkeys. left.
    + rewrite Hkeys. right. left.
    + decide_by_computation.
    + decide_by_computation.
    + intros k Hk _. rewrite Hkeys in Hk.
      apply elem_of_cons in Hk as [Hk|Hk]; [left; exact Hk|].
      apply list_elem_of_singleton in Hk. right. exact Hk.
Qed.

(** C7.  [compute_rdr] appends no edge for a door on a wall that
    [straighten_walls] has straightened.  On the rectangle with the
    leaning dividing wall (room filter off), [generate_wall_graph],
    [straighten_walls] and [classify_doors_and_windows] all return
    normally; the hole of the dividing wall 6 is classified as a door, and
    wall 6 is a member of exactly two of the three room keys, the left and
    the right room.  Yet [compute_rdr] leaves the edge list empty: the
    Corner at (50,0) has moved, the hash of wall 6 is no longer the one the
    keys store, and [wall in room_key] finds it in no key.  Without
    [straighten_walls] the same input gets both edges. *)
Theorem compute_rdr_misses_door_of_straightened_wall :
  let conf := Examples.conf_no_filter in
  let no_annotations := fun _ : RoomDescription.t => @nil AABBAnnotation.t in
  let h := Examples.generated conf Examples.leaning_divider (Examples.ran 7) in
  let straight := straighten_walls conf h in
  let classified := classify_doors_and_windows no_annotations straight.1 in
  let keys := Dict.keys (House.room_description_map classified.1) in
  straight.2 = Ok tt /\ classified.2 = Ok tt
  /\ Wall.holes (wall (House.wall_graph classified.1) 6%nat)
     = [Hole.mk 30 60 (Some "door"%string) "hole_7"]
  /\ keys = [Examples.outer_room; Examples.left_room; Examples.right_room]
  /\ filter (fun k : gset nat => 6%nat ∈ k) keys = [Examples.left_room; Examples.right_room]
  /\ House.rdr (compute_rdr classified.1) = []
  /\ House.rdr (compute_rdr (classify_doors_and_windows no_annotations h).1)
     = [(Examples.left_room, (6%nat, 0%nat), Some Examples.right_room);
        (Examples.right_room, (6%nat, 0%nat), Some Examples.left_room)].
Proof. vm_compute. repeat split; reflexivity. Qed.

(* --------------------------------------------------------------------- *)
(** ** Room filter *)

Lemma Qlt_bool_iff (a b : Q) : Qlt_bool a b = true <-> (a < b)%Q.
Proof.
  unfold Qlt_bool. rewrite negb_true_iff. split.
  - intros H. apply Qnot_le_lt. intros Hle.
    apply Qle_bool_iff in Hle. congruence.
  - intros H. destruct (Qle_bool b a) eqn:E; [|reflexivity].
    apply Qle_bool_iff in E. exfalso. exact (Qlt_not_le _ _ H E).
Qed.

Section DictFacts.
Context {K V : Type} `{EqDecision K}.

Lemma dict_keys_remove_in (d : Dict.t K V) (k a : K) :
  a ∈ Dict.keys (Dict.remove d k) -> a ∈ Dict.keys d.
Proof.
  induction d as [|[k' v] d IH]; simpl; [auto|].
  destruct (decide (k' = k)); simpl.
  - intros Ha. right. exact Ha.
  - intros Ha. apply elem_of_cons in Ha as [->|Ha]; [left|right; auto].
Qed.

Lemma dict_keys_remove_NoDup (d : Dict.t K V) (k : K) :
  NoDup (Dict.keys d) -> NoDup (Dict.keys (Dict.remove d k)).
Proof.
  induction d as [|[k' v] d IH]; simpl; [auto|].
  intros Hnd. apply NoDup_cons in Hnd as [Hnotin Hnd].
  destruct (decide (k' = k)); simpl; [exact Hnd|].
  apply NoDup_cons. split; [|auto].
  intros Hin. apply Hnotin. eapply dict_keys_remove_in. exact Hin.
Qed.

Lemma dict_keys_remove_iff (d : Dict.t K V) (k a : K) :
  NoDup (Dict.keys d) ->
  a ∈ Dict.keys (Dict.remove d k) <-> a ∈ Dict.keys d /\ a <> k.
Proof.
  induction d as [|[k' v] d IH]; simpl; intros Hnd.
  - split; [intros Ha; inversion Ha|intros [Ha _]; inversion Ha].
  - apply NoDup_cons in Hnd as [Hnotin Hnd].
    destruct (decide (k' = k)) as [->|Hne]; simpl.
    + split.
      * intros Ha. split; [right; exact Ha|]. intros ->. contradiction.
      * intros [Ha Hak]. apply elem_of_cons in Ha as [Ha|Ha]; [contradiction|exact Ha].
    + rewrite !elem_of_cons, (IH Hnd). split.
      * intros [->|[Ha Hak]]; [split; [left; reflexivity|congruence]|split; [right|]; assumption].
      * intros [[->|Ha] Hak]; [left; reflexivity|right; split; assumption].
Qed.

Lemma dict_keys_remove_all_iff (ks : list K) :
  forall (d : Dict.t K V) (a : K),
    NoDup (Dict.keys d) ->
    a ∈ Dict.keys (fold_left Dict.remove ks d) <-> a ∈ Dict.keys d /\ a ∉ ks.
Proof.
  induction ks as [|k ks IH]; intros d a Hnd; simpl.
  - split; [intros Ha; split; [exact Ha|intros Hin; inversion Hin]|intros [Ha _]; exact Ha].
  - rewrite (IH _ a (dict_keys_remove_NoDup d k Hnd)).
    rewrite (dict_keys_remove_iff d k a Hnd), not_elem_of_cons. tauto.
Qed.
End DictFacts.

Lemma get_polyline_nonempty (g : WallLinkageGraph) (ws : list WallRef) :
  ws <> [] -> get_polyline g ws = Ok (polyline_of g ws).
Proof. destruct ws; [congruence|reflexivity]. Qed.

Section RoomFilter.
Context {polygon : Type}.
Variable Polygon : list Pos -> option polygon.
Variable area : polygon -> Q.
Variable intersection : polygon -> polygon -> Geometry polygon.

Lemma covered_by_childrenb_iff g threshold m A :
  covered_by_childrenb Polygon area intersection g threshold m A = true
  <-> covered_by_children Polygon area intersection g threshold m A.
Proof.
  unfold covered_by_childrenb, covered_by_children. simpl.
  destruct (Nat.ltb_spec (length (polyline_of g (RoomDescription.walls A.2))) 3) as [Hlt|Hge].
  - split; [discriminate|]. intros [Hge _]. lia.
  - destruct (Polygon _) as [PA|].
    + rewrite Qlt_bool_iff. split.
      * intros Hlt. split; [exact Hge|]. exists PA. split; [reflexivity|exact Hlt].
      * intros (_ & PA' & HPA & Hlt). injection HPA as <-. exact Hlt.
    + split; [discriminate|]. intros (_ & PA' & HPA & _). discriminate.
Qed.

Lemma omap_cons_option_list {T U : Type} (f : T -> option U) (x : T) (l : list T) :
  omap f (x :: l) = option_list (f x) ++ omap f l.
Proof. simpl. destruct (f x); reflexivity. Qed.

Lemma contained_children_loop_step g A PA (e : gset nat * RoomDescription.t)
    (rest : list (gset nat * RoomDescription.t)) acc :
  RoomDescription.walls e.2 <> [] ->
  exists acc',
    contained_children_loop Polygon area intersection g A PA (e :: rest) acc
    = contained_children_loop Polygon area intersection g A PA rest acc'
    /\ map (fun a => a.1.2) acc'
       = map (fun a => a.1.2) acc ++ option_list (child_area Polygon area intersection g A PA e).
Proof.
  destruct e as [B rd]. intros Hrd. unfold child_area. simpl in *.
  rewrite (get_polyline_nonempty g _ Hrd). simpl.
  destruct (decide (B = A));
    [exists acc; split; [reflexivity|simpl; rewrite app_nil_r; reflexivity]|].
  destruct (length (polyline_of g (RoomDescription.walls rd)) <? 3)%nat;
    [exists acc; split; [reflexivity|simpl; rewrite app_nil_r; reflexivity]|].
  destruct (Polygon _) as [PB|];
    [|exists acc; split; [reflexivity|simpl; rewrite app_nil_r; reflexivity]].
  destruct (intersection PA PB) as [i|];
    [|exists acc; split; [reflexivity|simpl; rewrite app_nil_r; reflexivity]].
  destruct (Qlt_bool 0 (area i));
    [|exists acc; split; [reflexivity|simpl; rewrite app_nil_r; reflexivity]].
  eexists. split; [reflexivity|]. rewrite map_app. reflexivity.
Qed.

Lemma contained_children_loop_areas g A PA (entries : list (gset nat * RoomDescription.t)) :
  (forall e, e ∈ entries -> RoomDescription.walls e.2 <> []) ->
  forall acc, exists cc,
    contained_children_loop Polygon area intersection g A PA entries acc = Ok cc
    /\ map (fun a => a.1.2) cc
       = map (fun a => a.1.2) acc ++ omap (child_area Polygon area intersection g A PA) entries.
Proof.
  induction entries as [|e entries IH]; intros Hne acc.
  - exists acc. split; [reflexivity|]. simpl. rewrite app_nil_r. reflexivity.
  - assert (Hrest : forall e, e ∈ entries -> RoomDescription.walls e.2 <> [])
      by (intros e' He; apply Hne; right; exact He).
    destruct (contained_children_loop_step g A PA e entries acc) as (acc' & -> & Hacc');
      [apply Hne; left|].
    destruct (IH Hrest acc') as (cc & Hcc & Hareas).
    exists cc. split; [exact Hcc|].
    rewrite Hareas, Hacc', omap_cons_option_list, <- app_assoc. reflexivity.
Qed.

Lemma fully_contained_loop_step g threshold m (e : gset nat * RoomDescription.t)
    (rest : list (gset nat * RoomDescription.t)) acc :
  (forall e, e ∈ m -> RoomDescription.walls e.2 <> []) ->
  RoomDescription.walls e.2 <> [] ->
  fully_contained_loop Polygon area intersection g threshold m (e :: rest) acc
  = fully_contained_loop Polygon area intersection g threshold m rest
      (acc ++ if covered_by_childrenb Polygon area intersection g threshold m e then [e.1] else []).
Proof.
  destruct e as [A rd]. intros Hm Hrd. cbn [snd] in Hrd.
  unfold covered_by_childrenb.
  cbn [fully_contained_loop fst snd].
  rewrite (get_polyline_nonempty g _ Hrd).
  cbn [mbind result_bind].
  destruct (length (polyline_of g (RoomDescription.walls rd)) <? 3)%nat;
    [rewrite app_nil_r; reflexivity|].
  destruct (Polygon _) as [PA|]; [|rewrite app_nil_r; reflexivity].
  destruct (contained_children_loop_areas g A PA m Hm []) as (cc & Hcc & Hareas).
  rewrite Hcc. cbn [mbind result_bind].
  unfold children_area. simpl in Hareas. rewrite <- Hareas.
  destruct (Qlt_bool _ _); [reflexivity|rewrite app_nil_r; reflexivity].
Qed.

Lemma fully_contained_loop_keys g threshold m (entries : list (gset nat * RoomDescription.t)) :
  (forall e, e ∈ m -> RoomDescription.walls e.2 <> []) ->
  (forall e, e ∈ entries -> RoomDescription.walls e.2 <> []) ->
  forall acc,
    fully_contained_loop Polygon area intersection g threshold m entries acc
    = Ok (acc ++ map fst (filter (fun e => covered_by_childrenb Polygon area intersection
                                                                g threshold m e = true)
                                 entries)).
Proof.
  intros Hm. induction entries as [|e entries IH]; intros Hne acc.
  - simpl. rewrite app_nil_r. reflexivity.
  - assert (Hrest : forall e, e ∈ entries -> RoomDescription.walls e.2 <> [])
      by (intros e' He; apply Hne; right; exact He).
    rewrite (fully_contained_loop_step g threshold m e entries acc Hm)
      by (apply Hne; left).
    rewrite (IH Hrest).
    destruct (covered_by_childrenb Polygon area intersection g threshold m e) eqn:E.
    + rewrite filter_cons_True by exact E. simpl. rewrite <- app_assoc. reflexivity.
    + rewrite filter_cons_False by (rewrite E; discriminate).
      rewrite app_nil_r. reflexivity.
Qed.

(** C1 (amended).  In a room map whose rooms each have at least one wall,
    [_eliminate_false_rooms] returns, and it deletes a room [A] whose
    polyline has at least three vertices exactly when the [Polygon] of [A]
    can be built and the sum, over every other room [B] whose intersection
    with [A] is a single [Polygon] of positive area, of the area of [B]
    itself differs from the area of [A] by less than [threshold] times the
    area of [A]. *)
Theorem eliminate_false_rooms_criterion (conf : Conf.t) (h : House.t)
    (A : gset nat) (rdA : RoomDescription.t) :
  let g := House.wall_graph h in
  let m := House.room_description_map h in
  let pl := polyline_of g (RoomDescription.walls rdA) in
  NoDup (Dict.keys m) ->
  (forall e, e ∈ m -> RoomDescription.walls e.2 <> []) ->
  (A, rdA) ∈ m ->
  (3 <= length pl)%nat ->
  exists h',
    _eliminate_false_rooms Polygon area intersection conf h = Ok h'
    /\ (A ∉ Dict.keys (House.room_description_map h')
        <-> exists PA,
              Polygon pl = Some PA
              /\ (Qabs (children_area Polygon area intersection g m A PA - area PA)
                  < area PA * Conf.eliminate_false_rooms_threshold conf)%Q).
Proof.
  intros g m pl Hnd Hne HA Hlen.
  unfold _eliminate_false_rooms. fold m g.
  rewrite (fully_contained_loop_keys g _ m m Hne Hne []). simpl.
  eexists. split; [reflexivity|]. simpl.
  rewrite (dict_keys_remove_all_iff _ m A Hnd).
  assert (HAkey : A ∈ Dict.keys m).
  { apply list_elem_of_fmap. exists (A, rdA). split; [reflexivity|exact HA]. }
  assert (Hcov : covered_by_children Polygon area intersection g
                                     (Conf.eliminate_false_rooms_threshold conf) m (A, rdA)
                 <-> exists PA, Polygon pl = Some PA
                       /\ (Qabs (children_area Polygon area intersection g m A PA - area PA)
                           < area PA * Conf.eliminate_false_rooms_threshold conf)%Q).
  { unfold covered_by_children. simpl. fold pl. tauto. }
  rewrite <- Hcov, <- covered_by_childrenb_iff.
  split.
  - intros Hnot. destruct (covered_by_childrenb _ _ _ _ _ _ _) eqn:E; [reflexivity|].
    exfalso. apply Hnot. split; [exact HAkey|].
    intros Hin. apply list_elem_of_fmap in Hin as ([B rdB] & HB & Hin). simpl in HB. subst B.
    apply list_elem_of_filter in Hin as [Hcovb Hin].
    assert (rdB = rdA) as ->.
    { clear -Hnd HA Hin. subst m. revert Hnd HA Hin.
      induction (House.room_description_map h) as [|[k v] d IH]; intros Hnd HA Hin.
      - inversion HA.
      - simpl in Hnd. apply NoDup_cons in Hnd as [Hnotin Hnd].
        apply elem_of_cons in HA as [HA|HA]; apply elem_of_cons in Hin as [Hin|Hin].
        + congruence.
        + exfalso. apply Hnotin. injection HA as <- <-.
          apply list_elem_of_fmap. exists (A, rdB). split; [reflexivity|exact Hin].
        + exfalso. apply Hnotin. injection Hin as <- <-.
          apply list_elem_of_fmap. exists (A, rdA). split; [reflexivity|exact HA].
        + apply IH; assumption. }
    congruence.
  - intros Hcovb [_ Hnotin]. apply Hnotin.
    apply list_elem_of_fmap. exists (A, rdA). split; [reflexivity|].
    apply list_elem_of_filter. split; [exact Hcovb|exact HA].
Qed.

End RoomFilter.

Lemma eliminate_false_rooms_criterion_witness :
  let h := Examples.split_rectangle_rooms in
  let conf := Examples.conf (1 # 2) in
  exists h',
    _eliminate_false_rooms BoxGeometry.Polygon BoxGeometry.area BoxGeometry.intersection conf h
    = Ok h'
    /\ (Examples.outer_room ∉ Dict.keys (House.room_description_map h')
        <-> exists PA,
              BoxGeometry.Polygon (polyline_of (House.wall_graph h) [5; 4; 3; 2; 1; 0]%nat)
              = Some PA
              /\ (Qabs (children_area BoxGeometry.Polygon BoxGeometry.area
                                      BoxGeometry.intersection (House.wall_graph h)
                                      (House.room_description_map h) Examples.outer_room PA
                        - BoxGeometry.area PA)
                  < BoxGeometry.area PA * Conf.eliminate_false_rooms_threshold conf)%Q).
Proof.
  intros h conf.
  apply (eliminate_false_rooms_criterion BoxGeometry.Polygon BoxGeometry.area
           BoxGeometry.intersection conf h Examples.outer_room
           (RoomDescription.mk Examples.outer_room [5; 4; 3; 2; 1; 0]%nat None)).
  - decide_by_computation.
  - intros e He. vm_compute in He.
    repeat (apply elem_of_cons in He as [->|He]; [discriminate|]). inversion He.
  - decide_by_computation.
  - vm_compute. lia.
Defined.

(** C1, as stated, fails on the rectangle split into two halves (threshold
    0.1).  The left half has area 50; the only other room that meets it in
    a polygon of positive area is the outer perimeter, and that
    intersection has area 50, so the sum of intersection areas is within
    the threshold of the half's own area and the claim would have the half
    deleted.  The code adds the outer room's own area, 100, and keeps the
    half. *)
Lemma eliminate_false_rooms_keeps_covered_half :
  let h := Examples.split_rectangle_rooms in
  let conf := Examples.conf (1 # 2) in
  let g := House.wall_graph h in
  let m := House.room_description_map h in
  let pl := polyline_of g [6; 4; 5; 0]%nat in
  exists h',
    _eliminate_false_rooms BoxGeometry.Polygon BoxGeometry.area BoxGeometry.intersection conf h
    = Ok h'
    /\ Dict.get m Examples.left_room
       = Some (RoomDescription.mk Examples.left_room [6; 4; 5; 0]%nat None)
    /\ (3 <= length pl)%nat
    /\ BoxGeometry.Polygon pl = Some pl
    /\ (Qabs (children_intersection_area BoxGeometry.Polygon BoxGeometry.area
                 BoxGeometry.intersection g m Examples.left_room pl
               - BoxGeometry.area pl)
         < BoxGeometry.area pl * Conf.eliminate_false_rooms_threshold conf)%Q
    /\ Examples.left_room ∈ Dict.keys (House.room_description_map h')
    /\ children_area BoxGeometry.Polygon BoxGeometry.area BoxGeometry.intersection
                     g m Examples.left_room pl == 100.
Proof.
  intros h conf g m pl.
  destruct (_eliminate_false_rooms BoxGeometry.Polygon BoxGeometry.area
              BoxGeometry.intersection conf h) as [h'|e] eqn:E;
    [|vm_compute in E; discriminate].
  exists h'. split; [reflexivity|].
  split; [vm_compute; reflexivity|].
  split; [vm_compute; lia|].
  split; [vm_compute; reflexivity|].
  split; [apply Qlt_bool_iff; vm_compute; reflexivity|].
  split.
  - assert (Hh' : Ok h' = _eliminate_false_rooms BoxGeometry.Polygon BoxGeometry.area
                            BoxGeometry.intersection conf h) by (symmetry; exact E).
    clear E. vm_compute in Hh'. injection Hh' as ->. decide_by_computation.
  - vm_compute. reflexivity.
Qed.

(* --------------------------------------------------------------------- *)
(** ** Wall graph: corner merging *)

Section SortedFacts.
Context {A K : Type} (leb : K -> K -> bool) (key : A -> K).

Lemma elem_of_insert_sorted (x y : A) (l : list A) :
  y ∈ insert_sorted leb key x l <-> y = x \/ y ∈ l.
Proof.
  induction l as [|z l IH]; simpl.
  - rewrite list_elem_of_singleton. split; [auto|intros [H|H]; [auto|inversion H]].
  - destruct (leb (key x) (key z)).
    + rewrite elem_of_cons. tauto.
    + rewrite !elem_of_cons, IH. tauto.
Qed.

Lemma elem_of_sorted (y : A) (l : list A) : y ∈ sorted leb key l <-> y ∈ l.
Proof.
  induction l as [|x l IH]; simpl; [tauto|].
  rewrite elem_of_insert_sorted, elem_of_cons, IH. tauto.
Qed.

Lemma sorted_nil_inv (l : list A) : sorted leb key l = [] -> l = [].
Proof.
  destruct l as [|x l]; [reflexivity|]. simpl. intros H.
  assert (Hx : x ∈ insert_sorted leb key x (sorted leb key l))
    by (apply elem_of_insert_sorted; left; reflexivity).
  rewrite H in Hx. inversion Hx.
Qed.
End SortedFacts.

Section SortedOrder.
Context {A K : Type} (leb : K -> K -> bool) (key : A -> K).
Hypothesis leb_total : forall a b, leb a b = true \/ leb b a = true.
Hypothesis leb_trans : forall a b c, leb a b = true -> leb b c = true -> leb a c = true.

Lemma insert_sorted_ascending (x : A) (l : list A) :
  StronglySorted (fun a b => leb (key a) (key b) = true) l ->
  StronglySorted (fun a b => leb (key a) (key b) = true) (insert_sorted leb key x l).
Proof.
  induction l as [|y l IH]; simpl; intros Hs.
  - constructor; [constructor|constructor].
  - apply StronglySorted_inv in Hs as [Hl Hy].
    destruct (leb (key x) (key y)) eqn:E.
    + constructor; [constructor; assumption|].
      constructor; [exact E|].
      rewrite Forall_forall in *. intros z Hz. eapply leb_trans; [exact E|]. apply Hy, Hz.
    + constructor; [apply IH, Hl|].
      rewrite Forall_forall in *. intros z Hz.
      apply elem_of_insert_sorted in Hz as [->|Hz]; [|apply Hy, Hz].
      destruct (leb_total (key x) (key y)) as [H|H]; [congruence|exact H].
Qed.

Lemma sorted_ascending (l : list A) :
  StronglySorted (fun a b => leb (key a) (key b) = true) (sorted leb key l).
Proof.
  induction l as [|x l IH]; simpl; [constructor|].
  apply insert_sorted_ascending, IH.
Qed.

Lemma length_insert_sorted (x : A) (l : list A) :
  length (insert_sorted leb key x l) = S (length l).
Proof. induction l as [|y l IH]; simpl; [reflexivity|]. destruct (leb _ _); simpl; congruence. Qed.

Lemma length_sorted (l : list A) : length (sorted leb key l) = length l.
Proof. induction l as [|x l IH]; simpl; [reflexivity|]. rewrite length_insert_sorted. congruence. Qed.
End SortedOrder.

Lemma Zleb_total (a b : Z) : Z.leb a b = true \/ Z.leb b a = true.
Proof. destruct (Z.leb_spec a b); [left; reflexivity|right; apply Z.leb_le; lia]. Qed.

Lemma Zleb_trans (a b c : Z) : Z.leb a b = true -> Z.leb b c = true -> Z.leb a c = true.
Proof. rewrite !Z.leb_le. lia. Qed.

Lemma find_closest_some g target d cutoff a b n :
  find_closest g target d cutoff = (a, b) ->
  a = Some n \/ b = Some n ->
  n ∈ Dict.values d /\ near g n target cutoff.
Proof.
  unfold find_closest.
  set (tuples := omap _ _).
  intros H Hn.
  assert (Hin : exists dist, (dist, n) ∈ sorted Z.leb fst tuples).
  { destruct (sorted Z.leb fst tuples) as [|[d1 c1] [|[d2 c2] rest]]; simpl in H;
      injection H as <- <-; destruct Hn as [Hn|Hn]; try discriminate;
      injection Hn as <-; eexists; try (left; fail); right; left. }
  destruct Hin as (dist & Hin). apply elem_of_sorted in Hin.
  subst tuples. apply list_elem_of_omap in Hin as (c & Hc & Hsome).
  destruct (Qlt_bool _ _) eqn:E; [|discriminate].
  injection Hsome as <- <-. split; [exact Hc|]. apply Qlt_bool_iff. exact E.
Qed.

Lemma find_closest_none g target d cutoff b :
  find_closest g target d cutoff = (None, b) ->
  b = None /\ forall n, n ∈ Dict.values d -> ~ near g n target cutoff.
Proof.
  unfold find_closest.
  set (tuples := omap _ _).
  intros H.
  destruct (sorted Z.leb fst tuples) as [|[d1 c1] [|[d2 c2] rest]] eqn:E; simpl in H;
    try discriminate.
  injection H as <-. split; [reflexivity|].
  apply sorted_nil_inv in E. intros n Hn Hnear.
  assert (Hin : (manhattan_distance_between (pos_of g n) target, n) ∈ tuples).
  { subst tuples. apply list_elem_of_omap. exists n. split; [exact Hn|].
    apply Qlt_bool_iff in Hnear. rewrite Hnear. reflexivity. }
  rewrite E in Hin. inversion Hin.
Qed.

Lemma grows_refl g : grows g g.
Proof. split; [exists []; rewrite app_nil_r; reflexivity|split; reflexivity]. Qed.

Lemma grows_trans g1 g2 g3 : grows g1 g2 -> grows g2 g3 -> grows g1 g3.
Proof.
  intros ([e1 H1] & Ht1 & Hw1) ([e2 H2] & Ht2 & Hw2).
  split; [exists (e1 ++ e2); rewrite H2, H1, app_assoc; reflexivity|].
  split; congruence.
Qed.

Lemma grows_length g g' : grows g g' -> (length (corners g) <= length (corners g'))%nat.
Proof. intros ([e H] & _). rewrite H, length_app. lia. Qed.

Lemma grows_pos_of g g' n :
  grows g g' -> (n < length (corners g))%nat -> pos_of g' n = pos_of g n.
Proof.
  intros ([e H] & _) Hn. unfold pos_of, corner. rewrite H.
  rewrite app_nth1 by exact Hn. reflexivity.
Qed.

Lemma dict_values_set {V : Type} (d : Dict.t string V) (k : string) (x v : V) :
  v ∈ Dict.values (Dict.set d k x) -> v = x \/ v ∈ Dict.values d.
Proof.
  induction d as [|[k' v'] d IH]; simpl.
  - intros H. apply list_elem_of_singleton in H. left. exact H.
  - destruct (decide (k' = k)); simpl; rewrite !elem_of_cons; [tauto|].
    intros [H|H]; [right; left; exact H|]. apply IH in H. tauto.
Qed.

Lemma or_new_corner_spec g o p g' n :
  or_new_corner g o p = (g', n) ->
  (o = Some n /\ g' = g)
  \/ (o = None /\ n = length (corners g) /\ pos_of g' n = p
      /\ wall_corners g' = Dict.set (wall_corners g) (Corner.repr p) n
      /\ corners g' = corners g ++ [Corner.mk p []]).
Proof.
  destruct o as [c|]; simpl; intros H; injection H as <- <-.
  - left. split; reflexivity.
  - right. repeat split.
    unfold pos_of, corner. simpl. rewrite nth_middle. reflexivity.
Qed.

Lemma or_new_corner_grows g o p g' n :
  or_new_corner g o p = (g', n) -> grows g g'.
Proof.
  destruct o as [c|]; simpl; intros H; injection H as <- <-.
  - apply grows_refl.
  - split; [eexists; reflexivity|split; reflexivity].
Qed.

Lemma pos_of_adj_append (cs : list Corner.t) (c w n : nat) :
  Corner.pos (nth n (adj_append cs c w) dummy_corner) = Corner.pos (nth n cs dummy_corner).
Proof.
  unfold adj_append. rewrite !nth_lookup.
  destruct (decide (c = n)) as [->|Hne].
  - rewrite list_lookup_alter_eq. destruct (cs !! n); reflexivity.
  - rewrite list_lookup_alter_ne by exact Hne. reflexivity.
Qed.

Lemma manhattan_distance_between_self (p : Z * Z) : manhattan_distance_between p p = 0.
Proof. unfold manhattan_distance_between. lia. Qed.

Lemma manhattan_distance_between_pos (p q : Z * Z) :
  p <> q -> 0 < manhattan_distance_between p q.
Proof.
  destruct p as [x y], q as [x' y']. unfold manhattan_distance_between. simpl.
  intros H. destruct (Z.eq_dec x x') as [->|Hx]; [|lia].
  destruct (Z.eq_dec y y') as [->|Hy]; [congruence|lia].
Qed.

(** What the two results of [find_closest] are, with the tolerance of the
    graph as cutoff. *)
Lemma find_closest_ranked (g : WallLinkageGraph) (p : Z * Z) (d : Dict.t string nat)
    (a b : option nat) :
  find_closest g p d (tolerance_distance g) = (a, b) ->
  match a with
  | None => b = None /\ forall c, c ∈ Dict.values d -> ~ near g c p (tolerance_distance g)
  | Some a' =>
      nearest g d p a'
      /\ match b with
         | Some b' => next_nearest g d p a' b'
         | None => only_near g d p a'
         end
  end.
Proof.
  intros H. destruct a as [a'|]; [|exact (find_closest_none _ _ _ _ _ H)].
  set (dist n := manhattan_distance_between (pos_of g n) p).
  destruct (find_closest_some g p d _ (Some a') b a' H) as [Ha Hna]; [left; reflexivity|].
  revert H. unfold find_closest.
  set (tuples := omap _ _).
  assert (Htuple : forall x, x ∈ tuples ->
            x.1 = dist x.2 /\ x.2 ∈ Dict.values d /\ near g x.2 p (tolerance_distance g)).
  { intros x Hx. unfold tuples in Hx. apply list_elem_of_omap in Hx as (c & Hc & Hsome).
    destruct (Qlt_bool _ _) eqn:Eq; [|discriminate]. injection Hsome as <-.
    split; [reflexivity|]. split; [exact Hc|]. apply Qlt_bool_iff. exact Eq. }
  assert (Hin : forall n, n ∈ Dict.values d -> near g n p (tolerance_distance g) ->
                          (dist n, n) ∈ sorted Z.leb fst tuples).
  { intros n Hn Hnear. apply elem_of_sorted. unfold tuples.
    apply list_elem_of_omap. exists n. split; [exact Hn|].
    apply Qlt_bool_iff in Hnear. rewrite Hnear. reflexivity. }
  assert (Hst : forall x, x ∈ sorted Z.leb fst tuples ->
                          x.1 = dist x.2 /\ x.2 ∈ Dict.values d
                          /\ near g x.2 p (tolerance_distance g))
    by (intros x Hx; apply Htuple; apply elem_of_sorted in Hx; exact Hx).
  clearbody tuples.
  pose proof (sorted_ascending Z.leb (@fst Z nat) Zleb_total Zleb_trans tuples) as Hasc.
  destruct (sorted Z.leb fst tuples) as [|x [|y rest]]; intros H; simpl in H;
    [discriminate| |]; injection H as <- <-.
  - split; [split; [exact Ha|split; [exact Hna|]]|].
    + intros m Hm Hnear. apply Hin in Hnear; [|exact Hm].
      apply list_elem_of_singleton in Hnear. rewrite <- Hnear. simpl. lia.
    + intros m Hm Hnear. apply Hin in Hnear; [|exact Hm].
      apply list_elem_of_singleton in Hnear. rewrite <- Hnear. reflexivity.
  - apply StronglySorted_inv in Hasc as [Hasc' Hx].
    apply StronglySorted_inv in Hasc' as [_ Hy].
    rewrite Forall_forall in Hx, Hy.
    destruct (Hst x) as (Hxd & _ & _); [left|].
    destruct (Hst y) as (Hyd & Hyin & Hynear); [right; left|].
    split; [split; [exact Ha|split; [exact Hna|]]|split; [exact Hyin|split; [exact Hynear|]]].
    + intros m Hm Hnear. apply Hin in Hnear; [|exact Hm].
      apply elem_of_cons in Hnear as [Heq|Hnear]; [rewrite <- Heq; simpl; lia|].
      fold (dist x.2). rewrite <- Hxd. apply Z.leb_le. apply (Hx (dist m, m)). exact Hnear.
    + intros m Hm Hnear Hneq. apply Hin in Hnear; [|exact Hm].
      apply elem_of_cons in Hnear as [Heq|Hnear];
        [rewrite <- Heq in Hneq; simpl in Hneq; congruence|].
      apply elem_of_cons in Hnear as [Heq|Hnear]; [rewrite <- Heq; simpl; lia|].
      fold (dist y.2). rewrite <- Hyd. apply Z.leb_le. apply (Hy (dist m, m)). exact Hnear.
Qed.

Section Transport.
Variables g gf : WallLinkageGraph.
Variable d : Dict.t string nat.
Hypothesis Htol : tolerance_distance gf = tolerance_distance g.
Hypothesis Hpos : forall c, c ∈ Dict.values d -> pos_of gf c = pos_of g c.

Lemma near_agree (c : nat) (p : Z * Z) :
  c ∈ Dict.values d ->
  near gf c p (tolerance_distance gf) <-> near g c p (tolerance_distance g).
Proof. intros Hc. unfold near. rewrite Htol, (Hpos c Hc). reflexivity. Qed.

Lemma nearest_agree (p : Z * Z) (n : nat) : nearest g d p n -> nearest gf d p n.
Proof.
  intros (Hin & Hnear & Hmin). split; [exact Hin|]. split; [apply near_agree; assumption|].
  intros m Hm Hmn. rewrite (Hpos n Hin), (Hpos m Hm).
  apply Hmin; [exact Hm|]. apply near_agree; assumption.
Qed.

Lemma next_nearest_agree (p : Z * Z) (a n : nat) :
  next_nearest g d p a n -> next_nearest gf d p a n.
Proof.
  intros (Hin & Hnear & Hmin). split; [exact Hin|]. split; [apply near_agree; assumption|].
  intros m Hm Hmn Hne. rewrite (Hpos n Hin), (Hpos m Hm).
  apply Hmin; [exact Hm| |exact Hne]. apply near_agree; assumption.
Qed.

Lemma only_near_agree (p : Z * Z) (a : nat) : only_near g d p a -> only_near gf d p a.
Proof. intros H m Hm Hmn. apply H; [exact Hm|]. apply near_agree; assumption. Qed.
End Transport.

(** C2 (amended).  When [add_wall] adds a wall, each endpoint gets an
    indexed Corner strictly within [tolerance_distance] of it, as
    [manhattan_distance_between] measures it, or a fresh Corner at the
    endpoint, and the two Corners are distinct.  Which of them is fixed by
    the merge rule: an endpoint with no indexed Corner within tolerance
    gets a fresh Corner; an endpoint with one is merged into a nearest
    such Corner, except in the tie-break.  When both endpoints have the
    same nearest Corner, the first endpoint keeps it if it is strictly
    nearer to it than the second, the second keeps it otherwise, and the
    other endpoint is merged into a nearest Corner among the remaining
    ones within tolerance or, if there is none, gets a fresh Corner.  The
    index searched for the second endpoint is the one the first lookup
    left: it holds the fresh Corner of the first endpoint when one was
    made. *)
Theorem add_wall_resolves_endpoints (g : WallLinkageGraph) (p1 p2 : Z * Z)
    (l r : option string) (g' : WallLinkageGraph) :
  index_in_range g ->
  p1 <> p2 ->
  add_wall g p1 p2 l r = Ok g' ->
  exists n1 n2,
    walls g' = walls g ++ [Wall.mk n1 n2 [] l r None]
    /\ n1 <> n2
    /\ resolved g g' n1 p1
    /\ resolved g g' n2 p2
    /\ let old := length (corners g) in
       let d := wall_corners g in
       let second_wins := manhattan_distance_between (pos_of g' n2) p2
                          <= manhattan_distance_between (pos_of g' n2) p1 in
       let first_wins := manhattan_distance_between (pos_of g' n1) p1
                         < manhattan_distance_between (pos_of g' n1) p2 in
       merged g' old d p1 n1 n2 second_wins
       /\ ((exists c, c ∈ Dict.values d /\ near g' c p1 (tolerance_distance g')) ->
           merged g' old d p2 n2 n1 first_wins)
       /\ ((forall c, c ∈ Dict.values d -> ~ near g' c p1 (tolerance_distance g')) ->
           merged g' old (Dict.set d (Corner.repr p1) n1) p2 n2 n1 first_wins).
Proof.
  intros Hrange Hne. unfold add_wall.
  destruct ((p1.1 =? p2.1) && (p1.2 =? p2.2)) eqn:Hdeg.
  { exfalso. apply andb_true_iff in Hdeg as [H1 H2].
    apply Z.eqb_eq in H1, H2. destruct p1, p2. simpl in *. congruence. }
  destruct (find_closest g p1 (wall_corners g) (tolerance_distance g)) as [a1 b1] eqn:E1.
  destruct (or_new_corner g a1 p1) as [g1 m1] eqn:N1.
  destruct (find_closest g1 p2 (wall_corners g1) (tolerance_distance g1)) as [a2 b2] eqn:E2.
  destruct (or_new_corner g1 a2 p2) as [g2 m2] eqn:N2.
  set (tie := if Nat.eqb m1 m2
              then if manhattan_distance_between (pos_of g2 m1) p1
                      <? manhattan_distance_between (pos_of g2 m1) p2
                   then (Some m1, b2) else (b1, Some m2)
              else (Some m1, Some m2)).
  destruct tie as [o1 o2] eqn:Etie.
  destruct (or_new_corner g2 o1 p1) as [g3 n1] eqn:N3.
  destruct (or_new_corner g3 o2 p2) as [g4 n2] eqn:N4.
  destruct (((pos_of g4 n1).1 =? (pos_of g4 n2).1) && ((pos_of g4 n1).2 =? (pos_of g4 n2).2))
    eqn:Hassert; [discriminate|].
  intros H. injection H as <-.
  pose proof (or_new_corner_grows _ _ _ _ _ N1) as G1.
  pose proof (or_new_corner_grows _ _ _ _ _ N2) as G2.
  pose proof (or_new_corner_grows _ _ _ _ _ N3) as G3.
  pose proof (or_new_corner_grows _ _ _ _ _ N4) as G4.
  assert (G12 : grows g g2) by (eapply grows_trans; eassumption).
  assert (G13 : grows g g3) by (eapply grows_trans; eassumption).
  assert (G14 : grows g g4) by (eapply grows_trans; eassumption).
  assert (G24 : grows g2 g4) by (eapply grows_trans; eassumption).
  assert (G1_4 : grows g1 g4) by (eapply grows_trans; eassumption).
  set (gf := mkGraph _ _ _ _).
  assert (Hposf : forall n, pos_of gf n = pos_of g4 n).
  { intros n. unfold pos_of, corner. subst gf. simpl.
    rewrite !pos_of_adj_append. reflexivity. }
  assert (Hdiff : n1 <> n2).
  { intros ->. rewrite !Z.eqb_refl in Hassert. discriminate. }
  assert (Hw4 : walls g4 = walls g) by (destruct G14 as (_ & _ & ?); assumption).
  assert (Ht1 : tolerance_distance g1 = tolerance_distance g)
    by (destruct G1 as (_ & ? & _); assumption).
  assert (Htf : tolerance_distance gf = tolerance_distance g)
    by (destruct G14 as (_ & ? & _); assumption).
  assert (Htf1 : tolerance_distance gf = tolerance_distance g1) by congruence.
  exists n1, n2. split; [subst gf; simpl; rewrite Hw4; reflexivity|].
  split; [exact Hdiff|].
  (* the first lookup *)
  assert (Hm1 : (a1 = Some m1 /\ g1 = g /\ m1 ∈ Dict.values (wall_corners g)
                 /\ near g m1 p1 (tolerance_distance g))
                \/ (a1 = None /\ m1 = length (corners g) /\ pos_of g1 m1 = p1
                    /\ wall_corners g1 = Dict.set (wall_corners g) (Corner.repr p1) m1
                    /\ corners g1 = corners g ++ [Corner.mk p1 []])).
  { destruct (or_new_corner_spec _ _ _ _ _ N1) as [[-> ->]|H]; [left|right; exact H].
    destruct (find_closest_some _ _ _ _ _ _ m1 E1) as [? ?]; [left; reflexivity|].
    repeat split; assumption. }
  assert (Hm1lt : (m1 < length (corners g1))%nat).
  { destruct Hm1 as [(_ & -> & Hin & _)|(_ & -> & _ & _ & ->)].
    - apply Hrange. exact Hin.
    - rewrite length_app. simpl. lia. }
  assert (Hrange1 : index_in_range g1).
  { intros c Hc. destruct Hm1 as [(_ & -> & _)|(_ & Hm1 & _ & Hwc & Hcs)]; [apply Hrange, Hc|].
    rewrite Hwc in Hc. rewrite Hcs, length_app. simpl.
    apply dict_values_set in Hc as [->|Hc]; [lia|]. specialize (Hrange c Hc). lia. }
  assert (G1f : forall n, (n < length (corners g1))%nat -> pos_of gf n = pos_of g1 n).
  { intros n Hn. rewrite Hposf. apply grows_pos_of; [exact G1_4|exact Hn]. }
  assert (G0f : forall n, n ∈ Dict.values (wall_corners g) -> pos_of gf n = pos_of g n).
  { intros n Hn. rewrite Hposf. apply grows_pos_of; [exact G14|apply Hrange, Hn]. }
  assert (G1f' : forall n, n ∈ Dict.values (wall_corners g1) -> pos_of gf n = pos_of g1 n).
  { intros n Hn. apply G1f, Hrange1, Hn. }
  pose proof (find_closest_ranked g p1 (wall_corners g) a1 b1 E1) as K1.
  pose proof (find_closest_ranked g1 p2 (wall_corners g1) a2 b2 E2) as K2.
  assert (Hold : forall n, n ∈ Dict.values (wall_corners g1) ->
                           near g1 n p2 (tolerance_distance g1) ->
                           n <> m1 \/ a1 <> None ->
                           n ∈ Dict.values (wall_corners g)
                           /\ near g n p2 (tolerance_distance g)).
  { intros n Hin Hnear Hnot.
    destruct Hm1 as [(_ & -> & _)|(Ha1 & Hm1 & _ & Hwc & _)]; [split; assumption|].
    rewrite Hwc in Hin. apply dict_values_set in Hin as [->|Hin].
    - destruct Hnot; congruence.
    - split; [exact Hin|]. unfold near in *. rewrite Ht1 in Hnear.
      rewrite <- (grows_pos_of g g1 n G1 (Hrange n Hin)). exact Hnear. }
  assert (Hthen : a1 = None -> m1 = m2 ->
                  (manhattan_distance_between (pos_of g2 m1) p1
                   <? manhattan_distance_between (pos_of g2 m1) p2) = true).
  { intros Ha1 _. destruct Hm1 as [(Ha & _)|(_ & _ & Hpos & _)]; [congruence|].
    rewrite (grows_pos_of g1 g2 m1 G2 Hm1lt), Hpos.
    rewrite manhattan_distance_between_self. apply Z.ltb_lt.
    apply manhattan_distance_between_pos. exact Hne. }
  assert (Hpos2 : pos_of gf m1 = pos_of g2 m1).
  { rewrite (G1f m1 Hm1lt). symmetry. apply grows_pos_of; [exact G2|exact Hm1lt]. }
  assert (R1 : n1 = m1 -> resolved g gf n1 p1).
  { intros ->. destruct Hm1 as [(_ & _ & Hin & Hnear)|(_ & Hm1 & Hpos & _)].
    - left. split; assumption.
    - right. split; [lia|]. rewrite (G1f m1 Hm1lt). exact Hpos. }
  assert (R1b : o1 = b1 -> resolved g gf n1 p1).
  { intros ->. destruct (or_new_corner_spec _ _ _ _ _ N3) as [[Hb _]|(_ & Hn & Hpos & _ & Hcs)].
    - left. apply (find_closest_some _ _ _ _ _ _ n1 E1). right. exact Hb.
    - right. split; [rewrite Hn; apply grows_length; exact G12|].
      rewrite Hposf, (grows_pos_of g3 g4 n1 G4); [exact Hpos|].
      rewrite Hcs, length_app, Hn. simpl. lia. }
  assert (R2 : n2 = m2 -> (m1 = m2 -> a1 <> None) -> resolved g gf n2 p2).
  { intros -> Hsame.
    destruct (or_new_corner_spec _ _ _ _ _ N2) as [[Ha2 ->]|(_ & Hn & Hpos & _ & Hcs)].
    - left. destruct (find_closest_some _ _ _ _ _ _ m2 E2) as [Hin Hnear];
        [left; exact Ha2|].
      apply Hold; [exact Hin|exact Hnear|].
      destruct (decide (m2 = m1)) as [->|Hd]; [right; apply Hsame; reflexivity|left; exact Hd].
    - right. split; [rewrite Hn; apply grows_length; exact G1|].
      rewrite Hposf, (grows_pos_of g2 g4 m2 G24); [exact Hpos|].
      rewrite Hcs, length_app, Hn. simpl. lia. }
  assert (R2b : o2 = b2 -> n1 = m1 -> resolved g gf n2 p2).
  { intros -> ->.
    destruct (or_new_corner_spec _ _ _ _ _ N4) as [[Hb _]|(_ & Hn & Hpos & _ & Hcs)].
    - left. destruct (find_closest_some _ _ _ _ _ _ n2 E2) as [Hin Hnear];
        [right; exact Hb|].
      apply Hold; [exact Hin|exact Hnear|]. left. congruence.
    - right. split; [rewrite Hn; apply grows_length; exact G13|].
      rewrite Hposf. exact Hpos. }
  assert (Hsome : forall (gx gy : WallLinkageGraph) (m n : nat) (p : Z * Z),
             or_new_corner gx (Some m) p = (gy, n) -> n = m).
  { intros gx gy m n p Hx. injection Hx as _ <-. reflexivity. }
  (* the merge rule *)
  set (sw := manhattan_distance_between (pos_of gf n2) p2
             <= manhattan_distance_between (pos_of gf n2) p1).
  set (fw := manhattan_distance_between (pos_of gf n1) p1
             < manhattan_distance_between (pos_of gf n1) p2).
  assert (Hfar1 : (forall c, c ∈ Dict.values (wall_corners g) ->
                             ~ near gf c p1 (tolerance_distance gf)) -> a1 = None).
  { intros Hfar. destruct a1 as [a|]; [exfalso|reflexivity].
    destruct K1 as [(Hin & Hnear & _) _].
    apply (Hfar a Hin). apply (near_agree g gf _ Htf G0f); assumption. }
  assert (Hnear1 : (exists c, c ∈ Dict.values (wall_corners g)
                              /\ near gf c p1 (tolerance_distance gf)) -> a1 = Some m1).
  { intros (c & Hc & Hnear). destruct Hm1 as [(Ha & _)|(Ha & _)]; [exact Ha|exfalso].
    rewrite Ha in K1. destruct K1 as [_ Hfar]. apply (Hfar c Hc).
    apply (near_agree g gf _ Htf G0f); assumption. }
  assert (Hfar2 : (forall c, c ∈ Dict.values (wall_corners g1) ->
                             ~ near gf c p2 (tolerance_distance gf)) -> a2 = None).
  { intros Hfar. destruct a2 as [a|]; [exfalso|reflexivity].
    destruct K2 as [(Hin & Hnear & _) _].
    apply (Hfar a Hin). apply (near_agree g1 gf _ Htf1 G1f'); assumption. }
  assert (Hm2 : (a2 = Some m2 /\ g2 = g1)
                \/ (a2 = None /\ m2 = length (corners g1) /\ pos_of g2 m2 = p2
                    /\ corners g2 = corners g1 ++ [Corner.mk p2 []])).
  { destruct (or_new_corner_spec _ _ _ _ _ N2) as [[-> ->]|(Ha & Hn & Hp & _ & Hcs)];
      [left; split; reflexivity|right; repeat split; assumption]. }
  assert (Hnear2 : (exists c, c ∈ Dict.values (wall_corners g1)
                              /\ near gf c p2 (tolerance_distance gf)) -> a2 = Some m2).
  { intros (c & Hc & Hnear). destruct Hm2 as [(Ha & _)|(Ha & _)]; [exact Ha|exfalso].
    rewrite Ha in K2. destruct K2 as [_ Hfar]. apply (Hfar c Hc).
    apply (near_agree g1 gf _ Htf1 G1f'); assumption. }
  assert (HM1 : n1 = m1 -> merged gf (length (corners g)) (wall_corners g) p1 n1 n2 sw).
  { intros ->. split.
    - intros Hfar. apply Hfar1 in Hfar.
      destruct Hm1 as [(Ha & _)|(_ & Hm & Hpos & _)]; [congruence|].
      split; [lia|]. rewrite (G1f m1 Hm1lt). exact Hpos.
    - intros Hex. apply Hnear1 in Hex. rewrite Hex in K1. destruct K1 as [K1 _].
      left. apply (nearest_agree g gf _ Htf G0f). exact K1. }
  assert (HM2 : n2 = m2 -> merged gf (length (corners g)) (wall_corners g1) p2 n2 n1 fw).
  { intros ->. split.
    - intros Hfar. apply Hfar2 in Hfar.
      destruct Hm2 as [(Ha & _)|(_ & Hm & Hpos & Hcs)]; [congruence|].
      split; [rewrite Hm; apply grows_length; exact G1|].
      rewrite Hposf, (grows_pos_of g2 g4 m2 G24); [exact Hpos|].
      rewrite Hcs, length_app, Hm. simpl. lia.
    - intros Hex. apply Hnear2 in Hex. rewrite Hex in K2. destruct K2 as [K2 _].
      left. apply (nearest_agree g1 gf _ Htf1 G1f'). exact K2. }
  assert (Hfinal : merged gf (length (corners g)) (wall_corners g) p1 n1 n2 sw ->
                   merged gf (length (corners g)) (wall_corners g1) p2 n2 n1 fw ->
                   (a1 = None -> n1 = m1) ->
                   merged gf (length (corners g)) (wall_corners g) p1 n1 n2 sw
                   /\ ((exists c, c ∈ Dict.values (wall_corners g)
                                  /\ near gf c p1 (tolerance_distance gf)) ->
                       merged gf (length (corners g)) (wall_corners g) p2 n2 n1 fw)
                   /\ ((forall c, c ∈ Dict.values (wall_corners g) ->
                                  ~ near gf c p1 (tolerance_distance gf)) ->
                       merged gf (length (corners g))
                              (Dict.set (wall_corners g) (Corner.repr p1) n1) p2 n2 n1 fw)).
  { intros M1 M2 Hn1. split; [exact M1|]. split.
    - intros Hex. apply Hnear1 in Hex.
      destruct Hm1 as [(_ & Hg & _)|(Ha & _)]; [|congruence].
      rewrite Hg in M2. exact M2.
    - intros Hfar. apply Hfar1 in Hfar.
      destruct Hm1 as [(Ha & _)|(_ & _ & _ & Hwc & _)]; [congruence|].
      rewrite (Hn1 Hfar). rewrite <- Hwc. rewrite (Hn1 Hfar) in M2. exact M2. }
  subst tie. revert Etie. destruct (Nat.eqb_spec m1 m2) as [Heq|Hneq].
  - destruct (manhattan_distance_between (pos_of g2 m1) p1
              <? manhattan_distance_between (pos_of g2 m1) p2) eqn:Htest;
      intros Etie; cbn iota in Etie; injection Etie as <- <-.
    + (* the first endpoint keeps the common Corner *)
      pose proof (Hsome _ _ _ _ _ N3) as Hn1.
      split; [apply R1; exact Hn1|]. split; [apply R2b; [reflexivity|exact Hn1]|].
      apply Hfinal; [apply HM1; exact Hn1| |intros _; exact Hn1].
      assert (Ha2 : a2 = Some m2).
      { destruct Hm2 as [(Ha & _)|(_ & Hm & _)]; [exact Ha|]. exfalso. lia. }
      rewrite Ha2 in K2. destruct K2 as [Kn Kb].
      assert (Hfw : fw).
      { unfold fw. rewrite Hn1, Hpos2. apply Z.ltb_lt. exact Htest. }
      split.
      * intros Hfar. exfalso. destruct Kn as (Hin & Hnear & _).
        apply (Hfar m2 Hin). apply (near_agree g1 gf _ Htf1 G1f'); assumption.
      * intros _. right. rewrite Hn1, Heq.
        split; [apply (nearest_agree g1 gf _ Htf1 G1f'); exact Kn|].
        split; [exact Hfw|].
        destruct (or_new_corner_spec _ _ _ _ _ N4) as [[Hb _]|(Hb & Hn & Hpos & _ & Hcs)].
        -- left. rewrite Hb in Kb. apply (next_nearest_agree g1 gf _ Htf1 G1f'). exact Kb.
        -- right. rewrite Hb in Kb.
           split; [apply (only_near_agree g1 gf _ Htf1 G1f'); exact Kb|].
           split; [rewrite Hn; apply grows_length; exact G13|].
           rewrite Hposf. exact Hpos.
    + (* the second endpoint keeps the common Corner *)
      assert (Ha1 : a1 <> None).
      { intros Ha1. pose proof (Hthen Ha1 Heq) as Hx. discriminate Hx. }
      pose proof (Hsome _ _ _ _ _ N4) as Hn2.
      split; [apply R1b; reflexivity|]. split; [apply R2; [exact Hn2|intros _; exact Ha1]|].
      apply Hfinal; [|apply HM2; exact Hn2|intros Ha; contradiction].
      destruct Hm1 as [(Ha & Hg & Hin & Hnear)|(Ha & _)]; [|contradiction].
      rewrite Ha in K1. destruct K1 as [Kn Kb].
      assert (Hsw : sw).
      { unfold sw. rewrite Hn2, <- Heq, Hpos2. apply Z.ltb_ge in Htest. exact Htest. }
      split.
      * intros Hfar. exfalso. apply (Hfar m1 Hin).
        apply (near_agree g gf _ Htf G0f); assumption.
      * intros _. right. rewrite Hn2, <- Heq.
        split; [apply (nearest_agree g gf _ Htf G0f); exact Kn|].
        split; [exact Hsw|].
        destruct (or_new_corner_spec _ _ _ _ _ N3) as [[Hb _]|(Hb & Hn & Hpos & _ & Hcs)].
        -- left. rewrite Hb in Kb. apply (next_nearest_agree g gf _ Htf G0f). exact Kb.
        -- right. rewrite Hb in Kb.
           split; [apply (only_near_agree g gf _ Htf G0f); exact Kb|].
           split; [rewrite Hn; apply grows_length; exact G12|].
           rewrite Hposf, (grows_pos_of g3 g4 n1 G4); [exact Hpos|].
           rewrite Hcs, length_app, Hn. simpl. lia.
  - intros Etie. cbn iota in Etie. injection Etie as <- <-.
    pose proof (Hsome _ _ _ _ _ N3) as Hn1.
    pose proof (Hsome _ _ _ _ _ N4) as Hn2.
    split; [apply R1; exact Hn1|]. split; [apply R2; [exact Hn2|intros; contradiction]|].
    apply Hfinal; [apply HM1; exact Hn1|apply HM2; exact Hn2|intros _; exact Hn1].
Qed.

(** The wall (1,0)-(2,0) added to the wall (0,0)-(100,0) with tolerance 4:
    both ends are nearest to the Corner at (0,0), the first keeps it and
    the second gets a fresh Corner. *)
Lemma add_wall_resolves_endpoints_witness :
  let g := Examples.single_wall in
  let g' := Examples.graph_of (add_wall g (1, 0) (2, 0) None None) in
  exists n1 n2,
    walls g' = walls g ++ [Wall.mk n1 n2 [] None None None]
    /\ n1 <> n2
    /\ resolved g g' n1 (1, 0)
    /\ resolved g g' n2 (2, 0)
    /\ let old := length (corners g) in
       let d := wall_corners g in
       let second_wins := manhattan_distance_between (pos_of g' n2) (2, 0)
                          <= manhattan_distance_between (pos_of g' n2) (1, 0) in
       let first_wins := manhattan_distance_between (pos_of g' n1) (1, 0)
                         < manhattan_distance_between (pos_of g' n1) (2, 0) in
       merged g' old d (1, 0) n1 n2 second_wins
       /\ ((exists c, c ∈ Dict.values d /\ near g' c (1, 0) (tolerance_distance g')) ->
           merged g' old d (2, 0) n2 n1 first_wins)
       /\ ((forall c, c ∈ Dict.values d -> ~ near g' c (1, 0) (tolerance_distance g')) ->
           merged g' old (Dict.set d (Corner.repr (1, 0)) n1) (2, 0) n2 n1 first_wins).
Proof.
  intros g g'.
  apply (add_wall_resolves_endpoints g (1, 0) (2, 0) None None g').
  - intros c Hc. vm_compute in Hc.
    apply elem_of_cons in Hc as [->|Hc]; [vm_compute; lia|].
    apply list_elem_of_singleton in Hc as ->. vm_compute. lia.
  - discriminate.
  - vm_compute. reflexivity.
Defined.

(** C2, as stated, fails with [tolerance_distance = 4], in both
    directions.  After the wall (0,0)-(100,0), the endpoints (-3,0) and
    (3,0) of two further walls are 6 apart, yet both are merged into the
    Corner at (0,0): no two distinct Corners are created for them, because
    an endpoint is compared with the indexed Corners and not with other
    endpoints.  And after the same first wall, the wall (1,0)-(2,0) has
    both ends within tolerance of the Corner at (0,0); the first is merged
    into it, and the tie-break gives the second a fresh Corner at (2,0),
    at distance 2 from the Corner at (0,0). *)
Lemma add_wall_merges_endpoints_beyond_tolerance :
  let g := Examples.graph_of
             (add_walls (WallLinkageGraph_init 4)
                        [((0, 0), (100, 0)); ((-3, 0), (50, 50)); ((3, 0), (60, 60))]) in
  let g' := Examples.graph_of
              (add_walls (WallLinkageGraph_init 4) [((0, 0), (100, 0)); ((1, 0), (2, 0))]) in
  (l1_distance (-3, 0) (3, 0) = 6 /\ manhattan_distance_between (-3, 0) (3, 0) = 6)
  /\ (Wall.p1 (wall g 1%nat) = 0%nat /\ Wall.p1 (wall g 2%nat) = 0%nat
      /\ pos_of g 0%nat = (0, 0) /\ length (corners g) = 4%nat)
  /\ (l1_distance (0, 0) (2, 0) = 2 /\ manhattan_distance_between (0, 0) (2, 0) = 2
      /\ Wall.p1 (wall g' 1%nat) = 0%nat /\ Wall.p2 (wall g' 1%nat) = 2%nat
      /\ pos_of g' 0%nat = (0, 0) /\ pos_of g' 2%nat = (2, 0)
      /\ length (corners g') = 3%nat).
Proof. vm_compute. repeat split; reflexivity. Qed.

(* --------------------------------------------------------------------- *)
(** ** Room extractor: face tracing *)

Section WellFormed.
Variable g : WallLinkageGraph.
Hypothesis Hwf : well_formedb g = true.

Lemma wf_wall (w : nat) :
  (w < length (walls g))%nat ->
  let c1 := Wall.p1 (wall g w) in
  let c2 := Wall.p2 (wall g w) in
  (c1 < length (corners g))%nat /\ (c2 < length (corners g))%nat
  /\ pos_of g c1 <> pos_of g c2 /\ w ∈ adj_of g c1 /\ w ∈ adj_of g c2.
Proof.
  intros Hw c1 c2. unfold well_formedb in Hwf.
  apply andb_true_iff in Hwf as [Hwalls _].
  rewrite forallb_forall in Hwalls.
  assert (Hok : wall_okb g w = true) by (apply Hwalls, in_seq; lia).
  unfold wall_okb in Hok. fold c1 c2 in Hok.
  repeat (apply andb_true_iff in Hok as [Hok ?]).
  repeat split.
  - apply Nat.ltb_lt. assumption.
  - apply Nat.ltb_lt. assumption.
  - intros Heq. rewrite Heq in *. unfold Pos_eqb in *.
    rewrite !Z.eqb_refl in *. discriminate.
  - eapply bool_decide_eq_true_1. eassumption.
  - eapply bool_decide_eq_true_1. eassumption.
Qed.

Lemma wf_corner (c w : nat) :
  (c < length (corners g))%nat ->
  NoDup (adj_of g c)
  /\ (w ∈ adj_of g c -> (w < length (walls g))%nat /\ incident g w c).
Proof.
  intros Hc. unfold well_formedb in Hwf.
  apply andb_true_iff in Hwf as [_ Hcorners].
  rewrite forallb_forall in Hcorners.
  assert (Hok : corner_okb g c = true) by (apply Hcorners, in_seq; lia).
  unfold corner_okb in Hok. apply andb_true_iff in Hok as [Hnd Hall].
  split; [eapply bool_decide_eq_true_1; eassumption|].
  intros Hin. rewrite forallb_forall in Hall.
  specialize (Hall w (proj1 (list_elem_of_In _ _) Hin)).
  apply andb_true_iff in Hall as [Hlt Hinc]. split; [apply Nat.ltb_lt; exact Hlt|].
  apply orb_true_iff in Hinc as [H|H]; apply Nat.eqb_eq in H; [left|right]; exact H.
Qed.




End WellFormed.





Section FaceTracing.
Variable g : WallLinkageGraph.
Hypothesis Hwf : well_formedb g = true.





End FaceTracing.



(* --------------------------------------------------------------------- *)
(** ** Opening resolver: holes *)

Lemma same_geometry_refl g : same_geometry g g.
Proof. repeat split. Qed.

Lemma wall_lookup (g : WallLinkageGraph) (w : nat) :
  wall g w = default dummy_wall (walls g !! w).
Proof. unfold wall. apply nth_lookup. Qed.

Lemma wall_holes_append (g : WallLinkageGraph) (w0 w : nat) (nd : Hole.t) :
  Wall.p1 (wall (holes_append g w0 nd) w) = Wall.p1 (wall g w)
  /\ Wall.p2 (wall (holes_append g w0 nd) w) = Wall.p2 (wall g w)
  /\ (Wall.holes (wall (holes_append g w0 nd) w) = Wall.holes (wall g w)
      \/ (w = w0 /\ Wall.holes (wall (holes_append g w0 nd) w) = Wall.holes (wall g w) ++ [nd])).
Proof.
  rewrite !wall_lookup. simpl.
  destruct (decide (w0 = w)) as [->|Hne].
  - rewrite list_lookup_alter_eq.
    destruct (walls g !! w) as [wl|]; simpl.
    + repeat split. right. split; reflexivity.
    + repeat split. left. reflexivity.
  - rewrite list_lookup_alter_ne by exact Hne. repeat split. left. reflexivity.
Qed.

Lemma same_geometry_holes_append g g' w0 nd :
  same_geometry g g' -> same_geometry g (holes_append g' w0 nd).
Proof.
  intros (Hc & Hl & Hw). split; [exact Hc|]. split.
  - simpl. rewrite length_alter. exact Hl.
  - intros w. destruct (wall_holes_append g' w0 w nd) as (H1 & H2 & _).
    rewrite H1, H2. apply Hw.
Qed.

Lemma same_geometry_pos_of g g' c : same_geometry g g' -> pos_of g' c = pos_of g c.
Proof. intros (Hc & _). unfold pos_of, corner. rewrite Hc. reflexivity. Qed.

Lemma same_geometry_line_contains_check g g' w door margin :
  same_geometry g g' ->
  line_contains_check g' w door margin = line_contains_check g w door margin.
Proof.
  intros Hs. unfold line_contains_check.
  destruct Hs as (Hc & Hl & Hw). destruct (Hw w) as [-> ->].
  unfold pos_of, corner. rewrite Hc. reflexivity.
Qed.

Lemma manhattan_distance_between_nonneg (a b : Z * Z) : 0 <= manhattan_distance_between a b.
Proof. unfold manhattan_distance_between. lia. Qed.

Lemma add_doors_loop_holes (g : WallLinkageGraph) (margin : Q) (doors : list LineSegment.t)
    (pairs : list (Root * nat * nat)) :
  (forall pd d w, (pd, d, w) ∈ pairs ->
     exists door, doors !! d = Some door /\ (line_contains_check g w door margin).1 = true) ->
  forall (gc : WallLinkageGraph) (ran : Random.t) (added : list nat),
    same_geometry g gc ->
    same_geometry g (add_doors_loop gc ran doors pairs added).1
    /\ forall w hole,
         hole ∈ Wall.holes (wall (add_doors_loop gc ran doors pairs added).1 w) ->
         hole ∈ Wall.holes (wall gc w)
         \/ exists door, door ∈ doors /\ hole_of_opening g margin w door hole.
Proof.
  induction pairs as [|[[pd d] w0] pairs IH]; intros Hpairs gc ran added Hs.
  - simpl. split; [exact Hs|]. intros w hole H. left. exact H.
  - assert (Hrest : forall pd d w, (pd, d, w) ∈ pairs ->
              exists door, doors !! d = Some door
                           /\ (line_contains_check g w door margin).1 = true)
      by (intros pd' d' w' H; apply (Hpairs pd' d' w'); right; exact H).
    simpl. case_bool_decide as Hadded; [apply (IH Hrest); exact Hs|].
    destruct (Hpairs pd d w0) as (door & Hdoor & Hlcc); [left|].
    rewrite (nth_lookup_Some _ _ _ _ Hdoor).
    set (wp1 := pos_of gc (Wall.p1 (wall gc w0))).
    destruct (get_closest_and_furthest wp1 (LineSegment.p1 door) (LineSegment.p2 door))
      as [min_point max_point] eqn:Hcf.
    unfold Hole_init, generate_hole_id, Random.randint.
    set (nd := Hole.mk _ _ None _).
    pose proof (fun r => IH Hrest (holes_append gc w0 nd) r (added ++ [d])
                           (same_geometry_holes_append g gc w0 nd Hs)) as IH'.
    split; [apply IH'|]. intros w hole Hin.
    apply (proj2 (IH' _)) in Hin.
    destruct Hin as [Hold|Hnew]; [|right; exact Hnew].
    destruct (wall_holes_append gc w0 w nd) as (_ & _ & [Heq|[-> Heq]]).
    + left. rewrite <- Heq. exact Hold.
    + rewrite Heq in Hold. apply elem_of_app in Hold as [Hold|Hold]; [left; exact Hold|].
      apply list_elem_of_singleton in Hold as ->. right.
      exists door. split; [eapply list_elem_of_lookup_2; exact Hdoor|].
      assert (Hwp1 : wp1 = pos_of g (Wall.p1 (wall g w0))).
      { subst wp1. destruct Hs as (Hc & Hl & Hw). destruct (Hw w0) as [-> _].
        unfold pos_of, corner. rewrite Hc. reflexivity. }
      unfold hole_of_opening. rewrite <- Hwp1, Hcf. subst nd. simpl.
      repeat split; try apply manhattan_distance_between_nonneg. exact Hlcc.
Qed.

Lemma wall_door_pairs_matched (g : WallLinkageGraph) (margin : Q)
    (doors : list LineSegment.t) (pd : Root) (d w : nat) :
  (pd, d, w) ∈ wall_door_pairs g margin doors ->
  exists door, doors !! d = Some door /\ (line_contains_check g w door margin).1 = true.
Proof.
  unfold wall_door_pairs. intros H.
  apply list_elem_of_In, in_concat in H as (ps & Hps & Hp).
  apply list_elem_of_In, elem_of_lookup_imap in Hps as (d' & door & -> & Hdoor).
  apply list_elem_of_In, list_elem_of_omap in Hp as (w' & _ & Hsome).
  destruct (line_contains_check g w' door margin) as [[|] [pd'|]] eqn:E; try discriminate.
  injection Hsome as <- <- <-. exists door. split; [exact Hdoor|]. rewrite E. reflexivity.
Qed.

Lemma add_doors_holes (conf : Conf.t) (h : House.t) (g : WallLinkageGraph) (ran : Random.t)
    (w : nat) (hole : Hole.t) :
  hole ∈ Wall.holes (wall (add_doors conf h g ran).1 w) ->
  hole ∈ Wall.holes (wall g w)
  \/ exists door, door ∈ w_doors h
       /\ hole_of_opening g (Conf.max_door_perpendicular_offset conf) w door hole.
Proof.
  unfold add_doors. intros Hin.
  eapply (add_doors_loop_holes g (Conf.max_door_perpendicular_offset conf) (w_doors h));
    [|apply same_geometry_refl|exact Hin].
  intros pd d w' Hp. apply elem_of_sorted in Hp.
  eapply wall_door_pairs_matched. exact Hp.
Qed.

Lemma add_doors_same_geometry (conf : Conf.t) (h : House.t) (g : WallLinkageGraph)
    (ran : Random.t) :
  same_geometry g (add_doors conf h g ran).1.
Proof.
  unfold add_doors.
  eapply (add_doors_loop_holes g (Conf.max_door_perpendicular_offset conf) (w_doors h));
    [|apply same_geometry_refl].
  intros pd d w' Hp. apply elem_of_sorted in Hp.
  eapply wall_door_pairs_matched. exact Hp.
Qed.

Lemma no_holes_init (tolerance : Q) : no_holes (WallLinkageGraph_init tolerance).
Proof. intros w. unfold wall. simpl. destruct w; reflexivity. Qed.

Lemma add_wall_no_holes (g : WallLinkageGraph) (p1 p2 : Z * Z) (l r : option string)
    (g' : WallLinkageGraph) :
  no_holes g -> add_wall g p1 p2 l r = Ok g' -> no_holes g'.
Proof.
  intros Hno. unfold add_wall.
  destruct ((p1.1 =? p2.1) && (p1.2 =? p2.2)); [intros H; injection H as <-; exact Hno|].
  destruct (find_closest g p1 _ _) as [a1 b1].
  destruct (or_new_corner g a1 p1) as [g1 m1] eqn:N1.
  destruct (find_closest g1 p2 _ _) as [a2 b2].
  destruct (or_new_corner g1 a2 p2) as [g2 m2] eqn:N2.
  destruct (if Nat.eqb m1 m2 then _ else _) as [o1 o2].
  destruct (or_new_corner g2 o1 p1) as [g3 n1] eqn:N3.
  destruct (or_new_corner g3 o2 p2) as [g4 n2] eqn:N4.
  destruct (_ && _); [discriminate|].
  intros H. injection H as <-.
  assert (Hw : walls g4 = walls g).
  { pose proof (or_new_corner_grows _ _ _ _ _ N1) as (_ & _ & H1).
    pose proof (or_new_corner_grows _ _ _ _ _ N2) as (_ & _ & H2).
    pose proof (or_new_corner_grows _ _ _ _ _ N3) as (_ & _ & H3).
    pose proof (or_new_corner_grows _ _ _ _ _ N4) as (_ & _ & H4).
    congruence. }
  intros w. unfold wall. simpl. rewrite Hw.
  destruct (Nat.lt_ge_cases w (length (walls g))) as [Hlt|Hge].
  - rewrite app_nth1 by exact Hlt. apply Hno.
  - rewrite app_nth2 by exact Hge.
    destruct (w - length (walls g))%nat as [|[|k]]; reflexivity.
Qed.

Lemma add_source_walls_no_holes (ws : list Datum.t) :
  forall g g', no_holes g -> add_source_walls g ws = Ok g' -> no_holes g'.
Proof.
  induction ws as [|w ws IH]; intros g g' Hno; simpl.
  - intros H. injection H as <-. exact Hno.
  - destruct (add_wall g _ _ _ _) as [g1|e] eqn:E; [|discriminate]. simpl.
    apply IH. eapply add_wall_no_holes; eassumption.
Qed.

Section OpeningAssignment.
Context {polygon : Type}.
Variable Polygon : list (Z * Z) -> option polygon.
Variable area : polygon -> Q.
Variable intersection : polygon -> polygon -> Geometry polygon.

(** C8 (amended).  Every Hole on a wall of the graph that
    [generate_wall_graph] returns was created for an opening that
    [line_contains_check] matched to that wall, and its [min_x] and [max_x]
    are what [manhattan_distance_between] returns for the wall's first
    endpoint and the endpoint of that opening that
    [get_closest_and_furthest] returns as closest, respectively as
    furthest; both are non-negative.  Nothing bounds them by the length of
    the wall. *)
Theorem generate_wall_graph_holes (conf : Conf.t) (h : House.t) (ran : Random.t)
    (h' : House.t) (ran' : Random.t) (w : nat) (hole : Hole.t) :
  generate_wall_graph Polygon area intersection conf h ran = Ok (h', ran') ->
  hole ∈ Wall.holes (wall (House.wall_graph h') w) ->
  exists door,
    door ∈ w_doors h
    /\ hole_of_opening (House.wall_graph h') (Conf.max_door_perpendicular_offset conf)
                       w door hole.
Proof.
  unfold generate_wall_graph, generate_wall_graph_rooms.
  destruct (add_source_walls _ _) as [g|e] eqn:Eg; [|discriminate]. simpl.
  destruct (detect_rooms _ _ _) as [m|e] eqn:Em; [|discriminate]. simpl.
  set (h1 := House.mk _ _ _ g _ m _ _).
  assert (Hh2 : forall h2,
             (if Conf.eliminate_false_rooms_enabled conf
              then _eliminate_false_rooms Polygon area intersection conf h1 else Ok h1) = Ok h2 ->
             House.wall_graph h2 = g /\ House.openings h2 = House.openings h).
  { intros h2. destruct (Conf.eliminate_false_rooms_enabled conf).
    - unfold _eliminate_false_rooms. destruct (fully_contained_loop _ _ _ _ _ _ _ _) as [ks|e];
        [|discriminate]. simpl. intros H. injection H as <-. split; reflexivity.
    - intros H. injection H as <-. split; reflexivity. }
  destruct (if Conf.eliminate_false_rooms_enabled conf then _ else _) as [h2|e];
    [|discriminate]. simpl.
  destruct (Hh2 h2 eq_refl) as [Hg Hop].
  destruct (add_doors conf h2 (House.wall_graph h2) ran) as [gd rand] eqn:Ed.
  intros H. injection H as <- <-. simpl. intros Hin.
  assert (Hgd : gd = (add_doors conf h2 (House.wall_graph h2) ran).1) by (rewrite Ed; reflexivity).
  rewrite Hgd in Hin. apply add_doors_holes in Hin. rewrite Hg in *.
  destruct Hin as [Hold|(door & Hdoor & Hhole)].
  - exfalso. rewrite (add_source_walls_no_holes _ _ _ (no_holes_init _) Eg w) in Hold.
    inversion Hold.
  - exists door. split.
    + unfold w_doors in *. rewrite <- Hop. exact Hdoor.
    + pose proof (add_doors_same_geometry conf h2 g ran) as Hs.
      rewrite <- Hgd in Hs.
      unfold hole_of_opening in *.
      rewrite (same_geometry_line_contains_check g gd _ _ _ Hs).
      destruct Hs as (Hc & Hl & Hw). destruct (Hw w) as [Hp1 _].
      unfold pos_of, corner in *. rewrite Hp1, Hc. exact Hhole.
Qed.
End OpeningAssignment.

Lemma generate_wall_graph_holes_witness :
  exists door,
    door ∈ w_doors Examples.split_rectangle
    /\ hole_of_opening
         (House.wall_graph
            (Examples.generated (Examples.conf (1 # 2)) Examples.split_rectangle (Examples.ran 7)))
         (Conf.max_door_perpendicular_offset (Examples.conf (1 # 2)))
         6%nat door (Hole.mk 3 6 None "hole_7").
Proof.
  apply (generate_wall_graph_holes BoxGeometry.Polygon BoxGeometry.area BoxGeometry.intersection
           (Examples.conf (1 # 2)) Examples.split_rectangle (Examples.ran 7)
           (Examples.generated (Examples.conf (1 # 2)) Examples.split_rectangle (Examples.ran 7))
           (Random.mk (fun k => 7 + Z.of_nat k) 1)).
  - vm_compute. reflexivity.
  - vm_compute. left.
Defined.

(** C8, as stated, fails on the square with the long opening (the
    matching margin is 5, the room filter is off).  The opening
    (-5,0)-(15,0) runs past both ends of the bottom wall (0,0)-(10,0), of
    length 10 in every metric; it is matched to that wall and recorded as
    the hole [5, 15], which does not lie within [0, 10]. *)
Lemma generate_wall_graph_hole_outside_wall :
  let h' := Examples.generated Examples.conf_no_filter Examples.square_with_long_opening
                               (Examples.ran 7) in
  let g' := House.wall_graph h' in
  let p1 := pos_of g' (Wall.p1 (wall g' 0%nat)) in
  let p2 := pos_of g' (Wall.p2 (wall g' 0%nat)) in
  generate_wall_graph BoxGeometry.Polygon BoxGeometry.area BoxGeometry.intersection
                      Examples.conf_no_filter Examples.square_with_long_opening (Examples.ran 7)
  = Ok (h', Random.mk (fun k => 7 + Z.of_nat k) 1)
  /\ p1 = (0, 0) /\ p2 = (10, 0)
  /\ l1_distance p1 p2 = 10
  /\ manhattan_distance_between p1 p2 = 10
  /\ radicand (sq_distance p1 p2) == 10 * 10
  /\ exists hole,
       Wall.holes (wall g' 0%nat) = [hole]
       /\ Hole.min_x hole = 5 /\ Hole.max_x hole = 15
       /\ l1_distance p1 p2 < Hole.max_x hole.
Proof.
  vm_compute. repeat split; try reflexivity.
  eexists. repeat split; reflexivity.
Qed.

(* --------------------------------------------------------------------- *)
(** ** Determinism and hole identifiers *)

(** The configured seed never reaches the generator of [id_gen]. *)
Lemma generate_wall_graph_ignores_seed (conf : Conf.t) (seed : Z) (h : House.t) (ran : Random.t) :
  generate_wall_graph BoxGeometry.Polygon BoxGeometry.area BoxGeometry.intersection
                      (with_seed conf seed) h ran
  = generate_wall_graph BoxGeometry.Polygon BoxGeometry.area BoxGeometry.intersection conf h ran.
Proof. reflexivity. Qed.

(** C9.  Two runs of [generate_wall_graph] on the same input with the same
    configuration, seed included, that differ only in what the unseeded
    generator of [id_gen] draws: the rooms, the walls and the interval of
    the hole are the same, the hole identifiers are not. *)
Theorem hole_ids_differ_between_runs :
  let conf := Examples.conf (1 # 2) in
  let h1 := Examples.generated conf Examples.split_rectangle (Examples.ran 7) in
  let h2 := Examples.generated conf Examples.split_rectangle (Examples.ran 1000) in
  generate_wall_graph BoxGeometry.Polygon BoxGeometry.area BoxGeometry.intersection
                      conf Examples.split_rectangle (Examples.ran 7)
  = Ok (h1, Random.mk (fun k => 7 + Z.of_nat k) 1)
  /\ generate_wall_graph BoxGeometry.Polygon BoxGeometry.area BoxGeometry.intersection
                         conf Examples.split_rectangle (Examples.ran 1000)
     = Ok (h2, Random.mk (fun k => 1000 + Z.of_nat k) 1)
  /\ House.room_description_map h1 = House.room_description_map h2
  /\ hole_ids h1 = [[]; []; []; []; []; []; ["hole_7"%string]]
  /\ hole_ids h2 = [[]; []; []; []; []; []; ["hole_1000"%string]]
  /\ hole_ids h1 <> hole_ids h2.
Proof.
  vm_compute. repeat split; try reflexivity. discriminate.
Qed.

(* ===================================================================== *)
(** * Further properties of the code *)
(* ===================================================================== *)

(* --------------------------------------------------------------------- *)
(** ** Distances and the nearest corner *)

(** X1. [manhattan_distance_between] is a metric on integer points, and it is
    the Chebyshev one: symmetric, zero exactly between equal points, it
    satisfies the triangle inequality, it lies between half the L1
    distance and the L1 distance, and [pointDistance] of the wall
    splitter computes the same number. *)
Theorem manhattan_distance_between_chebyshev (a b c : Z * Z) :
  manhattan_distance_between a b = manhattan_distance_between b a
  /\ (manhattan_distance_between a b = 0 <-> a = b)
  /\ manhattan_distance_between a c
     <= manhattan_distance_between a b + manhattan_distance_between b c
  /\ manhattan_distance_between a b <= l1_distance a b <= 2 * manhattan_distance_between a b
  /\ pointDistance a b = manhattan_distance_between a b.
Proof.
  destruct a as [ax ay], b as [bx by_], c as [cx cy].
  unfold manhattan_distance_between, l1_distance, pointDistance. simpl.
  split; [lia|]. split; [|split; [lia|split; [lia|reflexivity]]].
  split; [intros H; f_equal; lia|intros H; injection H as -> ->; lia].
Qed.

(** X2. When [find_closest] returns a first corner, that corner is indexed and
    strictly within the cutoff of the target, and no indexed corner within
    the cutoff is closer. The second result, when there is one, is another
    such corner, not closer than the first and at least as close as every
    indexed corner within the cutoff other than the first; when there is
    none, the first is the only indexed corner within the cutoff. *)
Theorem find_closest_nearest g target d cutoff a b :
  find_closest g target d cutoff = (Some a, b) ->
  let dist n := manhattan_distance_between (pos_of g n) target in
  a ∈ Dict.values d /\ near g a target cutoff
  /\ (forall n, n ∈ Dict.values d -> near g n target cutoff -> dist a <= dist n)
  /\ match b with
     | Some b' =>
         b' ∈ Dict.values d /\ near g b' target cutoff /\ dist a <= dist b'
         /\ forall n, n ∈ Dict.values d -> near g n target cutoff -> n <> a -> dist b' <= dist n
     | None => forall n, n ∈ Dict.values d -> near g n target cutoff -> n = a
     end.
Proof.
  intros H dist.
  destruct (find_closest_some g target d cutoff (Some a) b a H) as [Ha Hna]; [left; reflexivity|].
  split; [exact Ha|]. split; [exact Hna|].
  revert H. unfold find_closest.
  set (tuples := omap _ _).
  assert (Htuple : forall x, x ∈ tuples ->
            x.1 = dist x.2 /\ x.2 ∈ Dict.values d /\ near g x.2 target cutoff).
  { intros x Hx. subst tuples. apply list_elem_of_omap in Hx as (c & Hc & Hsome).
    destruct (Qlt_bool _ _) eqn:Eq; [|discriminate]. injection Hsome as <-.
    split; [reflexivity|]. split; [exact Hc|]. apply Qlt_bool_iff. exact Eq. }
  assert (Hin : forall n, n ∈ Dict.values d -> near g n target cutoff ->
                          (dist n, n) ∈ sorted Z.leb fst tuples).
  { intros n Hn Hnear. apply elem_of_sorted. unfold tuples.
    apply list_elem_of_omap. exists n. split; [exact Hn|].
    apply Qlt_bool_iff in Hnear. rewrite Hnear. reflexivity. }
  assert (Hst : forall x, x ∈ sorted Z.leb fst tuples -> x.1 = dist x.2)
    by (intros x Hx; apply Htuple; apply elem_of_sorted in Hx; exact Hx).
  clearbody tuples.
  pose proof (sorted_ascending Z.leb (@fst Z nat) Zleb_total Zleb_trans tuples) as Hasc.
  destruct (sorted Z.leb fst tuples) as [|x [|y rest]] eqn:E; intros H; simpl in H;
    [discriminate| |]; injection H as <- <-.
  - split.
    + intros n Hn Hnear. apply Hin in Hnear; [|exact Hn].
      apply list_elem_of_singleton in Hnear. rewrite <- Hnear. simpl. lia.
    + intros n Hn Hnear. apply Hin in Hnear; [|exact Hn].
      apply list_elem_of_singleton in Hnear. rewrite <- Hnear. reflexivity.
  - apply StronglySorted_inv in Hasc as [Hasc' Hx].
    apply StronglySorted_inv in Hasc' as [_ Hy].
    rewrite Forall_forall in Hx, Hy.
    assert (Hxd : x.1 = dist x.2) by (apply Hst; left).
    assert (Hyd : y.1 = dist y.2) by (apply Hst; right; left).
    assert (Hxy : dist x.2 <= dist y.2).
    { rewrite <- Hxd, <- Hyd. apply Z.leb_le, Hx. left. }
    split.
    + intros n Hn Hnear. apply Hin in Hnear; [|exact Hn].
      apply elem_of_cons in Hnear as [Heq|Hnear]; [rewrite <- Heq; simpl; lia|].
      rewrite <- Hxd. apply Z.leb_le. apply (Hx (dist n, n)). exact Hnear.
    + assert (Hyin : y ∈ tuples).
      { apply (elem_of_sorted Z.leb fst). rewrite E. right. left. }
      destruct (Htuple y Hyin) as (_ & Hc & Hynear).
      split; [exact Hc|]. split; [exact Hynear|]. split; [exact Hxy|].
      intros n Hn Hnear Hneq. apply Hin in Hnear; [|exact Hn].
      apply elem_of_cons in Hnear as [Heq|Hnear]; [rewrite <- Heq in Hneq; simpl in Hneq; congruence|].
      apply elem_of_cons in Hnear as [Heq|Hnear]; [rewrite <- Heq; simpl; lia|].
      rewrite <- Hyd. apply Z.leb_le. apply (Hy (dist n, n)). exact Hnear.
Qed.

(** The wall (0,0)-(100,0) and the target (10,0) with cutoff 200: corner 0, then corner 1. *)
Lemma find_closest_nearest_witness :
  let g := Examples.single_wall in
  let dist n := manhattan_distance_between (pos_of g n) (10, 0) in
  0%nat ∈ Dict.values (wall_corners g) /\ near g 0%nat (10, 0) 200
  /\ (forall n, n ∈ Dict.values (wall_corners g) -> near g n (10, 0) 200 -> dist 0%nat <= dist n)
  /\ 1%nat ∈ Dict.values (wall_corners g) /\ near g 1%nat (10, 0) 200
  /\ dist 0%nat <= dist 1%nat
  /\ forall n, n ∈ Dict.values (wall_corners g) -> near g n (10, 0) 200 -> n <> 0%nat ->
               dist 1%nat <= dist n.
Proof.
  intros g dist.
  apply (find_closest_nearest g (10, 0) (wall_corners g) 200 0%nat (Some 1%nat)).
  vm_compute. reflexivity.
Defined.

(* --------------------------------------------------------------------- *)
(** ** Wall graph: what add_wall builds *)

Lemma Pos_eqb_eq (a b : Z * Z) : Pos_eqb a b = true <-> a = b.
Proof.
  destruct a, b. unfold Pos_eqb. simpl. rewrite andb_true_iff, !Z.eqb_eq.
  split; [intros [-> ->]; reflexivity|intros H; injection H as -> ->; split; reflexivity].
Qed.

Lemma wall_okb_intro (g : WallLinkageGraph) (w : nat) :
  (Wall.p1 (wall g w) < length (corners g))%nat ->
  (Wall.p2 (wall g w) < length (corners g))%nat ->
  pos_of g (Wall.p1 (wall g w)) <> pos_of g (Wall.p2 (wall g w)) ->
  w ∈ adj_of g (Wall.p1 (wall g w)) ->
  w ∈ adj_of g (Wall.p2 (wall g w)) ->
  wall_okb g w = true.
Proof.
  intros H1 H2 Hp Ha1 Ha2. unfold wall_okb.
  rewrite !andb_true_iff. repeat split.
  - apply Nat.ltb_lt, H1.
  - apply Nat.ltb_lt, H2.
  - apply negb_true_iff. destruct (Pos_eqb _ _) eqn:E; [|reflexivity].
    apply Pos_eqb_eq in E. contradiction.
  - apply bool_decide_eq_true_2, Ha1.
  - apply bool_decide_eq_true_2, Ha2.
Qed.

Lemma corner_okb_intro (g : WallLinkageGraph) (c : nat) :
  NoDup (adj_of g c) ->
  (forall w, w ∈ adj_of g c -> (w < length (walls g))%nat /\ incident g w c) ->
  corner_okb g c = true.
Proof.
  intros Hnd Hall. unfold corner_okb. rewrite andb_true_iff. split.
  - apply bool_decide_eq_true_2, Hnd.
  - apply forallb_forall. intros w Hw. apply list_elem_of_In in Hw.
    destruct (Hall w Hw) as [Hlt Hinc]. rewrite andb_true_iff, orb_true_iff.
    split; [apply Nat.ltb_lt, Hlt|].
    destruct Hinc as [H|H]; [left|right]; apply Nat.eqb_eq, H.
Qed.

Lemma well_formedb_intro (g : WallLinkageGraph) :
  (forall w, (w < length (walls g))%nat -> wall_okb g w = true) ->
  (forall c, (c < length (corners g))%nat -> corner_okb g c = true) ->
  well_formedb g = true.
Proof.
  intros Hw Hc. unfold well_formedb. rewrite andb_true_iff, !forallb_forall.
  split; intros x Hx; apply in_seq in Hx; [apply Hw|apply Hc]; lia.
Qed.


Lemma length_adj_append (cs : list Corner.t) (c w : nat) :
  length (adj_append cs c w) = length cs.
Proof. unfold adj_append. apply length_alter. Qed.

Lemma adj_adj_append (cs : list Corner.t) (c w n : nat) :
  Corner.adj (nth n (adj_append cs c w) dummy_corner)
  = if decide (n = c /\ (c < length cs)%nat)
    then Corner.adj (nth n cs dummy_corner) ++ [w]
    else Corner.adj (nth n cs dummy_corner).
Proof.
  unfold adj_append. rewrite !nth_lookup.
  destruct (decide (c = n)) as [->|Hne].
  - rewrite list_lookup_alter_eq.
    destruct (cs !! n) as [k|] eqn:Hk; simpl.
    + apply lookup_lt_Some in Hk. rewrite decide_True by (split; [reflexivity|exact Hk]). reflexivity.
    + apply lookup_ge_None in Hk. rewrite decide_False by lia. reflexivity.
  - rewrite list_lookup_alter_ne by exact Hne.
    rewrite decide_False by (intros [? _]; congruence). reflexivity.
Qed.


Lemma or_new_corner_fresh g o p g' n :
  or_new_corner g o p = (g', n) ->
  exists extra,
    corners g' = corners g ++ extra
    /\ Forall (fun k => Corner.adj k = []) extra
    /\ tolerance_distance g' = tolerance_distance g
    /\ walls g' = walls g.
Proof.
  destruct o as [c|]; simpl; intros H; injection H as <- <-.
  - exists []. rewrite app_nil_r. repeat split. constructor.
  - eexists. repeat split. constructor; [reflexivity|constructor].
Qed.

Lemma or_new_corner_in_range g o p g' n :
  index_in_range g ->
  (forall c, o = Some c -> (c < length (corners g))%nat) ->
  or_new_corner g o p = (g', n) ->
  index_in_range g' /\ (n < length (corners g'))%nat.
Proof.
  intros Hr Ho. destruct o as [c|]; simpl; intros H; injection H as <- <-.
  - split; [exact Hr|]. apply Ho. reflexivity.
  - split.
    + intros c Hc. simpl in *. rewrite length_app. simpl.
      apply dict_values_set in Hc as [->|Hc]; [lia|]. apply Hr in Hc. lia.
    + simpl. rewrite length_app. simpl. lia.
Qed.

Lemma find_closest_in_range g target cutoff a b c :
  index_in_range g ->
  find_closest g target (wall_corners g) cutoff = (a, b) ->
  a = Some c \/ b = Some c -> (c < length (corners g))%nat.
Proof.
  intros Hr H Hc. apply Hr. eapply find_closest_some; eassumption.
Qed.

(** The graph that [add_wall] returns: the one it was given, for a
    degenerate segment; otherwise the corners of [g] followed by fresh
    corners without walls, then the new wall between two corners at
    different positions, registered with both. *)
Lemma add_wall_shape (g : WallLinkageGraph) (p1 p2 : Z * Z) (l r : option string)
    (g' : WallLinkageGraph) :
  add_wall g p1 p2 l r = Ok g' ->
  (p1 = p2 /\ g' = g)
  \/ exists (g4 : WallLinkageGraph) (n1 n2 : nat) (extra : list Corner.t),
       p1 <> p2
       /\ corners g4 = corners g ++ extra
       /\ Forall (fun k => Corner.adj k = []) extra
       /\ tolerance_distance g4 = tolerance_distance g
       /\ walls g4 = walls g
       /\ pos_of g4 n1 <> pos_of g4 n2
       /\ (index_in_range g -> index_in_range g4
                               /\ (n1 < length (corners g4))%nat
                               /\ (n2 < length (corners g4))%nat)
       /\ g' = mkGraph (adj_append (adj_append (corners g4) n1 (length (walls g)))
                                   n2 (length (walls g)))
                       (wall_corners g4) (tolerance_distance g)
                       (walls g ++ [Wall.mk n1 n2 [] l r None]).
Proof.
  unfold add_wall.
  destruct ((p1.1 =? p2.1) && (p1.2 =? p2.2)) eqn:Hdeg.
  { intros H. injection H as <-. left. split; [|reflexivity].
    apply andb_true_iff in Hdeg as [H1 H2]. apply Z.eqb_eq in H1, H2.
    destruct p1, p2. simpl in *. congruence. }
  destruct (find_closest g p1 (wall_corners g) (tolerance_distance g)) as [a1 b1] eqn:E1.
  destruct (or_new_corner g a1 p1) as [g1 m1] eqn:N1.
  destruct (find_closest g1 p2 (wall_corners g1) (tolerance_distance g1)) as [a2 b2] eqn:E2.
  destruct (or_new_corner g1 a2 p2) as [g2 m2] eqn:N2.
  set (tie := if Nat.eqb m1 m2
              then if manhattan_distance_between (pos_of g2 m1) p1
                      <? manhattan_distance_between (pos_of g2 m1) p2
                   then (Some m1, b2) else (b1, Some m2)
              else (Some m1, Some m2)).
  assert (Htie : (tie.1 = Some m1 \/ tie.1 = b1) /\ (tie.2 = Some m2 \/ tie.2 = b2)).
  { subst tie. destruct (Nat.eqb m1 m2); [destruct (_ <? _)|]; simpl; auto. }
  destruct tie as [o1 o2]. simpl in Htie. destruct Htie as [Ho1 Ho2].
  destruct (or_new_corner g2 o1 p1) as [g3 n1] eqn:N3.
  destruct (or_new_corner g3 o2 p2) as [g4 n2] eqn:N4.
  destruct (((pos_of g4 n1).1 =? (pos_of g4 n2).1) && ((pos_of g4 n1).2 =? (pos_of g4 n2).2))
    eqn:Hassert; [discriminate|].
  intros H. injection H as <-. right.
  destruct (or_new_corner_fresh _ _ _ _ _ N1) as (e1 & C1 & F1 & T1 & W1).
  destruct (or_new_corner_fresh _ _ _ _ _ N2) as (e2 & C2 & F2 & T2 & W2).
  destruct (or_new_corner_fresh _ _ _ _ _ N3) as (e3 & C3 & F3 & T3 & W3).
  destruct (or_new_corner_fresh _ _ _ _ _ N4) as (e4 & C4 & F4 & T4 & W4).
  exists g4, n1, n2, (e1 ++ e2 ++ e3 ++ e4).
  split.
  { intros ->. rewrite !Z.eqb_refl in Hdeg. discriminate. }
  split; [rewrite C4, C3, C2, C1, <- !app_assoc; reflexivity|].
  split; [repeat (apply Forall_app; split); assumption|].
  split; [congruence|]. split; [congruence|].
  split.
  { intros Heq. rewrite Heq, !Z.eqb_refl in Hassert. discriminate. }
  split.
  - intros Hr.
    assert (L1 : (length (corners g) <= length (corners g1))%nat) by (rewrite C1, length_app; lia).
    assert (L2 : (length (corners g1) <= length (corners g2))%nat) by (rewrite C2, length_app; lia).
    assert (L3 : (length (corners g2) <= length (corners g3))%nat) by (rewrite C3, length_app; lia).
    assert (L4 : (length (corners g3) <= length (corners g4))%nat) by (rewrite C4, length_app; lia).
    destruct (or_new_corner_in_range _ _ _ _ _ Hr
                (fun c Hc => find_closest_in_range _ _ _ _ _ c Hr E1 (or_introl Hc)) N1)
      as [Hr1 Hm1].
    destruct (or_new_corner_in_range _ _ _ _ _ Hr1
                (fun c Hc => find_closest_in_range _ _ _ _ _ c Hr1 E2 (or_introl Hc)) N2)
      as [Hr2 Hm2].
    assert (Hb1 : forall c, b1 = Some c -> (c < length (corners g2))%nat).
    { intros c Hc. pose proof (find_closest_in_range _ _ _ _ _ c Hr E1 (or_intror Hc)). lia. }
    assert (Hb2 : forall c, b2 = Some c -> (c < length (corners g2))%nat).
    { intros c Hc. pose proof (find_closest_in_range _ _ _ _ _ c Hr1 E2 (or_intror Hc)). lia. }
    assert (Hlt1 : forall c, o1 = Some c -> (c < length (corners g2))%nat).
    { intros c Hc. destruct Ho1 as [->| ->]; [injection Hc as <-; lia|apply Hb1, Hc]. }
    destruct (or_new_corner_in_range _ _ _ _ _ Hr2 Hlt1 N3) as [Hr3 Hn1].
    assert (Hlt2 : forall c, o2 = Some c -> (c < length (corners g3))%nat).
    { intros c Hc. destruct Ho2 as [->| ->]; [injection Hc as <-; lia|].
      pose proof (Hb2 c Hc). lia. }
    destruct (or_new_corner_in_range _ _ _ _ _ Hr3 Hlt2 N4) as [Hr4 Hn2].
    split; [exact Hr4|]. split; [lia|exact Hn2].
  - f_equal; congruence.
Qed.

Lemma nth_app_fresh_adj (cs extra : list Corner.t) (c : nat) :
  Forall (fun k => Corner.adj k = []) extra ->
  Corner.adj (nth c (cs ++ extra) dummy_corner)
  = if decide (c < length cs)%nat then Corner.adj (nth c cs dummy_corner) else [].
Proof.
  intros Hf. destruct (decide (c < length cs)%nat) as [Hlt|Hge].
  - rewrite app_nth1 by exact Hlt. reflexivity.
  - rewrite app_nth2 by lia.
    destruct (nth_in_or_default (c - length cs) extra dummy_corner) as [Hin|Hdef]; [|rewrite Hdef]; [|reflexivity].
    rewrite Forall_forall in Hf. apply Hf, list_elem_of_In, Hin.
Qed.

(** X4. A successful [add_wall] only appends: the tolerance is kept, the wall
    list is unchanged (a segment whose two ends resolve to one corner) or
    has one new wall without holes at its end, no corner is removed, and
    every old corner keeps its position and its adjacency list, up to the
    index of the new wall appended to it. *)
Theorem add_wall_only_appends (g : WallLinkageGraph) (p1 p2 : Z * Z) (l r : option string)
    (g' : WallLinkageGraph) :
  add_wall g p1 p2 l r = Ok g' ->
  tolerance_distance g' = tolerance_distance g
  /\ (walls g' = walls g
      \/ exists n1 n2, walls g' = walls g ++ [Wall.mk n1 n2 [] l r None])
  /\ (length (corners g) <= length (corners g'))%nat
  /\ forall c, (c < length (corners g))%nat ->
       pos_of g' c = pos_of g c
       /\ (adj_of g' c = adj_of g c \/ adj_of g' c = adj_of g c ++ [length (walls g)]).
Proof.
  intros H. apply add_wall_shape in H
    as [[_ Hg']|(g4 & n1 & n2 & extra & Hne & Hc & Hf & Ht & Hw & Hpos & _ & Hg')]; subst g'.
  { split; [reflexivity|]. split; [left; reflexivity|]. split; [lia|].
    intros c _. split; [reflexivity|left; reflexivity]. }
  simpl. split; [reflexivity|]. split; [right; exists n1, n2; reflexivity|].
  split; [rewrite !length_adj_append, Hc, length_app; lia|].
  intros c Hlt. split.
  - unfold pos_of, corner. simpl. rewrite !pos_of_adj_append, Hc, app_nth1 by exact Hlt.
    reflexivity.
  - assert (Hn : n1 <> n2) by (intros ->; apply Hpos; reflexivity).
    unfold adj_of, corner. simpl. rewrite !adj_adj_append, length_adj_append.
    assert (Hold : Corner.adj (nth c (corners g4) dummy_corner)
                   = Corner.adj (nth c (corners g) dummy_corner))
      by (rewrite Hc, app_nth1 by exact Hlt; reflexivity).
    rewrite Hold.
    destruct (decide (c = n2 /\ _)) as [[-> _]|_].
    + right. rewrite decide_False by (intros [? _]; congruence). reflexivity.
    + destruct (decide (c = n1 /\ _)); [right|left]; reflexivity.
Qed.

(** The wall (-3,0)-(50,50) added to the wall (0,0)-(100,0) with tolerance 4. *)
Lemma add_wall_only_appends_witness :
  let g := Examples.single_wall in
  let g' := Examples.graph_of (add_wall g (-3, 0) (50, 50) None None) in
  tolerance_distance g' = tolerance_distance g
  /\ (walls g' = walls g
      \/ exists n1 n2, walls g' = walls g ++ [Wall.mk n1 n2 [] None None None])
  /\ (length (corners g) <= length (corners g'))%nat
  /\ forall c, (c < length (corners g))%nat ->
       pos_of g' c = pos_of g c
       /\ (adj_of g' c = adj_of g c \/ adj_of g' c = adj_of g c ++ [length (walls g)]).
Proof.
  intros g g'.
  apply (add_wall_only_appends g (-3, 0) (50, 50) None None g').
  vm_compute. reflexivity.
Defined.

Lemma add_wall_well_formed (g : WallLinkageGraph) (p1 p2 : Z * Z)
    (l r : option string) (g' : WallLinkageGraph) :
  index_in_range g -> well_formedb g = true ->
  add_wall g p1 p2 l r = Ok g' ->
  index_in_range g' /\ well_formedb g' = true.
Proof.
  intros Hr Hwf H. apply add_wall_shape in H
    as [[_ Hg']|(g4 & n1 & n2 & extra & Hne & Hc & Hf & Ht & Hw & Hpos & Hrange & Hg')]; subst g'.
  { split; assumption. }
  destruct (Hrange Hr) as (Hr4 & Hn1 & Hn2).
  assert (Hn : n1 <> n2) by (intros ->; apply Hpos; reflexivity).
  set (w := length (walls g)).
  set (gf := mkGraph _ _ _ _).
  assert (Hlen : length (corners gf) = length (corners g4))
    by (subst gf; simpl; rewrite !length_adj_append; reflexivity).
  assert (Hposf : forall c, pos_of gf c = pos_of g4 c).
  { intros c. unfold pos_of, corner. subst gf. simpl. rewrite !pos_of_adj_append. reflexivity. }
  assert (Hpos4 : forall c, (c < length (corners g))%nat -> pos_of g4 c = pos_of g c).
  { intros c Hlt. unfold pos_of, corner. rewrite Hc, app_nth1 by exact Hlt. reflexivity. }
  assert (Hadj4 : forall c, adj_of g4 c
                            = if decide (c < length (corners g))%nat then adj_of g c else []).
  { intros c. unfold adj_of, corner. rewrite Hc. apply nth_app_fresh_adj, Hf. }
  assert (Hadjf : forall c, adj_of gf c
                            = if decide (c = n1 \/ c = n2) then adj_of g4 c ++ [w] else adj_of g4 c).
  { intros c. unfold adj_of, corner. subst gf. simpl.
    rewrite !adj_adj_append, length_adj_append.
    destruct (decide (c = n2 /\ _)) as [[-> _]|Hno2].
    - rewrite decide_False by (intros [? _]; congruence).
      rewrite decide_True by (right; reflexivity). reflexivity.
    - destruct (decide (c = n1 /\ _)) as [[-> _]|Hno1].
      + rewrite decide_True by (left; reflexivity). reflexivity.
      + rewrite decide_False; [reflexivity|]. intros [->| ->]; [apply Hno1|apply Hno2]; auto. }
  assert (Hwallf_old : forall x, (x < w)%nat -> wall gf x = wall g x).
  { intros x Hx. unfold wall. subst gf. simpl. rewrite app_nth1 by exact Hx. reflexivity. }
  assert (Hwallf_new : wall gf w = Wall.mk n1 n2 [] l r None).
  { unfold wall. subst gf w. simpl. rewrite nth_middle. reflexivity. }
  assert (Hwlen : length (walls gf) = S w)
    by (subst gf; simpl; rewrite length_app; simpl; lia).
  assert (Hcle : (length (corners g) <= length (corners g4))%nat)
    by (rewrite Hc, length_app; lia).
  assert (Hadj_old : forall c x, x ∈ adj_of g4 c ->
                                 (c < length (corners g))%nat /\ x ∈ adj_of g c).
  { intros c x Hx. rewrite Hadj4 in Hx.
    destruct (decide (c < length (corners g))%nat); [split; assumption|inversion Hx]. }
  split; [intros c Hc'; rewrite Hlen; apply Hr4; exact Hc'|].
  apply well_formedb_intro.
  - intros x Hx. rewrite Hwlen in Hx.
    destruct (decide (x = w)) as [->|Hxw].
    + apply wall_okb_intro; rewrite ?Hwallf_new, ?Hlen, ?Hposf; simpl; try assumption.
      * rewrite Hadjf, decide_True by (left; reflexivity). apply elem_of_app. right. left.
      * rewrite Hadjf, decide_True by (right; reflexivity). apply elem_of_app. right. left.
    + assert (Hxlt : (x < w)%nat) by lia.
      destruct (wf_wall g Hwf x Hxlt) as (H1 & H2 & Hp & Ha1 & Ha2).
      assert (Hsub : forall c, (c < length (corners g))%nat -> x ∈ adj_of g c -> x ∈ adj_of gf c).
      { intros c Hlt Hin. rewrite Hadjf.
        assert (Hin4 : x ∈ adj_of g4 c) by (rewrite Hadj4, decide_True by exact Hlt; exact Hin).
        destruct (decide _); [apply elem_of_app; left|]; exact Hin4. }
      apply wall_okb_intro; rewrite ?Hwallf_old, ?Hlen, ?Hposf, ?Hpos4 by assumption;
        try assumption; try lia; apply Hsub; assumption.
  - intros c Hlt. rewrite Hlen in Hlt.
    assert (Hnd4 : NoDup (adj_of g4 c)).
    { rewrite Hadj4. destruct (decide _) as [Hold|_]; [|constructor].
      apply (wf_corner g Hwf c 0%nat Hold). }
    assert (Hold : forall x, x ∈ adj_of g4 c -> (x < w)%nat /\ incident gf x c).
    { intros x Hx. apply Hadj_old in Hx as [Hclt Hx].
      destruct (wf_corner g Hwf c x Hclt) as [_ Hall]. destruct (Hall Hx) as [Hxlt Hinc].
      split; [exact Hxlt|]. unfold incident. rewrite Hwallf_old by exact Hxlt. exact Hinc. }
    apply corner_okb_intro.
    + rewrite Hadjf. destruct (decide _); [|exact Hnd4].
      apply NoDup_app. split; [exact Hnd4|]. split; [|apply NoDup_singleton].
      intros x Hx Hx'. apply list_elem_of_singleton in Hx'. apply Hold in Hx as [Hx _]. lia.
    + intros x Hx. rewrite Hwlen. rewrite Hadjf in Hx.
      destruct (decide (c = n1 \/ c = n2)) as [Hc12|_].
      * apply elem_of_app in Hx as [Hx|Hx].
        -- apply Hold in Hx as [Hx Hinc]. split; [lia|exact Hinc].
        -- apply list_elem_of_singleton in Hx as ->. split; [lia|].
           unfold incident. rewrite Hwallf_new. simpl. destruct Hc12; [left|right]; congruence.
      * apply Hold in Hx as [Hx Hinc]. split; [lia|exact Hinc].
Qed.

Lemma index_in_range_init (tolerance : Q) : index_in_range (WallLinkageGraph_init tolerance).
Proof. intros c Hc. inversion Hc. Qed.


Lemma add_wall_length (g : WallLinkageGraph) (p1 p2 : Z * Z) (l r : option string)
    (g' : WallLinkageGraph) :
  add_wall g p1 p2 l r = Ok g' ->
  (length (walls g) <= length (walls g') <= S (length (walls g)))%nat.
Proof.
  intros H. apply add_wall_shape in H
    as [[_ Hg']|(g4 & n1 & n2 & extra & _ & _ & _ & _ & _ & _ & _ & Hg')]; subst g'.
  - lia.
  - simpl. rewrite length_app. simpl. lia.
Qed.

(** X5. Adding a list of segments to a well-formed graph whose corner index
    points into the corner list leaves it so, and adds at most one wall
    for each segment and removes none. *)
Theorem add_walls_preserve_well_formed (segs : list ((Z * Z) * (Z * Z))) :
  forall g g' : WallLinkageGraph,
    index_in_range g -> well_formedb g = true ->
    add_walls g segs = Ok g' ->
    index_in_range g' /\ well_formedb g' = true
    /\ (length (walls g) <= length (walls g') <= length (walls g) + length segs)%nat.
Proof.
  induction segs as [|[a b] segs IH]; intros g g' Hr Hwf; simpl.
  - intros H. injection H as <-. split; [exact Hr|]. split; [exact Hwf|lia].
  - destruct (add_wall g a b None None) as [g1|e] eqn:E; [|discriminate]. simpl.
    destruct (add_wall_well_formed _ _ _ _ _ _ Hr Hwf E) as [Hr1 Hwf1].
    pose proof (add_wall_length _ _ _ _ _ _ E) as Hlen.
    intros H. destruct (IH _ _ Hr1 Hwf1 H) as (Hr' & Hwf' & Hlen').
    split; [exact Hr'|]. split; [exact Hwf'|lia].
Qed.

(** The empty graph of tolerance 4 and the segment (0,0)-(100,0). *)
Lemma add_walls_preserve_well_formed_witness :
  let g := WallLinkageGraph_init 4 in
  let g' := Examples.single_wall in
  index_in_range g' /\ well_formedb g' = true
  /\ (length (walls g) <= length (walls g') <= length (walls g) + 1)%nat.
Proof.
  intros g g'.
  apply (add_walls_preserve_well_formed [((0, 0), (100, 0))] g g').
  - apply index_in_range_init.
  - vm_compute. reflexivity.
  - vm_compute. reflexivity.
Defined.

(* --------------------------------------------------------------------- *)
(** ** Face tracing: the trace is a walk *)


Section FaceTracingWalk.
Variable g : WallLinkageGraph.
Hypothesis Hwf : well_formedb g = true.



End FaceTracingWalk.


Section DictSet.
Context {K V : Type} `{EqDecision K}.




End DictSet.


Lemma Qle_bool_total (a b : Q) : Qle_bool a b = true \/ Qle_bool b a = true.
Proof.
  destruct (Qlt_le_dec a b) as [H|H]; [left; apply Qle_bool_iff, Qlt_le_weak, H|].
  right. apply Qle_bool_iff, H.
Qed.

Lemma Qle_bool_trans (a b c : Q) :
  Qle_bool a b = true -> Qle_bool b c = true -> Qle_bool a c = true.
Proof. rewrite !Qle_bool_iff. apply Qle_trans. Qed.


(* --------------------------------------------------------------------- *)
(** ** Polylines *)

Lemma chain_snoc g ws cs b :
  cs <> [] -> chain g ws cs -> (exists w, w ∈ ws /\ joins g w (List.last cs 0%nat) b) ->
  chain g ws (cs ++ [b]).
Proof.
  induction cs as [|a cs IH]; [congruence|]. intros _ Hc Hj.
  destruct cs as [|a' cs].
  - simpl in *. split; [exact Hj|exact I].
  - destruct Hc as [Haa' Hc]. split; [exact Haa'|].
    apply IH; [discriminate|exact Hc|exact Hj].
Qed.

Lemma polyline_next_spec g last unvisited c rest :
  polyline_next g last unvisited = Some (c, rest) ->
  length unvisited = S (length rest)
  /\ (forall x, x ∈ rest -> x ∈ unvisited)
  /\ exists w, w ∈ unvisited /\ joins g w last c.
Proof.
  revert c rest. induction unvisited as [|w ws IH]; intros c rest; simpl; [discriminate|].
  destruct (Nat.eqb_spec (Wall.p1 (wall g w)) last) as [E1|E1].
  { intros H. injection H as <- <-. split; [reflexivity|]. split; [intros x Hx; right; exact Hx|].
    exists w. split; [left|left; split; [exact E1|reflexivity]]. }
  destruct (Nat.eqb_spec (Wall.p2 (wall g w)) last) as [E2|E2].
  { intros H. injection H as <- <-. split; [reflexivity|]. split; [intros x Hx; right; exact Hx|].
    exists w. split; [left|right; split; [exact E2|reflexivity]]. }
  destruct (polyline_next g last ws) as [[c' rest']|] eqn:E; [|discriminate].
  intros H. injection H as <- <-.
  destruct (IH c' rest' eq_refl) as (Hlen & Hsub & w' & Hw' & Hj).
  split; [simpl; lia|]. split.
  { intros x Hx. apply elem_of_cons in Hx as [->|Hx]; [left|right; apply Hsub, Hx]. }
  exists w'. split; [right; exact Hw'|exact Hj].
Qed.

Lemma polyline_loop_spec g ws (fuel : nat) :
  forall points unvisited,
    points <> [] -> (forall x, x ∈ unvisited -> x ∈ ws) -> (length unvisited <= fuel)%nat ->
    chain g ws points ->
    let r := polyline_loop g fuel points unvisited in
    (length points <= length r <= length points + length unvisited)%nat
    /\ take (length points) r = points
    /\ chain g ws r.
Proof.
  induction fuel as [|fuel IH]; intros points unvisited Hne Hsub Hlen Hch; simpl.
  - split; [lia|]. split; [apply firstn_all|exact Hch].
  - destruct (polyline_next g (List.last points 0%nat) unvisited) as [[c rest]|] eqn:E.
    + destruct (polyline_next_spec _ _ _ _ _ E) as (Hl & Hs & w & Hw & Hj).
      destruct (IH (points ++ [c]) rest) as (Hb & Ht & Hc).
      * destruct points; discriminate.
      * intros x Hx. apply Hsub, Hs, Hx.
      * lia.
      * apply chain_snoc; [exact Hne|exact Hch|]. exists w. split; [apply Hsub, Hw|exact Hj].
      * rewrite length_app in Hb, Ht. simpl in Hb, Ht. split; [lia|]. split; [|exact Hc].
        set (r := polyline_loop g fuel (points ++ [c]) rest) in *.
        assert (Htt : take (length points) (take (length points + 1) r) = take (length points) r)
          by (rewrite take_take; f_equal; lia).
        rewrite <- Htt, Ht. apply take_app_length.
    + split; [lia|]. split; [apply firstn_all|exact Hch].
Qed.

(** X8. [get_polyline] raises [IndexError] on an empty wall list. On any other
    list it returns the positions of a list of corners that starts with
    the two ends of the first wall, has between 2 and [len(walls) + 1]
    corners, and in which every two consecutive corners are the ends of
    one of the given walls. *)
Theorem get_polyline_follows_walls (g : WallLinkageGraph) (ws : list nat) :
  match ws with
  | [] => get_polyline g ws = Raise IndexError
  | w0 :: _ =>
      exists cs,
        get_polyline g ws = Ok (map (pos_of g) cs)
        /\ take 2 cs = [Wall.p1 (wall g w0); Wall.p2 (wall g w0)]
        /\ (2 <= length cs <= length ws + 1)%nat
        /\ chain g ws cs
  end.
Proof.
  destruct ws as [|w0 rest]; [reflexivity|].
  unfold get_polyline.
  set (points := [Wall.p1 (wall g w0); Wall.p2 (wall g w0)]).
  destruct (polyline_loop_spec g (w0 :: rest) (length rest) points rest) as (Hb & Ht & Hc).
  - discriminate.
  - intros x Hx. right. exact Hx.
  - lia.
  - split; [|exact I]. exists w0. split; [left|left; split; reflexivity].
  - eexists. split; [reflexivity|]. split; [exact Ht|]. split; [simpl in *; lia|exact Hc].
Qed.

(* --------------------------------------------------------------------- *)
(** ** Room detection *)






(* --------------------------------------------------------------------- *)
(** ** Wall splitter: junctions *)

Lemma Qle_bool_inject_Z_5 (a : Z) : Qle_bool (inject_Z a) 5 = (a <=? 5).
Proof. unfold Qle_bool. simpl. rewrite Z.mul_1_r. reflexivity. Qed.

Lemma Qlt_bool_5_inject_Z (a : Z) : Qlt_bool 5 (inject_Z a) = (5 <? a).
Proof.
  unfold Qlt_bool, Qle_bool. simpl. rewrite Z.mul_1_r.
  rewrite Z.ltb_antisym. reflexivity.
Qed.

Lemma Qlt_bool_inject_Z_minus_5 (a b : Z) :
  Qlt_bool (inject_Z a) (inject_Z b - 5) = (a <? b - 5).
Proof.
  unfold Qlt_bool, Qle_bool. simpl. rewrite Z.ltb_antisym. f_equal.
  apply eq_iff_eq_true. rewrite !Z.leb_le. lia.
Qed.

Lemma Zdiv_double (y : Z) : (y + y) / 2 = y.
Proof. replace (y + y) with (y * 2) by lia. apply Z.div_mul. lia. Qed.

Lemma first_point_connection_some l1 l2 gap c :
  first_point_connection l1 l2 gap = Some c ->
  (c.1 = 0 \/ c.1 = 1) /\ (c.2 = 0 \/ c.2 = 1).
Proof.
  unfold first_point_connection. intros H. apply find_some in H as [H _].
  simpl in H. destruct H as [<-|[<-|[<-|[<-|[]]]]]; simpl; auto.
Qed.

Lemma first_point_connection_none l1 l2 :
  first_point_connection l1 l2 5 = None ->
  5 < pointDistance l1.1 l2.1 /\ 5 < pointDistance l1.1 l2.2
  /\ 5 < pointDistance l1.2 l2.1 /\ 5 < pointDistance l1.2 l2.2.
Proof.
  unfold first_point_connection. intros H.
  pose proof (find_none _ _ H) as Hn. simpl in Hn.
  assert (H00 := Hn (0, 0) ltac:(auto)).
  assert (H01 := Hn (0, 1) ltac:(auto)).
  assert (H10 := Hn (1, 0) ltac:(auto)).
  assert (H11 := Hn (1, 1) ltac:(auto)).
  simpl in *. unfold end_point in *. simpl in *.
  rewrite negb_false_iff, Qlt_bool_5_inject_Z, Z.ltb_lt in H00, H01, H10, H11.
  repeat split; assumption.
Qed.

Lemma lineRange_horizontal (l : (Z * Z) * (Z * Z)) :
  horizontal l -> lineRange l = (0, l.1.2, Z.min l.1.1 l.2.1, Z.max l.1.1 l.2.1).
Proof.
  intros [Hy Hx]. unfold lineRange, calcLineDirection.
  destruct (Z.ltb_spec (Z.abs (l.1.1 - l.2.1)) (Z.abs (l.1.2 - l.2.2))) as [H|H]; [lia|].
  unfold coord. simpl. rewrite <- Hy, Zdiv_double. reflexivity.
Qed.

Lemma lineRange_vertical (l : (Z * Z) * (Z * Z)) :
  vertical l -> lineRange l = (1, l.1.1, Z.min l.1.2 l.2.2, Z.max l.1.2 l.2.2).
Proof.
  intros [Hx Hy]. unfold lineRange, calcLineDirection.
  destruct (Z.ltb_spec (Z.abs (l.1.1 - l.2.1)) (Z.abs (l.1.2 - l.2.2))) as [H|H]; [|lia].
  unfold coord. simpl. rewrite <- Hx, Zdiv_double. reflexivity.
Qed.

Lemma findConnections_parallel (l1 l2 : (Z * Z) * (Z * Z)) :
  (horizontal l1 /\ horizontal l2) \/ (vertical l1 /\ vertical l2) ->
  (_findConnections l1 l2 5).1.1 <> 2 /\ (_findConnections l1 l2 5).1.2 <> 2.
Proof.
  intros Hpar. unfold _findConnections.
  destruct (first_point_connection l1 l2 5) as [[c1 c2]|] eqn:E.
  { apply first_point_connection_some in E. simpl in *. lia. }
  destruct Hpar as [[H1 H2]|[H1 H2]].
  - rewrite (lineRange_horizontal l1 H1), (lineRange_horizontal l2 H2). cbn. split; discriminate.
  - rewrite (lineRange_vertical l1 H1), (lineRange_vertical l2 H2). cbn. split; discriminate.
Qed.

Lemma findConnections_perpendicular (h v : (Z * Z) * (Z * Z)) :
  horizontal h -> vertical v ->
  let r := _findConnections h v 5 in
  (r.1.1 = 2 ->
     r.2 = (v.1.1, h.1.2)
     /\ Z.min h.1.1 h.2.1 + 5 < v.1.1 < Z.max h.1.1 h.2.1 - 5
     /\ Z.min v.1.2 v.2.2 - 5 <= h.1.2 <= Z.max v.1.2 v.2.2 + 5)
  /\ (r.1.2 = 2 ->
     r.2 = (v.1.1, h.1.2)
     /\ Z.min v.1.2 v.2.2 + 5 < h.1.2 < Z.max v.1.2 v.2.2 - 5
     /\ Z.min h.1.1 h.2.1 - 5 <= v.1.1 <= Z.max h.1.1 h.2.1 + 5).
Proof.
  intros Hh Hv. unfold _findConnections.
  destruct (first_point_connection h v 5) as [[c1 c2]|] eqn:E.
  { apply first_point_connection_some in E. simpl in *. lia. }
  apply first_point_connection_none in E as (D00 & D01 & D10 & D11).
  rewrite (lineRange_horizontal h Hh), (lineRange_vertical v Hv).
  destruct Hh as [Hhy Hhx], Hv as [Hvx Hvy].
  destruct h as [[hx1 hy1] [hx2 hy2]], v as [[vx1 vy1] [vx2 vy2]].
  unfold pointDistance in *. simpl in *. subst hy2 vx2.
  rewrite !Qlt_bool_inject_Z_minus_5, !Qle_bool_inject_Z_5.
  apply Z.max_lt_iff in D00, D01, D10, D11.
  assert (Habs : forall a, 5 < Z.abs a -> a < -5 \/ 5 < a) by (intros a; lia).
  assert (Habs' : forall a, Z.abs a <= 5 -> -5 <= a <= 5) by (intros a; lia).
  assert (Hrange : forall a b c, Z.max a c - 5 <= Z.min a b -> c - 5 <= a <= b + 5)
    by (intros a b c; lia).
  assert (D00' := or_ind (fun H => or_introl (Habs _ H)) (fun H => or_intror (Habs _ H)) D00).
  assert (D01' := or_ind (fun H => or_introl (Habs _ H)) (fun H => or_intror (Habs _ H)) D01).
  assert (D10' := or_ind (fun H => or_introl (Habs _ H)) (fun H => or_intror (Habs _ H)) D10).
  assert (D11' := or_ind (fun H => or_introl (Habs _ H)) (fun H => or_intror (Habs _ H)) D11).
  clear D00 D01 D10 D11.
  assert (Hhx' : hx1 < hx2 \/ hx2 < hx1) by lia.
  assert (Hvy' : vy1 < vy2 \/ vy2 < vy1) by lia.
  destruct Hhx' as [Hhx'|Hhx'], Hvy' as [Hvy'|Hvy'];
    rewrite ?(Z.min_l hx1 hx2), ?(Z.max_r hx1 hx2), ?(Z.min_r hx1 hx2), ?(Z.max_l hx1 hx2),
            ?(Z.min_l vy1 vy2), ?(Z.max_r vy1 vy2), ?(Z.min_r vy1 vy2), ?(Z.max_l vy1 vy2)
      by lia;
    (match goal with
     | |- context [Z.min ?a ?b <? Z.max ?a ?c - 5] =>
         destruct (Z.ltb_spec (Z.min a b) (Z.max a c - 5)) as [R1|R1];
         [cbn; split; intros Hc; discriminate Hc|apply Hrange in R1]
     end);
    (match goal with
     | |- context [Z.min ?a ?b <? Z.max ?a ?c - 5] =>
         destruct (Z.ltb_spec (Z.min a b) (Z.max a c - 5)) as [R2|R2];
         [cbn; split; intros Hc; discriminate Hc|apply Hrange in R2]
     end);
    cbn [orb];
    (match goal with
     | |- context [Z.abs ?a <=? 5] =>
         destruct (Z.leb_spec (Z.abs a) 5) as [A1|A1];
         [apply Habs' in A1; cbn [fst snd]; split; intros Hc;
          [discriminate Hc|split; [reflexivity|lia]]
         |apply Habs in A1]
     end);
    (match goal with
     | |- context [Z.abs ?a <=? 5] =>
         destruct (Z.leb_spec (Z.abs a) 5) as [A2|A2];
         [apply Habs' in A2; cbn [fst snd]; split; intros Hc;
          [discriminate Hc|split; [reflexivity|lia]]
         |apply Habs in A2]
     end);
    (match goal with
     | |- context [Z.abs ?a <=? 5] =>
         destruct (Z.leb_spec (Z.abs a) 5) as [A3|A3];
         [apply Habs' in A3; cbn [fst snd]; split; intros Hc;
          [split; [reflexivity|lia]|discriminate Hc]
         |apply Habs in A3]
     end);
    (match goal with
     | |- context [Z.abs ?a <=? 5] =>
         destruct (Z.leb_spec (Z.abs a) 5) as [A4|A4];
         [apply Habs' in A4; cbn [fst snd]; split; intros Hc;
          [split; [reflexivity|lia]|discriminate Hc]
         |apply Habs in A4]
     end);
    cbn [fst snd]; split; intros _; (split; [reflexivity|lia]).
Qed.

Lemma proper_axis (w : Datum.t) :
  proper w -> is_manhattan w = true -> horizontal (line_of w) \/ vertical (line_of w).
Proof.
  intros Hp Hm. specialize (Hp Hm). unfold is_manhattan in Hm.
  apply orb_true_iff in Hm. rewrite !Z.eqb_eq in Hm.
  unfold horizontal, vertical, line_of. simpl.
  destruct (Z.eq_dec (Datum.x_min w) (Datum.x_max w)) as [Hx|Hx].
  - right. split; [exact Hx|]. destruct Hp as [Hp|Hp]; [contradiction|exact Hp].
  - left. destruct Hm as [Hm|Hm]; [contradiction|]. split; assumption.
Qed.

Lemma find_connections_junction (l1 l2 : (Z * Z) * (Z * Z)) (gap : Q) :
  horizontal l1 \/ vertical l1 -> horizontal l2 \/ vertical l2 ->
  let r := find_connections l1 l2 gap in
  (r.1.1 = 2 -> strictly_inside l1 r.2 /\ reaches l2 r.2)
  /\ (r.1.2 = 2 -> strictly_inside l2 r.2 /\ reaches l1 r.2).
Proof.
  intros H1 H2. unfold find_connections.
  destruct (Z.eqb_spec l1.1.1 l1.2.1) as [Hx|Hx].
  - assert (Hv1 : vertical l1) by (destruct H1 as [[_ H]|H]; [contradiction|exact H]).
    destruct (_findConnections l2 l1 5) as [r p] eqn:E. cbn [fst snd].
    destruct H2 as [Hh2|Hv2].
    + pose proof (findConnections_perpendicular l2 l1 Hh2 Hv1) as Hperp.
      rewrite E in Hperp. cbn [fst snd] in Hperp. destruct Hperp as [Ha Hb].
      split; intros Hc.
      * destruct (Hb Hc) as (-> & Hin & Hre). split; [right|left]; repeat split;
          try assumption; try reflexivity; try apply Hv1; try apply Hh2; simpl; lia.
      * destruct (Ha Hc) as (-> & Hin & Hre). split; [left|right]; repeat split;
          try assumption; try reflexivity; try apply Hv1; try apply Hh2; simpl; lia.
    + pose proof (findConnections_parallel l2 l1 (or_intror (conj Hv2 Hv1))) as Hpar.
      rewrite E in Hpar. cbn [fst snd] in Hpar. split; intros Hc; lia.
  - assert (Hh1 : horizontal l1) by (destruct H1 as [H|[H _]]; [exact H|contradiction]).
    destruct H2 as [Hh2|Hv2].
    + pose proof (findConnections_parallel l1 l2 (or_introl (conj Hh1 Hh2))) as Hpar.
      split; intros Hc; lia.
    + pose proof (findConnections_perpendicular l1 l2 Hh1 Hv2) as [Ha Hb].
      split; intros Hc.
      * destruct (Ha Hc) as (-> & Hin & Hre). split; [left|right]; repeat split;
          try assumption; try reflexivity; try apply Hv2; try apply Hh1; simpl; lia.
      * destruct (Hb Hc) as (-> & Hin & Hre). split; [right|left]; repeat split;
          try assumption; try reflexivity; try apply Hv2; try apply Hh1; simpl; lia.
Qed.

Lemma split_scan_inner_spec (margin : Q) (i1 : nat) (wall1 : Datum.t) (rest : list Datum.t) :
  forall (i2 i : nat) (w : Datum.t) (p : Z * Z),
    split_scan_inner margin i1 wall1 i2 rest = Some (i, w, p) ->
    exists (k : nat) (wall2 : Datum.t),
      rest !! k = Some wall2 /\ is_manhattan wall2 = true /\ wall1 <> wall2
      /\ let r := find_connections (line_of wall1) (line_of wall2) margin in
         p = r.2
         /\ ((r.1.1 = 2 /\ i = i1 /\ w = wall1) \/ (r.1.2 = 2 /\ i = (i2 + k)%nat /\ w = wall2)).
Proof.
  induction rest as [|wall2 rest IH]; intros i2 i w p; simpl; [discriminate|].
  assert (Hskip : split_scan_inner margin i1 wall1 (S i2) rest = Some (i, w, p) ->
                  exists (k : nat) (wall2' : Datum.t),
                    (wall2 :: rest) !! k = Some wall2' /\ is_manhattan wall2' = true
                    /\ wall1 <> wall2'
                    /\ let r := find_connections (line_of wall1) (line_of wall2') margin in
                       p = r.2
                       /\ ((r.1.1 = 2 /\ i = i1 /\ w = wall1)
                           \/ (r.1.2 = 2 /\ i = (i2 + k)%nat /\ w = wall2'))).
  { intros H. destruct (IH _ _ _ _ H) as (k & w2 & Hk & Hm & Hne & Hp & Hcase).
    exists (S k), w2. split; [exact Hk|]. split; [exact Hm|]. split; [exact Hne|].
    split; [exact Hp|]. destruct Hcase as [Hc|(Hc & -> & ->)]; [left; exact Hc|right].
    split; [exact Hc|]. split; [lia|reflexivity]. }
  destruct (is_manhattan wall2) eqn:Hm2; simpl; [|exact Hskip].
  case_bool_decide as Heq; [exact Hskip|].
  destruct (find_connections (line_of wall1) (line_of wall2) margin) as [t p'] eqn:E.
  destruct (Z.eqb_spec t.1 2) as [Ht1|Ht1].
  { intros H. injection H as <- <- <-. exists 0%nat, wall2.
    split; [reflexivity|]. split; [exact Hm2|]. split; [exact Heq|]. rewrite E.
    split; [reflexivity|]. left. repeat split. exact Ht1. }
  destruct (Z.eqb_spec t.2 2) as [Ht2|Ht2]; [|exact Hskip].
  intros H. injection H as <- <- <-. exists 0%nat, wall2.
  split; [reflexivity|]. split; [exact Hm2|]. split; [exact Heq|]. rewrite E.
  split; [reflexivity|]. right. split; [exact Ht2|]. split; [lia|reflexivity].
Qed.

Lemma split_scan_outer_spec (margin : Q) (all : list Datum.t) (rest : list Datum.t) :
  forall (i1 i : nat) (w : Datum.t) (p : Z * Z),
    (forall k, rest !! k = all !! (i1 + k)%nat) ->
    split_scan_outer margin all i1 rest = Some (i, w, p) ->
    exists (j1 j2 : nat) (wall1 wall2 : Datum.t),
      all !! j1 = Some wall1 /\ all !! j2 = Some wall2
      /\ is_manhattan wall1 = true /\ is_manhattan wall2 = true /\ wall1 <> wall2
      /\ let r := find_connections (line_of wall1) (line_of wall2) margin in
         p = r.2
         /\ ((r.1.1 = 2 /\ i = j1 /\ w = wall1) \/ (r.1.2 = 2 /\ i = j2 /\ w = wall2)).
Proof.
  induction rest as [|wall1 rest IH]; intros i1 i w p Hrest; simpl; [discriminate|].
  assert (Hnext : forall k, rest !! k = all !! (S i1 + k)%nat).
  { intros k. replace (S i1 + k)%nat with (i1 + S k)%nat by lia.
    rewrite <- Hrest. reflexivity. }
  destruct (is_manhattan wall1) eqn:Hm1; simpl; [|apply IH; exact Hnext].
  destruct (split_scan_inner margin i1 wall1 0 all) as [r|] eqn:E; [|apply IH; exact Hnext].
  intros H. injection H as ->.
  destruct (split_scan_inner_spec _ _ _ _ _ _ _ _ E) as (k & wall2 & Hk & Hm2 & Hne & Hp & Hcase).
  exists i1, k, wall1, wall2.
  split; [rewrite <- (Nat.add_0_r i1), <- Hrest; reflexivity|].
  split; [exact Hk|]. split; [exact Hm1|]. split; [exact Hm2|]. split; [exact Hne|].
  split; [exact Hp|exact Hcase].
Qed.

Lemma split_segments_proper (w : Datum.t) (p : Z * Z) :
  strictly_inside (line_of w) p ->
  let segs := split_segments w p in
  is_manhattan segs.1 = true /\ is_manhattan segs.2 = true
  /\ proper segs.1 /\ proper segs.2.
Proof.
  unfold strictly_inside, horizontal, vertical, line_of, split_segments, proper, is_manhattan.
  simpl. intros [([Hy Hx] & Hp & Hin)|([Hx Hy] & Hp & Hin)].
  - rewrite Hp, <- Hy, !Z.eqb_refl, !orb_true_r. repeat split; intros _; left; lia.
  - rewrite Hp, <- Hx, !Z.eqb_refl. simpl. repeat split; intros _; right; lia.
Qed.

Lemma split_once_junction (margin : Q) (ws ws' : list Datum.t) :
  Forall proper ws ->
  split_once margin ws = Some ws' ->
  exists (i : nat) (w other : Datum.t) (p : Z * Z),
    ws !! i = Some w /\ other ∈ ws /\ other <> w
    /\ is_manhattan w = true /\ is_manhattan other = true
    /\ strictly_inside (line_of w) p /\ reaches (line_of other) p
    /\ ws' = delete i ws ++ [(split_segments w p).1; (split_segments w p).2].
Proof.
  intros Hproper. unfold split_once.
  destruct (split_scan_outer margin ws 0 ws) as [[[i w] p]|] eqn:E; [|discriminate].
  destruct (split_scan_outer_spec margin ws ws 0 i w p (fun k => eq_refl) E)
    as (j1 & j2 & wall1 & wall2 & H1 & H2 & Hm1 & Hm2 & Hne & Hp & Hcase).
  rewrite Forall_forall in Hproper.
  pose proof (list_elem_of_lookup_2 _ _ _ H1) as Hin1.
  pose proof (list_elem_of_lookup_2 _ _ _ H2) as Hin2.
  pose proof (find_connections_junction (line_of wall1) (line_of wall2) margin
                (proper_axis _ (Hproper _ Hin1) Hm1) (proper_axis _ (Hproper _ Hin2) Hm2))
    as [Ha Hb].
  cbv zeta in Hp, Hcase. rewrite <- Hp in Ha, Hb.
  destruct (split_segments w p) as [seg1 seg2] eqn:Es.
  intros H. injection H as <-.
  pose proof (not_eq_sym Hne) as Hne'.
  destruct Hcase as [(Hc & -> & ->)|(Hc & -> & ->)].
  - destruct (Ha Hc) as [Hin Hre]. exists j1, wall1, wall2, p. rewrite Es.
    repeat (split; [assumption|]). reflexivity.
  - destruct (Hb Hc) as [Hin Hre]. exists j2, wall2, wall1, p. rewrite Es.
    repeat (split; [assumption|]). reflexivity.
Qed.

Lemma split_once_proper (margin : Q) (ws ws' : list Datum.t) :
  Forall proper ws -> split_once margin ws = Some ws' -> Forall proper ws'.
Proof.
  intros Hproper H.
  destruct (split_once_junction _ _ _ Hproper H) as (i & w & other & p & _ & _ & _ & _ & _ & Hin & _ & ->).
  destruct (split_segments_proper w p Hin) as (_ & _ & Hp1 & Hp2).
  apply Forall_app. split.
  - rewrite Forall_forall in *. intros x Hx. apply Hproper.
    eapply list_elem_of_delete_inv. exact Hx.
  - constructor; [exact Hp1|]. constructor; [exact Hp2|constructor].
Qed.

(** X9. When one pass of the wall splitter changes a list of source walls whose
    axis-aligned walls have non-zero length, it removes one axis-aligned
    wall [w] and appends its two halves, cut at a point that lies on [w]
    more than 5 away from both ends and on the line of another
    axis-aligned wall of the list, at most 5 beyond that wall's ends. Both
    halves are axis-aligned, of non-zero length, carry the room types of
    [w], and their lengths add up to the length of [w]. *)
Theorem split_once_breaks_inside (margin : Q) (ws ws' : list Datum.t) :
  Forall proper ws ->
  split_once margin ws = Some ws' ->
  exists (i : nat) (w other : Datum.t) (p : Z * Z),
    ws !! i = Some w /\ other ∈ ws /\ other <> w
    /\ is_manhattan w = true /\ is_manhattan other = true
    /\ strictly_inside (line_of w) p /\ reaches (line_of other) p
    /\ let a := (Datum.x_min w, Datum.y_min w) in
       let b := (Datum.x_max w, Datum.y_max w) in
       let seg1 := Datum.mk a.1 a.2 p.1 p.2 "wall" (Datum.left_room_type w)
                            (Datum.right_room_type w) None None in
       let seg2 := Datum.mk p.1 p.2 b.1 b.2 "wall" (Datum.left_room_type w)
                            (Datum.right_room_type w) None None in
       ws' = delete i ws ++ [seg1; seg2]
       /\ is_manhattan seg1 = true /\ is_manhattan seg2 = true
       /\ a <> p /\ p <> b
       /\ l1_distance a p + l1_distance p b = l1_distance a b.
Proof.
  intros Hproper H.
  destruct (split_once_junction _ _ _ Hproper H)
    as (i & w & other & p & Hi & Ho & Hne & Hmw & Hmo & Hin & Hre & ->).
  exists i, w, other, p. repeat (split; [assumption|]).
  destruct (split_segments_proper w p Hin) as (Hs1 & Hs2 & _ & _).
  cbv zeta. split; [reflexivity|]. split; [exact Hs1|]. split; [exact Hs2|].
  unfold strictly_inside, horizontal, vertical, line_of, l1_distance in *. simpl in *.
  destruct p as [px py]. simpl in *.
  destruct Hin as [([Hy Hx] & Hp & Hlt)|([Hx Hy] & Hp & Hlt)];
    (split; [intros Heq; injection Heq as ? ?; lia|]);
    (split; [intros Heq; injection Heq as ? ?; lia|]); lia.
Qed.

(** A horizontal wall and a vertical wall that stops 3 short of it. *)
Lemma split_once_breaks_inside_witness :
  exists (i : nat) (w other : Datum.t) (p : Z * Z),
    Examples.t_junction_walls !! i = Some w /\ other ∈ Examples.t_junction_walls
    /\ other <> w
    /\ is_manhattan w = true /\ is_manhattan other = true
    /\ strictly_inside (line_of w) p /\ reaches (line_of other) p
    /\ let a := (Datum.x_min w, Datum.y_min w) in
       let b := (Datum.x_max w, Datum.y_max w) in
       let seg1 := Datum.mk a.1 a.2 p.1 p.2 "wall" (Datum.left_room_type w)
                            (Datum.right_room_type w) None None in
       let seg2 := Datum.mk p.1 p.2 b.1 b.2 "wall" (Datum.left_room_type w)
                            (Datum.right_room_type w) None None in
       [Examples.wall_datum 50 3 50 100; Examples.wall_datum 0 0 50 0;
        Examples.wall_datum 50 0 100 0]
       = delete i Examples.t_junction_walls ++ [seg1; seg2]
       /\ is_manhattan seg1 = true /\ is_manhattan seg2 = true
       /\ a <> p /\ p <> b
       /\ l1_distance a p + l1_distance p b = l1_distance a b.
Proof.
  apply (split_once_breaks_inside (1 # 2) Examples.t_junction_walls).
  - constructor; [intros _; left; discriminate|].
    constructor; [intros _; right; discriminate|]. constructor.
  - vm_compute. reflexivity.
Defined.

Lemma split_once_length (margin : Q) (ws ws' : list Datum.t) :
  split_once margin ws = Some ws' -> length ws' = S (length ws).
Proof.
  unfold split_once.
  destruct (split_scan_outer margin ws 0 ws) as [[[i w] p]|] eqn:E; [|discriminate].
  destruct (split_scan_outer_spec margin ws ws 0 i w p (fun k => eq_refl) E)
    as (j1 & j2 & wall1 & wall2 & H1 & H2 & _ & _ & _ & _ & Hcase).
  destruct (split_segments w p) as [seg1 seg2].
  intros H. injection H as <-.
  assert (Hi : (i < length ws)%nat).
  { destruct Hcase as [(_ & -> & _)|(_ & -> & _)]; eapply lookup_lt_Some; eassumption. }
  rewrite length_app, length_delete by (apply lookup_lt_is_Some_2; exact Hi). simpl. lia.
Qed.

Lemma split_once_keeps_diagonal (margin : Q) (ws ws' : list Datum.t) (w : Datum.t) :
  split_once margin ws = Some ws' -> w ∈ ws -> is_manhattan w = false -> w ∈ ws'.
Proof.
  unfold split_once.
  destruct (split_scan_outer margin ws 0 ws) as [[[i b] p]|] eqn:E; [|discriminate].
  destruct (split_scan_outer_spec margin ws ws 0 i b p (fun k => eq_refl) E)
    as (j1 & j2 & wall1 & wall2 & H1 & H2 & Hm1 & Hm2 & _ & _ & Hcase).
  destruct (split_segments b p) as [seg1 seg2].
  intros H Hin Hdiag. injection H as <-.
  assert (Hb : ws !! i = Some b /\ is_manhattan b = true).
  { destruct Hcase as [(_ & -> & ->)|(_ & -> & ->)]; split; assumption. }
  destruct Hb as [Hi Hmb].
  apply elem_of_app. left.
  apply list_elem_of_lookup in Hin as [k Hk].
  assert (Hki : k <> i) by (intros ->; congruence).
  apply list_elem_of_lookup.
  destruct (Nat.lt_ge_cases k i) as [Hlt|Hge].
  - exists k. rewrite list_lookup_delete_lt by exact Hlt. exact Hk.
  - exists (k - 1)%nat. rewrite list_lookup_delete_ge by lia.
    replace (S (k - 1)) with k by lia. exact Hk.
Qed.

Lemma split_once_margin (margin margin' : Q) (ws : list Datum.t) :
  split_once margin ws = split_once margin' ws.
Proof.
  unfold split_once.
  assert (Hinner : forall i1 wall1 rest i2,
            split_scan_inner margin i1 wall1 i2 rest = split_scan_inner margin' i1 wall1 i2 rest).
  { intros i1 wall1 rest. induction rest as [|wall2 rest IH]; intros i2; simpl; [reflexivity|].
    rewrite !IH. reflexivity. }
  assert (Houter : forall all rest i1,
            split_scan_outer margin all i1 rest = split_scan_outer margin' all i1 rest).
  { intros all rest. induction rest as [|wall1 rest IH]; intros i1; simpl; [reflexivity|].
    rewrite !IH, Hinner. reflexivity. }
  rewrite Houter. reflexivity.
Qed.

Lemma split_loop_bounds (margin : Q) (n : nat) (ws : list Datum.t) :
  let r := split_loop margin n ws in
  (length ws <= length r <= length ws + n)%nat
  /\ (length r = (length ws + n)%nat \/ split_once margin r = None)
  /\ (forall w, w ∈ ws -> is_manhattan w = false -> w ∈ r)
  /\ (Forall proper ws -> Forall proper r)
  /\ forall margin', split_loop margin' n ws = r.
Proof.
  revert ws. induction n as [|n IH]; intros ws; simpl.
  - split; [lia|]. split; [left; lia|]. split; [auto|]. split; [auto|reflexivity].
  - destruct (split_once margin ws) as [ws'|] eqn:E.
    + destruct (IH ws') as (Hlen & Hstop & Hdiag & Hprop & Hm).
      pose proof (split_once_length _ _ _ E) as Hl.
      split; [lia|]. split; [destruct Hstop as [Hs|Hs]; [left; lia|right; exact Hs]|].
      split.
      { intros w Hw Hd. apply Hdiag; [|exact Hd]. eapply split_once_keeps_diagonal; eassumption. }
      split.
      { intros Hp. apply Hprop. eapply split_once_proper; eassumption. }
      intros margin'. rewrite (split_once_margin margin' margin), E. apply Hm.
    + split; [lia|]. split; [right; exact E|]. split; [auto|]. split; [auto|].
      intros margin'. rewrite (split_once_margin margin' margin), E. reflexivity.
Qed.

Lemma findConnections_endpoints_first (l1 l2 : (Z * Z) * (Z * Z)) :
  (exists a b, (a = l1.1 \/ a = l1.2) /\ (b = l2.1 \/ b = l2.2) /\ pointDistance a b <= 5) ->
  (_findConnections l1 l2 5).1.1 <> 2 /\ (_findConnections l1 l2 5).1.2 <> 2.
Proof.
  intros (a & b & Ha & Hb & Hd). unfold _findConnections.
  destruct (first_point_connection l1 l2 5) as [[c1 c2]|] eqn:E.
  { apply first_point_connection_some in E. simpl in *. lia. }
  exfalso. apply first_point_connection_none in E as (D00 & D01 & D10 & D11).
  destruct Ha as [-> | ->], Hb as [-> | ->]; lia.
Qed.

Lemma pointDistance_sym (a b : Z * Z) : pointDistance a b = pointDistance b a.
Proof. unfold pointDistance. lia. Qed.

(** X10. For two axis-aligned segments of non-zero length, [find_connections]
    reports code 2 for a segment only with a point that lies on that
    segment more than 5 away from its ends and on the line of the other
    one, at most 5 beyond its ends. It never reports code 2 for two
    parallel segments, nor when an end of one is within 5 of an end of
    the other; and its result is the same for every [gap]. *)
Theorem find_connections_reports_junctions (l1 l2 : (Z * Z) * (Z * Z)) (gap : Q) :
  horizontal l1 \/ vertical l1 -> horizontal l2 \/ vertical l2 ->
  let r := find_connections l1 l2 gap in
  (r.1.1 = 2 -> strictly_inside l1 r.2 /\ reaches l2 r.2)
  /\ (r.1.2 = 2 -> strictly_inside l2 r.2 /\ reaches l1 r.2)
  /\ ((horizontal l1 /\ horizontal l2) \/ (vertical l1 /\ vertical l2) ->
      r.1.1 <> 2 /\ r.1.2 <> 2)
  /\ ((exists a b, (a = l1.1 \/ a = l1.2) /\ (b = l2.1 \/ b = l2.2) /\ pointDistance a b <= 5) ->
      r.1.1 <> 2 /\ r.1.2 <> 2)
  /\ forall gap', find_connections l1 l2 gap' = r.
Proof.
  intros H1 H2 r.
  destruct (find_connections_junction l1 l2 gap H1 H2) as [Ha Hb]. fold r in Ha, Hb.
  split; [exact Ha|]. split; [exact Hb|].
  assert (Hswap : forall t : Z * Z * (Z * Z),
            t.1.1 <> 2 /\ t.1.2 <> 2 ->
            (let '(c, p) := t in ((c.2, c.1), p)).1.1 <> 2
            /\ (let '(c, p) := t in ((c.2, c.1), p)).1.2 <> 2).
  { intros [[c1 c2] p]. simpl. tauto. }
  split; [|split; [|reflexivity]].
  - intros Hpar. subst r. unfold find_connections.
    destruct (Z.eqb_spec l1.1.1 l1.2.1) as [Hx|Hx].
    + apply Hswap. apply findConnections_parallel.
      destruct Hpar as [[[_ Hh] _]|[Hv1 Hv2]]; [contradiction|right; split; assumption].
    + apply findConnections_parallel.
      destruct Hpar as [[Hh1 Hh2]|[[Hv _] _]]; [left; split; assumption|contradiction].
  - intros (a & b & Hea & Heb & Hd). subst r. unfold find_connections.
    destruct (l1.1.1 =? l1.2.1).
    + apply Hswap. apply findConnections_endpoints_first.
      exists b, a. rewrite pointDistance_sym. repeat split; assumption.
    + apply findConnections_endpoints_first. exists a, b. repeat split; assumption.
Qed.

(** The segments (0,0)-(100,0) and (50,3)-(50,100). *)
Lemma find_connections_reports_junctions_witness :
  let l1 := ((0, 0), (100, 0)) in
  let l2 := ((50, 3), (50, 100)) in
  let r := find_connections l1 l2 10 in
  (r.1.1 = 2 -> strictly_inside l1 r.2 /\ reaches l2 r.2)
  /\ (r.1.2 = 2 -> strictly_inside l2 r.2 /\ reaches l1 r.2)
  /\ ((horizontal l1 /\ horizontal l2) \/ (vertical l1 /\ vertical l2) ->
      r.1.1 <> 2 /\ r.1.2 <> 2)
  /\ ((exists a b, (a = l1.1 \/ a = l1.2) /\ (b = l2.1 \/ b = l2.2) /\ pointDistance a b <= 5) ->
      r.1.1 <> 2 /\ r.1.2 <> 2)
  /\ forall gap', find_connections l1 l2 gap' = r.
Proof.
  intros l1 l2.
  apply (find_connections_reports_junctions l1 l2 10).
  - left. split; [reflexivity|discriminate].
  - right. split; [reflexivity|discriminate].
Defined.

(** X11. [split_source_walls] never removes a wall and adds at most one wall per
    permitted iteration; when it adds fewer than permitted, one more pass
    over its result would split nothing. Walls that are not axis-aligned
    stay in the list, axis-aligned walls of non-zero length are split into
    such walls only, the result depends on the configuration through the
    iteration limit alone, and every other field of the house is kept. *)
Theorem split_source_walls_bounds (conf : Conf.t) (h : House.t) :
  let h' := split_source_walls conf h in
  let n := Conf.split_walls_max_iter conf in
  (length (House.walls h) <= length (House.walls h') <= length (House.walls h) + n)%nat
  /\ (length (House.walls h') = (length (House.walls h) + n)%nat
      \/ split_once (Conf.wall_join_margin conf) (House.walls h') = None)
  /\ (forall w, w ∈ House.walls h -> is_manhattan w = false -> w ∈ House.walls h')
  /\ (Forall proper (House.walls h) -> Forall proper (House.walls h'))
  /\ (forall conf', Conf.split_walls_max_iter conf' = n ->
                    split_source_walls conf' h = h')
  /\ House.file_name h' = House.file_name h
  /\ House.openings h' = House.openings h
  /\ House.wall_graph h' = House.wall_graph h
  /\ House.ordered_rooms h' = House.ordered_rooms h
  /\ House.room_description_map h' = House.room_description_map h
  /\ House.rdr h' = House.rdr h.
Proof.
  intros h' n. subst h'. unfold split_source_walls. simpl.
  destruct (split_loop_bounds (Conf.wall_join_margin conf) n (House.walls h))
    as (Hlen & Hstop & Hdiag & Hprop & Hm).
  split; [exact Hlen|]. split; [exact Hstop|]. split; [exact Hdiag|]. split; [exact Hprop|].
  split; [|repeat split].
  intros conf' Hn. rewrite Hn. fold n. rewrite (Hm (Conf.wall_join_margin conf')). reflexivity.
Qed.

(* --------------------------------------------------------------------- *)
(** ** Wall straightener: the outcome *)

Lemma sq_distance_zero (a b : Z * Z) :
  Qeq_bool (radicand (sq_distance a b)) 0 = true <-> a = b.
Proof.
  destruct a as [ax ay], b as [bx by_]. unfold sq_distance. simpl.
  rewrite Qeq_bool_iff. unfold Qeq. simpl. rewrite Z.mul_1_r. split.
  - intros H.
    pose proof (Z.square_nonneg (ax - bx)) as H1. pose proof (Z.square_nonneg (ay - by_)) as H2.
    assert (Hx : (ax - bx) * (ax - bx) = 0) by lia.
    assert (Hy : (ay - by_) * (ay - by_) = 0) by lia.
    apply Z.mul_eq_0 in Hx, Hy. f_equal; lia.
  - intros H. injection H as -> ->. lia.
Qed.

Lemma slope_in_cutoff_spec (cutoff : Q) (d : Z) (a b : Z * Z) :
  match slope_in_cutoff d a b cutoff with
  | Raise e => a = b /\ e = ZeroDivisionError
  | Ok false => a <> b /\ not_inclined cutoff d a b
  | Ok true => a <> b /\ ~ not_inclined cutoff d a b
  end.
Proof.
  unfold slope_in_cutoff, Root.div.
  destruct (Qeq_bool (radicand (sq_distance a b)) 0) eqn:E; simpl.
  { split; [apply sq_distance_zero; exact E|reflexivity]. }
  assert (Hab : a <> b).
  { intros Heq. apply sq_distance_zero in Heq. congruence. }
  unfold Root.pos, Root.lt_Q, Root.of_abs, not_inclined. simpl.
  set (L := inject_Z ((a.1 - b.1) * (a.1 - b.1) + (a.2 - b.2) * (a.2 - b.2))) in *.
  assert (HL : (0 < L)%Q).
  { apply Qeq_bool_neq in E. subst L. unfold sq_distance in *. simpl in *.
    assert (0 <= inject_Z ((a.1 - b.1) * (a.1 - b.1) + (a.2 - b.2) * (a.2 - b.2)))%Q.
    { rewrite <- (Zle_Qle 0).
      pose proof (Z.square_nonneg (a.1 - b.1)). pose proof (Z.square_nonneg (a.2 - b.2)). lia. }
    apply Qle_lteq in H as [H|H]; [exact H|]. exfalso. apply E. symmetry. exact H. }
  assert (Hpos : Qlt_bool 0 (inject_Z (d * d) / L) = true <-> d <> 0).
  { rewrite Qlt_bool_iff. split.
    - intros H ->. simpl in H. unfold Qdiv in H. rewrite Qmult_0_l in H.
      apply Qlt_irrefl in H. exact H.
    - intros Hd. apply Qlt_shift_div_l; [exact HL|]. rewrite Qmult_0_l.
      rewrite <- (Zlt_Qlt 0).
      pose proof (Z.square_nonneg d) as Hsq.
      assert (d * d <> 0) by (intros H0; apply Z.mul_eq_0 in H0; lia). lia. }
  assert (Hlt : Qlt_bool (inject_Z (d * d) / L) (cutoff * cutoff) = true
                <-> (inject_Z (d * d) < cutoff * cutoff * L)%Q).
  { rewrite Qlt_bool_iff. split.
    - intros H. apply (Qmult_lt_r _ _ L HL) in H.
      unfold Qdiv in H. rewrite <- Qmult_assoc, (Qmult_comm (/ L)), Qmult_inv_r, Qmult_1_r in H;
        [exact H|]. intros H0. rewrite H0 in HL. apply Qlt_irrefl in HL. exact HL.
    - intros H. apply Qlt_shift_div_r; assumption. }
  destruct (Qlt_bool 0 (inject_Z (d * d) / L)); simpl.
  - assert (Hd : d <> 0) by (apply Hpos; reflexivity).
    destruct (Qlt_bool 0 cutoff) eqn:E2; simpl.
    + apply Qlt_bool_iff in E2.
      destruct (Qlt_bool (inject_Z (d * d) / L) (cutoff * cutoff)); simpl.
      * assert (E3 : (inject_Z (d * d) < cutoff * cutoff * L)%Q) by (apply Hlt; reflexivity).
        split; [exact Hab|]. intros [H|[H|H]].
        -- contradiction.
        -- apply (Qlt_not_le _ _ E2 H).
        -- apply (Qlt_not_le _ _ E3 H).
      * split; [exact Hab|]. right. right. apply Qnot_lt_le. intros H.
        apply Hlt in H. discriminate H.
    + split; [exact Hab|]. right. left. apply Qnot_lt_le. intros H.
      apply Qlt_bool_iff in H. congruence.
  - split; [exact Hab|]. left. destruct (Z.eq_dec d 0) as [Hd|Hd]; [exact Hd|].
    apply Hpos in Hd. discriminate Hd.
Qed.

Lemma find_inclined_none (g : WallLinkageGraph) (cutoff : Q) (ws : list nat) :
  find_inclined g cutoff ws = Ok None -> Forall (settled g cutoff) ws.
Proof.
  induction ws as [|w ws IH]; simpl; [constructor|].
  set (a := pos_of g (Wall.p1 (wall g w))). set (b := pos_of g (Wall.p2 (wall g w))).
  pose proof (slope_in_cutoff_spec cutoff (a.1 - b.1) a b) as Hx.
  pose proof (slope_in_cutoff_spec cutoff (a.2 - b.2) a b) as Hy.
  destruct (slope_in_cutoff (a.1 - b.1) a b cutoff) as [[|]|e]; simpl; try discriminate.
  destruct (slope_in_cutoff (a.2 - b.2) a b cutoff) as [[|]|e]; simpl; try discriminate.
  intros H. constructor; [|apply IH, H].
  unfold settled. fold a b. destruct Hx as [Hab Hx], Hy as [_ Hy]. repeat split; assumption.
Qed.

Lemma straighten_iteration_false (cutoff : Q) (g g' : WallLinkageGraph) :
  straighten_iteration cutoff g = (g', Ok false) ->
  g' = g /\ find_inclined g cutoff (seq 0 (length (walls g))) = Ok None.
Proof.
  unfold straighten_iteration.
  destruct (find_inclined g cutoff _) as [[w|]|e] eqn:E.
  - destruct (slope_in_cutoff _ _ _ _) as [x|e]; [|intros H; discriminate H].
    destruct (correction g w x) as [c p].
    destruct (dict_del _ _) as [d|e]; intros H; discriminate H.
  - intros H. injection H as <-. split; reflexivity.
  - intros H. discriminate H.
Qed.

Lemma straighten_loop_outcome (cutoff : Q) (path : string) (fuel : nat) :
  forall (i : nat) (g g' : WallLinkageGraph),
    straighten_loop cutoff path fuel i g = (g', Ok tt) ->
    exists k, (k <= fuel)%nat /\ corrections cutoff k g g'
              /\ (k = fuel \/ find_inclined g' cutoff (seq 0 (length (walls g'))) = Ok None).
Proof.
  induction fuel as [|fuel IH]; intros i g g'; simpl.
  - intros H. injection H as <-. exists 0%nat. split; [lia|]. split; [constructor|left; reflexivity].
  - destruct (straighten_iteration cutoff g) as [g1 [[|]|e]] eqn:E.
    + intros H. destruct (IH _ _ _ H) as (k & Hk & Hc & Hend).
      exists (S k). split; [lia|]. split; [econstructor; eassumption|].
      destruct Hend as [->|Hend]; [left; reflexivity|right; exact Hend].
    + intros H. injection H as <-. apply straighten_iteration_false in E as [-> Hnone].
      exists 0%nat. split; [lia|]. split; [constructor|right; exact Hnone].
    + intros H. discriminate H.
Qed.

(** X12. When [straighten_walls] returns normally, the resulting graph is the
    input graph after some number [k] of corrections, at most [max_iter];
    and either [k] is [max_iter], or every wall of the result has two
    different ends and no slope strictly between 0 and the cutoff on
    either axis. *)
Theorem straighten_walls_outcome (conf : Conf.t) (h h' : House.t) :
  straighten_walls conf h = (h', Ok tt) ->
  let cutoff := Conf.straighten_walls_cutoff_gradient conf in
  let g' := House.wall_graph h' in
  exists k,
    (k <= Conf.straighten_walls_max_iter conf)%nat
    /\ corrections cutoff k (House.wall_graph h) g'
    /\ (k = Conf.straighten_walls_max_iter conf
        \/ forall w, (w < length (walls g'))%nat -> settled g' cutoff w).
Proof.
  unfold straighten_walls.
  destruct (straighten_loop _ _ _ _ _) as [g' r] eqn:E.
  intros H. injection H as <- ->. simpl.
  destruct (straighten_loop_outcome _ _ _ _ _ _ E) as (k & Hk & Hc & Hend).
  exists k. split; [exact Hk|]. split; [exact Hc|].
  destruct Hend as [->|Hend]; [left; reflexivity|right].
  apply find_inclined_none in Hend. rewrite Forall_forall in Hend.
  intros w Hw. apply Hend. apply list_elem_of_In, in_seq. lia.
Qed.

(** The wall (0,0)-(1,100) with cutoff 1/10. *)
Lemma straighten_walls_outcome_witness :
  let conf := Examples.conf (1 # 2) in
  let h := Examples.house_of_graph Examples.leaning_wall in
  let g' := House.wall_graph (straighten_walls conf h).1 in
  exists k,
    (k <= 100)%nat
    /\ corrections (1 # 10) k Examples.leaning_wall g'
    /\ (k = 100%nat \/ forall w, (w < length (walls g'))%nat -> settled g' (1 # 10) w).
Proof.
  intros conf h g'.
  apply (straighten_walls_outcome conf h (straighten_walls conf h).1).
  vm_compute. reflexivity.
Defined.

(* --------------------------------------------------------------------- *)
(** ** RDR edges and opening matches *)

(* ---------------- RDR ---------------- *)

Lemma elem_of_concat_imap {A B : Type} (f : nat -> A -> list B) (l : list A) (b : B) :
  b ∈ concat (imap f l) <-> exists i x, l !! i = Some x /\ b ∈ f i x.
Proof.
  split.
  - intros H. apply list_elem_of_In, in_concat in H as (bs & Hbs & Hb).
    apply list_elem_of_In, elem_of_lookup_imap in Hbs as (i & x & -> & Hx).
    exists i, x. split; [exact Hx|]. apply list_elem_of_In. exact Hb.
  - intros (i & x & Hx & Hb). apply list_elem_of_In, in_concat.
    exists (f i x). split; [|apply list_elem_of_In; exact Hb].
    apply list_elem_of_In, elem_of_lookup_imap. exists i, x. split; [reflexivity|exact Hx].
Qed.

(** X13. [compute_rdr] appends to the edge list and removes nothing. Every
    appended edge [(a, hole, b)] refers to a hole of type door of a wall of
    the graph; [a] is a room key that contains that wall; [b], when
    present, is a room key that contains it as well and the reversed edge
    is appended too; when [b] is absent, [a] is the only room key that
    contains the wall. *)
Theorem compute_rdr_appends_door_edges (h : House.t) :
  let keys := Dict.keys (House.room_description_map h) in
  exists new,
    House.rdr (compute_rdr h) = House.rdr h ++ new
    /\ forall (a : gset nat) (w i : nat) (b : option (gset nat)),
         (a, (w, i), b) ∈ new ->
         (exists wl hole, walls (House.wall_graph h) !! w = Some wl
                          /\ Wall.holes wl !! i = Some hole
                          /\ Hole.type hole = Some "door"%string)
         /\ a ∈ keys /\ w ∈ a
         /\ match b with
            | Some b' => b' ∈ keys /\ w ∈ b' /\ (b', (w, i), Some a) ∈ new
            | None => forall k, k ∈ keys -> w ∈ k -> k = a
            end.
Proof.
  intros keys. eexists. split; [reflexivity|].
  intros a w i b Hin.
  apply elem_of_concat_imap in Hin as (w' & wl & Hwl & Hin).
  apply elem_of_concat_imap in Hin as (i' & hole & Hhole & Hin).
  pose proof (rdr_edges_of_hole_ref _ _ _ _ _ Hin) as Href. simpl in Href.
  injection Href as <- <-.
  assert (Hback : forall e, e ∈ rdr_edges_of_hole h w i hole ->
            e ∈ concat (imap (rdr_edges_of_wall h) (walls (House.wall_graph h)))).
  { intros e He. apply elem_of_concat_imap. exists w, wl. split; [exact Hwl|].
    apply elem_of_concat_imap. exists i, hole. split; [exact Hhole|exact He]. }
  revert Hin Hback. unfold rdr_edges_of_hole.
  case_bool_decide as Hdoor; [|intros Hin; inversion Hin].
  assert (Hkey : forall k, k ∈ _find_adjacent_rooms h w ->
                            k ∈ keys /\ w ∈ k /\ hash_kept h w).
  { intros k Hk. unfold _find_adjacent_rooms in Hk. apply list_elem_of_filter in Hk as [Hw ?].
    apply wall_in_room_key_spec in Hw as [? ?]. repeat split; assumption. }
  assert (Hall : forall k, hash_kept h w -> k ∈ keys -> w ∈ k ->
                           k ∈ _find_adjacent_rooms h w).
  { intros k Hkept Hk Hw. unfold _find_adjacent_rooms. apply list_elem_of_filter.
    split; [apply wall_in_room_key_spec; split; assumption|exact Hk]. }
  destruct (_find_adjacent_rooms h w) as [|x [|y [|z l]]]; intros Hin Hback.
  - inversion Hin.
  - apply list_elem_of_singleton in Hin. injection Hin as -> ->.
    destruct (Hkey x) as (Hx & Hwx & Hkept); [left|].
    split; [exists wl, hole; repeat split; assumption|]. split; [exact Hx|]. split; [exact Hwx|].
    intros k Hk Hw. apply (Hall k Hkept Hk) in Hw. apply list_elem_of_singleton in Hw. exact Hw.
  - destruct (Hkey x) as (Hx & Hwx & _); [left|].
    destruct (Hkey y) as (Hy & Hwy & _); [right; left|].
    split; [exists wl, hole; repeat split; assumption|].
    apply elem_of_cons in Hin as [Hin|Hin].
    + injection Hin as -> ->. split; [exact Hx|]. split; [exact Hwx|].
      split; [exact Hy|]. split; [exact Hwy|]. apply Hback. right. left.
    + apply list_elem_of_singleton in Hin. injection Hin as -> ->.
      split; [exact Hy|]. split; [exact Hwy|].
      split; [exact Hx|]. split; [exact Hwx|]. apply Hback. left.
  - inversion Hin.
Qed.

(* ---------------- line_contains_check ---------------- *)

Lemma Root_ltb_irrefl (a b : Root) : radicand a = radicand b -> Root.ltb a b = false.
Proof.
  intros H. unfold Root.ltb, Qlt_bool. rewrite H. apply negb_false_iff.
  apply Qle_bool_iff. apply Qle_refl.
Qed.

Lemma Root_ltb_asym (a b : Root) : Root.ltb a b = true -> Root.ltb b a = false.
Proof.
  unfold Root.ltb. intros H. apply Qlt_bool_iff in H.
  unfold Qlt_bool. apply negb_false_iff, Qle_bool_iff, Qlt_le_weak, H.
Qed.

(** X14. [line_contains_check] returns either [(False, None)] or [(True, pd)];
    in the second case the offset [pd] is at most the margin, the margin
    is not negative, and neither the opening nor the wall has coincident
    ends. *)
Theorem line_contains_check_matches (g : WallLinkageGraph) (parent : nat)
    (child : LineSegment.t) (pd_margin : Q) :
  match line_contains_check g parent child pd_margin with
  | (true, Some pd) =>
      Root.gt_Q pd pd_margin = false
      /\ (0 <= pd_margin)%Q
      /\ LineSegment.p1 child <> LineSegment.p2 child
      /\ pos_of g (Wall.p1 (wall g parent)) <> pos_of g (Wall.p2 (wall g parent))
  | (false, None) => True
  | _ => False
  end.
Proof.
  unfold line_contains_check.
  set (pp1 := pos_of g (Wall.p1 (wall g parent))).
  set (pp2 := pos_of g (Wall.p2 (wall g parent))).
  set (c1 := LineSegment.p1 child). set (c2 := LineSegment.p2 child).
  destruct (if 0 <? Z.abs (pp2.1 - pp1.1) then _ else _) as [pd1 pd2].
  destruct (Root.gt_Q pd1 pd_margin) eqn:G1; [exact I|].
  destruct (Root.gt_Q pd2 pd_margin) eqn:G2; [exact I|].
  assert (Hmin : Root.gt_Q (Root.min pd1 pd2) pd_margin = false).
  { unfold Root.min. destruct (Root.ltb pd2 pd1); assumption. }
  assert (Hmargin : (0 <= pd_margin)%Q).
  { unfold Root.gt_Q in G1. apply orb_false_iff in G1 as [G1 _].
    apply Qnot_lt_le. intros H. apply Qlt_bool_iff in H. congruence. }
  assert (Hgoal : forall x y x' y',
            Root.ltb (sq_distance pp1 x) (sq_distance pp1 y)
            && Root.ltb (sq_distance pp2 x') (sq_distance pp2 y') = true ->
            x = c1 /\ y = c2 /\ x' = c2 /\ y' = c1 \/ x = c2 /\ y = c1 /\ x' = c1 /\ y' = c2 ->
            Root.gt_Q (Root.min pd1 pd2) pd_margin = false
            /\ (0 <= pd_margin)%Q /\ c1 <> c2 /\ pp1 <> pp2).
  { intros x y x' y' Hc Hxy. apply andb_true_iff in Hc as [Ha Hb].
    split; [exact Hmin|]. split; [exact Hmargin|]. split.
    - intros Heq. rewrite Root_ltb_irrefl in Ha; [discriminate Ha|].
      destruct Hxy as [(-> & -> & _)|(-> & -> & _)]; rewrite Heq; reflexivity.
    - intros Heq. rewrite Heq in Ha.
      destruct Hxy as [(-> & -> & -> & ->)|(-> & -> & -> & ->)];
        apply Root_ltb_asym in Ha; congruence. }
  destruct (Root.ltb (sq_distance pp1 c1) (sq_distance pp1 c2)
            && Root.ltb (sq_distance pp2 c2) (sq_distance pp2 c1)) eqn:C1.
  { eapply Hgoal; [exact C1|left; repeat split]. }
  destruct (Root.ltb (sq_distance pp1 c2) (sq_distance pp1 c1)
            && Root.ltb (sq_distance pp2 c1) (sq_distance pp2 c2)) eqn:C2; [|exact I].
  eapply Hgoal; [exact C2|right; repeat split].
Qed.

Lemma line_contains_check_shape g w door margin :
  (exists pd, line_contains_check g w door margin = (true, Some pd))
  \/ line_contains_check g w door margin = (false, None).
Proof.
  unfold line_contains_check.
  destruct (if 0 <? Z.abs _ then _ else _) as [pd1 pd2].
  destruct (Root.gt_Q pd1 margin); [right; reflexivity|].
  destruct (Root.gt_Q pd2 margin); [right; reflexivity|].
  destruct (Root.ltb _ _ && Root.ltb _ _); [left; eexists; reflexivity|].
  destruct (Root.ltb _ _ && Root.ltb _ _); [left; eexists; reflexivity|right; reflexivity].
Qed.

Lemma wall_door_pairs_iff (g : WallLinkageGraph) (margin : Q)
    (doors : list LineSegment.t) (pd : Root) (d w : nat) :
  (pd, d, w) ∈ wall_door_pairs g margin doors
  <-> exists door, doors !! d = Some door /\ (w < length (walls g))%nat
                   /\ line_contains_check g w door margin = (true, Some pd).
Proof.
  unfold wall_door_pairs. split.
  - intros H. apply list_elem_of_In, in_concat in H as (ps & Hps & Hp).
    apply list_elem_of_In, elem_of_lookup_imap in Hps as (d' & door & -> & Hdoor).
    apply list_elem_of_In, list_elem_of_omap in Hp as (w' & Hw' & Hsome).
    destruct (line_contains_check g w' door margin) as [[|] [pd'|]] eqn:E; try discriminate.
    injection Hsome as <- <- <-. exists door. split; [exact Hdoor|].
    apply list_elem_of_In, in_seq in Hw'. split; [lia|exact E].
  - intros (door & Hdoor & Hw & E). apply list_elem_of_In, in_concat.
    eexists. split.
    + apply list_elem_of_In, elem_of_lookup_imap. exists d, door. split; [reflexivity|exact Hdoor].
    + apply list_elem_of_In, list_elem_of_omap. exists w. split.
      * apply list_elem_of_In, in_seq. lia.
      * rewrite E. reflexivity.
Qed.

Lemma length_concat_alter_snoc {A B : Type} (f : A -> list B) (u : A -> A) (x : B)
    (l : list A) (i : nat) :
  (forall a, f (u a) = f a ++ [x]) ->
  (i < length l)%nat ->
  length (concat (map f (alter u i l))) = S (length (concat (map f l))).
Proof.
  intros Hu. revert i. induction l as [|a l IH]; intros i Hi; [simpl in Hi; lia|].
  destruct i as [|i].
  - change (alter u 0%nat (a :: l)) with (u a :: l). cbn [map concat].
    rewrite !length_app, Hu, length_app. simpl. lia.
  - change (alter u (S i) (a :: l)) with (a :: alter u i l). cbn [map concat].
    simpl in Hi. rewrite !length_app, IH by lia. lia.
Qed.

Lemma holes_count_holes_append (g : WallLinkageGraph) (w : nat) (nd : Hole.t) :
  (w < length (walls g))%nat ->
  holes_count (holes_append g w nd) = S (holes_count g)
  /\ length (walls (holes_append g w nd)) = length (walls g).
Proof.
  intros Hw. unfold holes_count, holes_append. simpl. split.
  - apply (length_concat_alter_snoc Wall.holes _ nd); [reflexivity|exact Hw].
  - apply length_alter.
Qed.

Lemma add_doors_loop_count (doors : list LineSegment.t) (n : nat)
    (pairs : list (Root * nat * nat)) :
  (forall pd d w, (pd, d, w) ∈ pairs -> (w < n)%nat) ->
  forall (g : WallLinkageGraph) (ran : Random.t) (added : list nat),
    length (walls g) = n -> NoDup added ->
    exists (added' : list nat) (k : nat),
      NoDup added'
      /\ (forall d, d ∈ added' <-> d ∈ added \/ exists pd w, (pd, d, w) ∈ pairs)
      /\ length added' = (length added + k)%nat
      /\ Random.draws (add_doors_loop g ran doors pairs added).2 = Random.draws ran
      /\ Random.calls (add_doors_loop g ran doors pairs added).2 = (Random.calls ran + k)%nat
      /\ holes_count (add_doors_loop g ran doors pairs added).1 = (holes_count g + k)%nat.
Proof.
  induction pairs as [|[[pd d] w] pairs IH]; intros Hpairs g ran added Hlen Hnd.
  - exists added, 0%nat. simpl. split; [exact Hnd|]. split.
    { intros d. split; [auto|]. intros [H|(pd & w & H)]; [exact H|inversion H]. }
    repeat split; lia.
  - assert (Hrest : forall pd d w, (pd, d, w) ∈ pairs -> (w < n)%nat)
      by (intros pd' d' w' H; apply (Hpairs pd' d' w'); right; exact H).
    assert (Hw : (w < n)%nat) by (apply (Hpairs pd d w); left).
    simpl. case_bool_decide as Hadded.
    + destruct (IH Hrest g ran added Hlen Hnd) as (added' & k & Hnd' & Hiff & Hrest').
      exists added', k. split; [exact Hnd'|]. split; [|exact Hrest'].
      intros d'. rewrite Hiff. split.
      * intros [H|(pd' & w' & H)]; [left; exact H|right; exists pd', w'; right; exact H].
      * intros [H|(pd' & w' & H)]; [left; exact H|].
        apply elem_of_cons in H as [H|H]; [injection H as _ -> _; left; exact Hadded|].
        right. exists pd', w'. exact H.
    + destruct (get_closest_and_furthest _ _ _) as [min_point max_point].
      unfold Hole_init, generate_hole_id, Random.randint.
      set (nd := Hole.mk _ _ None _).
      set (ran1 := Random.mk (Random.draws ran) (S (Random.calls ran))).
      destruct (holes_count_holes_append g w nd) as [Hc Hl]; [lia|].
      destruct (IH Hrest (holes_append g w nd) ran1 (added ++ [d])) as
        (added' & k & Hnd' & Hiff & Hlen' & Hdraws & Hcalls & Hcount).
      * lia.
      * apply NoDup_app. split; [exact Hnd|]. split; [|apply NoDup_singleton].
        intros x Hx Hx'. apply list_elem_of_singleton in Hx' as ->. contradiction.
      * exists added', (S k). split; [exact Hnd'|]. split.
        { intros d'. rewrite Hiff, elem_of_app, list_elem_of_singleton. split.
          - intros [[H| ->]|(pd' & w' & H)].
            + left. exact H.
            + right. exists pd, w. left.
            + right. exists pd', w'. right. exact H.
          - intros [H|(pd' & w' & H)]; [left; left; exact H|].
            apply elem_of_cons in H as [H|H]; [injection H as _ -> _; left; right; reflexivity|].
            right. exists pd', w'. exact H. }
        rewrite length_app in Hlen'. simpl in *.
        split; [lia|]. split; [exact Hdraws|]. split; [lia|]. lia.
Qed.

Lemma length_filter_indices {A : Type} (f : A -> bool) (dflt : A) (l : list A) :
  forall (added : list nat),
    NoDup added ->
    (forall d, d ∈ added <-> (d < length l)%nat /\ f (nth d l dflt) = true) ->
    length added = length (List.filter f l).
Proof.
  induction l as [|a l IH]; intros added Hnd Hiff.
  - destruct added as [|d added]; [reflexivity|].
    exfalso. destruct (proj1 (Hiff d)) as [H _]; [left|]. simpl in H. lia.
  - simpl. set (added1 := omap (fun d => match d with O => None | S d' => Some d' end) added).
    assert (Hin1 : forall d, d ∈ added1 <-> S d ∈ added).
    { intros d. subst added1. rewrite list_elem_of_omap. split.
      - intros ([|x] & Hx & Hsome); [discriminate|]. injection Hsome as ->. exact Hx.
      - intros H. exists (S d). split; [exact H|reflexivity]. }
    assert (Hnd1 : NoDup added1).
    { subst added1. clear Hiff Hin1. induction added as [|[|x] added IHa]; simpl.
      - constructor.
      - apply NoDup_cons in Hnd as [_ Hnd]. apply IHa, Hnd.
      - apply NoDup_cons in Hnd as [Hx Hnd]. constructor; [|apply IHa, Hnd].
        rewrite list_elem_of_omap. intros ([|y] & Hy & Hsome); [discriminate|].
        injection Hsome as ->. contradiction. }
    assert (Hlen1 : length added1 = length (List.filter f l)).
    { apply IH; [exact Hnd1|]. intros d. rewrite Hin1, Hiff. simpl. split.
      - intros [H1 H2]. split; [lia|exact H2].
      - intros [H1 H2]. split; [lia|exact H2]. }
    assert (Hsplit : length added = ((if f a then 1 else 0) + length added1)%nat).
    { assert (H0 : 0%nat ∈ added <-> f a = true).
      { rewrite Hiff. simpl. split; [intros [_ H]; exact H|intros H; split; [lia|exact H]]. }
      clear Hiff Hin1 Hnd1 Hlen1 IH. subst added1.
      set (pred := fun d : nat => match d with O => None | S d' => Some d' end).
      revert H0. generalize (f a).
      induction added as [|[|x] added IHa]; intros b H0.
      - destruct b; [|reflexivity]. exfalso.
        assert (H : 0%nat ∈ []) by (apply H0; reflexivity). inversion H.
      - apply NoDup_cons in Hnd as [Hx Hnd].
        assert (Hb : b = true) by (apply H0; left). subst b.
        change (omap pred (0%nat :: added)) with (omap pred added).
        cbn [length]. rewrite (IHa Hnd false); [reflexivity|].
        split; [intros H; contradiction|discriminate].
      - apply NoDup_cons in Hnd as [Hx Hnd].
        change (omap pred (S x :: added)) with (x :: omap pred added).
        cbn [length]. rewrite (IHa Hnd b); [lia|].
        rewrite <- H0. split; [intros H; right; exact H|].
        intros H. apply elem_of_cons in H as [H|H]; [discriminate|exact H]. }
    rewrite Hsplit, Hlen1. destruct (f a); reflexivity.
Qed.

(** X15. Opening assignment adds exactly one hole for each opening that some
    wall contains, and draws exactly one random number for each such hole;
    an opening that no wall contains is dropped without an error. *)
Theorem add_doors_one_hole_per_matched_opening (conf : Conf.t) (h : House.t)
    (g : WallLinkageGraph) (ran : Random.t) :
  let margin := Conf.max_door_perpendicular_offset conf in
  let k := length (List.filter (matched g margin) (w_doors h)) in
  let r := add_doors conf h g ran in
  holes_count r.1 = (holes_count g + k)%nat
  /\ Random.calls r.2 = (Random.calls ran + k)%nat
  /\ Random.draws r.2 = Random.draws ran
  /\ (k <= length (House.openings h))%nat.
Proof.
  intros margin k r. subst r. unfold add_doors. fold margin.
  set (pairs := sorted Root.leb (fun x => x.1.1) (wall_door_pairs g margin (w_doors h))).
  assert (Hpairs : forall pd d w, (pd, d, w) ∈ pairs <->
            exists door, w_doors h !! d = Some door /\ (w < length (walls g))%nat
                         /\ line_contains_check g w door margin = (true, Some pd)).
  { intros pd d w. subst pairs. rewrite elem_of_sorted. apply wall_door_pairs_iff. }
  destruct (add_doors_loop_count (w_doors h) (length (walls g)) pairs) with
    (g := g) (ran := ran) (added := @nil nat)
    as (added' & k' & Hnd & Hiff & Hlen & Hdraws & Hcalls & Hcount).
  - intros pd d w H. apply Hpairs in H as (_ & _ & Hw & _). exact Hw.
  - reflexivity.
  - constructor.
  - assert (Hk : k' = k).
    { simpl in Hlen. rewrite <- Hlen. subst k.
      apply (length_filter_indices _ (LineSegment.mk (0, 0) (0, 0))); [exact Hnd|].
      intros d. rewrite Hiff. split.
      - intros [H|(pd & w & H)]; [inversion H|].
        apply Hpairs in H as (door & Hdoor & Hw & E).
        split; [eapply lookup_lt_Some; exact Hdoor|].
        rewrite (nth_lookup_Some _ _ _ _ Hdoor). unfold matched.
        apply existsb_exists. exists w. split; [apply in_seq; lia|]. rewrite E. reflexivity.
      - intros [Hd Hm]. right. unfold matched in Hm.
        apply existsb_exists in Hm as (w & Hw & Hm). apply in_seq in Hw.
        destruct (lookup_lt_is_Some_2 _ _ Hd) as [door Hdoor].
        rewrite (nth_lookup_Some _ _ _ _ Hdoor) in Hm.
        destruct (line_contains_check_shape g w door margin) as [[pd E]|E];
          [|rewrite E in Hm; discriminate Hm].
        exists pd, w. apply Hpairs. exists door. split; [exact Hdoor|]. split; [lia|exact E]. }
    subst k'. split; [exact Hcount|]. split; [exact Hcalls|]. split; [exact Hdraws|].
    subst k. etransitivity; [apply filter_length_le|].
    unfold w_doors. rewrite length_map. reflexivity.
Qed.

Lemma Root_leb_total (a b : Root) : Root.leb a b = true \/ Root.leb b a = true.
Proof. apply Qle_bool_total. Qed.

Lemma Root_leb_trans (a b c : Root) :
  Root.leb a b = true -> Root.leb b c = true -> Root.leb a c = true.
Proof. apply Qle_bool_trans. Qed.

Lemma add_doors_loop_best (g : WallLinkageGraph) (margin : Q) (doors : list LineSegment.t)
    (all : list (Root * nat * nat)) :
  (forall pd d w, (pd, d, w) ∈ all <->
     exists door, doors !! d = Some door /\ (w < length (walls g))%nat
                  /\ line_contains_check g w door margin = (true, Some pd)) ->
  forall (pairs : list (Root * nat * nat)) (gc : WallLinkageGraph) (ran : Random.t)
         (added : list nat),
    StronglySorted (fun a b => Root.leb a.1.1 b.1.1 = true) pairs ->
    (forall p, p ∈ all -> p ∈ pairs \/ p.1.2 ∈ added) ->
    (forall p, p ∈ pairs -> p ∈ all) ->
    same_geometry g gc ->
    forall w hole,
      hole ∈ Wall.holes (wall (add_doors_loop gc ran doors pairs added).1 w) ->
      hole ∈ Wall.holes (wall gc w)
      \/ exists door, door ∈ doors /\ best_match g margin w door
                      /\ hole_of_opening g margin w door hole.
Proof.
  intros Hall. induction pairs as [|[[pd d] w0] pairs IH];
    intros gc ran added Hsorted Hcover Hsub Hs w hole.
  - simpl. intros H. left. exact H.
  - apply StronglySorted_inv in Hsorted as [Hsorted Hhd].
    assert (Hsub' : forall p, p ∈ pairs -> p ∈ all) by (intros p Hp; apply Hsub; right; exact Hp).
    simpl. case_bool_decide as Hadded.
    + apply IH; try assumption.
      intros p Hp. destruct (Hcover p Hp) as [Hin|Hin]; [|right; exact Hin].
      apply elem_of_cons in Hin as [->|Hin]; [right; exact Hadded|left; exact Hin].
    + assert (Hin0 : (pd, d, w0) ∈ all) by (apply Hsub; left).
      apply Hall in Hin0 as (door & Hdoor & Hw0 & Hlcc).
      rewrite (nth_lookup_Some _ _ _ _ Hdoor).
      set (wp1 := pos_of gc (Wall.p1 (wall gc w0))).
      destruct (get_closest_and_furthest wp1 (LineSegment.p1 door) (LineSegment.p2 door))
        as [min_point max_point] eqn:Hcf.
      unfold Hole_init, generate_hole_id, Random.randint.
      set (nd := Hole.mk _ _ None _).
      intros Hin.
      eapply IH in Hin; [|exact Hsorted| |exact Hsub'|apply same_geometry_holes_append; exact Hs].
      * destruct Hin as [Hold|Hnew]; [|right; exact Hnew].
        destruct (wall_holes_append gc w0 w nd) as (_ & _ & [Heq|[-> Heq]]).
        -- left. rewrite <- Heq. exact Hold.
        -- rewrite Heq in Hold. apply elem_of_app in Hold as [Hold|Hold]; [left; exact Hold|].
           apply list_elem_of_singleton in Hold as ->. right.
           exists door. split; [eapply list_elem_of_lookup_2; exact Hdoor|]. split.
           ++ exists pd. split; [exact Hlcc|]. intros w' pd' Hw' Hlcc'.
              assert (Hp' : (pd', d, w') ∈ all)
                by (apply Hall; exists door; split; [exact Hdoor|split; assumption]).
              destruct (Hcover _ Hp') as [Hp|Hp]; [|simpl in Hp; contradiction].
              apply elem_of_cons in Hp as [Hp|Hp].
              ** injection Hp as -> _. apply Qle_bool_iff, Qle_refl.
              ** rewrite Forall_forall in Hhd. apply (Hhd _ Hp).
           ++ assert (Hwp1 : wp1 = pos_of g (Wall.p1 (wall g w0))).
              { subst wp1. destruct Hs as (Hc & Hl & Hw). destruct (Hw w0) as [-> _].
                unfold pos_of, corner. rewrite Hc. reflexivity. }
              unfold hole_of_opening. rewrite <- Hwp1, Hcf. subst nd. simpl.
              rewrite Hlcc. repeat split; try apply manhattan_distance_between_nonneg.
      * intros p Hp. destruct (Hcover p Hp) as [Hin'|Hin'].
        -- apply elem_of_cons in Hin' as [->|Hin']; [right; apply elem_of_app; right; left|left; exact Hin'].
        -- right. apply elem_of_app. left. exact Hin'.
Qed.

(** X16. Every hole on a wall after opening assignment was on that wall before,
    or it is the hole of a door opening for which this wall is a
    containing wall of least perpendicular offset. *)
Theorem add_doors_attaches_to_best_match (conf : Conf.t) (h : House.t) (g : WallLinkageGraph)
    (ran : Random.t) (w : nat) (hole : Hole.t) :
  let margin := Conf.max_door_perpendicular_offset conf in
  hole ∈ Wall.holes (wall (add_doors conf h g ran).1 w) ->
  hole ∈ Wall.holes (wall g w)
  \/ exists door, door ∈ w_doors h /\ best_match g margin w door
                  /\ hole_of_opening g margin w door hole.
Proof.
  intros margin. unfold add_doors. fold margin.
  set (pairs := sorted Root.leb (fun x => x.1.1) (wall_door_pairs g margin (w_doors h))).
  apply (add_doors_loop_best g margin (w_doors h) pairs).
  - intros pd d w'. subst pairs. rewrite elem_of_sorted. apply wall_door_pairs_iff.
  - subst pairs.
    apply (sorted_ascending Root.leb (fun x : Root * nat * nat => x.1.1)
                            Root_leb_total Root_leb_trans).
  - intros p Hp. left. exact Hp.
  - intros p Hp. exact Hp.
  - apply same_geometry_refl.
Qed.

(** The split rectangle: the door (5,3)-(5,6) on the dividing wall 6. *)
Lemma add_doors_attaches_to_best_match_witness :
  let conf := Examples.conf (1 # 2) in
  let g := House.wall_graph Examples.split_rectangle_rooms in
  let hole := Hole.mk 3 6 None "hole_7" in
  hole ∈ Wall.holes (wall g 6%nat)
  \/ exists door, door ∈ w_doors Examples.split_rectangle
                  /\ best_match g (Conf.max_door_perpendicular_offset conf) 6%nat door
                  /\ hole_of_opening g (Conf.max_door_perpendicular_offset conf) 6%nat door hole.
Proof.
  intros conf g hole.
  apply (add_doors_attaches_to_best_match conf Examples.split_rectangle g (Examples.ran 7)
           6%nat hole).
  vm_compute. left.
Defined.

(* --------------------------------------------------------------------- *)
(** ** Room filter and the whole of generate_wall_graph *)

Section DictRemove.
Context {K V : Type} `{EqDecision K}.

Lemma dict_remove_sublist (d : Dict.t K V) (k : K) : Dict.remove d k `sublist_of` d.
Proof.
  induction d as [|[k' v] d IH]; simpl; [constructor|].
  destruct (decide (k' = k)); [apply sublist_cons, reflexivity|apply sublist_skip, IH].
Qed.

Lemma dict_remove_all_sublist (ks : list K) :
  forall d : Dict.t K V, fold_left Dict.remove ks d `sublist_of` d.
Proof.
  induction ks as [|k ks IH]; intros d; simpl; [reflexivity|].
  etransitivity; [apply IH|apply dict_remove_sublist].
Qed.
End DictRemove.



Lemma get_polyline_raises (g : WallLinkageGraph) (ws : list nat) (e : exn) :
  get_polyline g ws = Raise e -> e = IndexError /\ ws = [].
Proof. destruct ws; simpl; [intros H; injection H as <-; split; reflexivity|discriminate]. Qed.


Section Pipeline.
Context {polygon : Type}.
Variable Polygon : list (Z * Z) -> option polygon.
Variable area : polygon -> Q.
Variable intersection : polygon -> polygon -> Geometry polygon.

Lemma contained_children_loop_raises g A PA (entries : list (gset nat * RoomDescription.t)) :
  forall acc e,
    contained_children_loop Polygon area intersection g A PA entries acc = Raise e ->
    e = IndexError.
Proof.
  induction entries as [|[B rd] entries IH]; intros acc e; simpl; [discriminate|].
  destruct (decide (B = A)); [apply IH|].
  destruct (get_polyline g (RoomDescription.walls rd)) as [pl|e'] eqn:E; simpl.
  - destruct (length pl <? 3)%nat; [apply IH|].
    destruct (Polygon pl) as [PB|]; [|apply IH].
    destruct (intersection PA PB) as [i|]; [|apply IH].
    destruct (Qlt_bool 0 (area i)); apply IH.
  - intros H. injection H as <-. apply (get_polyline_raises _ _ _ E).
Qed.

Lemma fully_contained_loop_raises g threshold m (entries : list (gset nat * RoomDescription.t)) :
  forall acc e,
    fully_contained_loop Polygon area intersection g threshold m entries acc = Raise e ->
    e = IndexError.
Proof.
  induction entries as [|[A rd] entries IH]; intros acc e; simpl; [discriminate|].
  destruct (get_polyline g (RoomDescription.walls rd)) as [pl|e'] eqn:E; simpl.
  - destruct (length pl <? 3)%nat; [apply IH|].
    destruct (Polygon pl) as [PA|]; [|apply IH].
    destruct (contained_children_loop Polygon area intersection g A PA m []) as [cc|e'] eqn:Ec;
      simpl.
    + destruct (Qlt_bool _ _); apply IH.
    + intros H. injection H as <-. eapply contained_children_loop_raises. exact Ec.
  - intros H. injection H as <-. apply (get_polyline_raises _ _ _ E).
Qed.

(** X17. [_eliminate_false_rooms] only deletes rooms: when it returns, the room
    map is the input map with some entries removed, in the same order, and
    every other field of the house is kept. It raises only [IndexError],
    and only when some room has an empty wall list. *)
Theorem eliminate_false_rooms_only_deletes (conf : Conf.t) (h : House.t) :
  match _eliminate_false_rooms Polygon area intersection conf h with
  | Ok h' =>
      House.room_description_map h' `sublist_of` House.room_description_map h
      /\ House.wall_graph h' = House.wall_graph h
      /\ House.file_name h' = House.file_name h
      /\ House.walls h' = House.walls h
      /\ House.openings h' = House.openings h
      /\ House.ordered_rooms h' = House.ordered_rooms h
      /\ House.rdr h' = House.rdr h
  | Raise e =>
      e = IndexError
      /\ exists entry, entry ∈ House.room_description_map h
                       /\ RoomDescription.walls entry.2 = []
  end.
Proof.
  unfold _eliminate_false_rooms.
  destruct (fully_contained_loop _ _ _ _ _ _ _ _) as [ks|e] eqn:E; simpl.
  - split; [apply dict_remove_all_sublist|]. repeat split.
  - split; [eapply fully_contained_loop_raises; exact E|].
    destruct (decide (Forall (fun entry : gset nat * RoomDescription.t =>
                                RoomDescription.walls entry.2 <> [])
                             (House.room_description_map h))) as [Hall|Hnot].
    + exfalso. rewrite Forall_forall in Hall.
      rewrite (fully_contained_loop_keys Polygon area intersection _ _ _ _ Hall Hall) in E.
      discriminate E.
    + apply not_Forall_Exists in Hnot; [|apply _].
      apply Exists_exists in Hnot as (entry & Hin & Hempty).
      exists entry. split; [exact Hin|].
      destruct (RoomDescription.walls entry.2) as [|x l] eqn:Ew; [reflexivity|].
      exfalso. apply Hempty. rewrite Ew. intros Hd. discriminate Hd.
Qed.


End Pipeline.

(* --------------------------------------------------------------------- *)
(** ** Doors and windows *)

Lemma hole_retyped_refl (a : Hole.t) : hole_retyped a a.
Proof. repeat split. left. reflexivity. Qed.

Lemma hole_retyped_trans (a b c : Hole.t) :
  hole_retyped a b -> hole_retyped b c -> hole_retyped a c.
Proof.
  intros (H1 & H2 & H3 & H4) (H1' & H2' & H3' & H4').
  split; [congruence|]. split; [congruence|]. split; [congruence|].
  destruct H4' as [H|[H|[Hn H]]].
  - rewrite H. exact H4.
  - right. left. exact H.
  - destruct H4 as [H0|[H0|[_ H0]]]; [|congruence|congruence].
    right. right. split; congruence.
Qed.

Lemma holes_retyped_refl (l : list Hole.t) : Forall2 hole_retyped l l.
Proof. induction l; constructor; [apply hole_retyped_refl|assumption]. Qed.

Lemma wall_retyped_refl (a : Wall.t) : wall_retyped a a.
Proof. repeat split. apply holes_retyped_refl. Qed.

Lemma wall_retyped_trans (a b c : Wall.t) :
  wall_retyped a b -> wall_retyped b c -> wall_retyped a c.
Proof.
  intros (H1 & H2 & H3 & H4 & H5 & H6) (H1' & H2' & H3' & H4' & H5' & H6').
  repeat (split; [congruence|]).
  eapply Forall2_trans; [apply hole_retyped_trans|exact H6|exact H6'].
Qed.

Lemma retyped_refl (g : WallLinkageGraph) : retyped g g.
Proof.
  repeat split. induction (walls g); constructor; [apply wall_retyped_refl|assumption].
Qed.

Lemma retyped_trans (g1 g2 g3 : WallLinkageGraph) :
  retyped g1 g2 -> retyped g2 g3 -> retyped g1 g3.
Proof.
  intros (H1 & H2 & H3 & H4) (H1' & H2' & H3' & H4').
  repeat (split; [congruence|]).
  eapply Forall2_trans; [apply wall_retyped_trans|exact H4|exact H4'].
Qed.

Lemma retyped_wall (g g' : WallLinkageGraph) (w : nat) :
  retyped g g' -> wall_retyped (wall g w) (wall g' w).
Proof.
  intros (_ & _ & _ & H). rewrite !wall_lookup.
  destruct (walls g !! w) as [a|] eqn:Ea.
  - destruct (Forall2_lookup_l _ _ _ _ _ H Ea) as (b & -> & Hab). exact Hab.
  - apply lookup_ge_None in Ea. rewrite (Forall2_length _ _ _ H) in Ea.
    apply lookup_ge_None in Ea. rewrite Ea. apply wall_retyped_refl.
Qed.

Lemma retyped_length (g g' : WallLinkageGraph) :
  retyped g g' -> length (walls g') = length (walls g).
Proof. intros (_ & _ & _ & H). symmetry. eapply Forall2_length. exact H. Qed.

Lemma retyped_pos_of (g g' : WallLinkageGraph) (c : nat) :
  retyped g g' -> pos_of g' c = pos_of g c.
Proof. intros (H & _). unfold pos_of, corner. rewrite H. reflexivity. Qed.

Lemma retyped_doors (g g' : WallLinkageGraph) (w : nat) :
  retyped g g' ->
  Forall is_door (Wall.holes (wall g w)) -> Forall is_door (Wall.holes (wall g' w)).
Proof.
  intros Hr. destruct (retyped_wall g g' w Hr) as (_ & _ & _ & _ & _ & H).
  induction H as [|a b la lb Hab _ IH]; intros Hd; [constructor|].
  apply Forall_cons in Hd as [Ha Hd]. constructor; [|apply IH, Hd].
  destruct Hab as (_ & _ & _ & [Ht|[Ht|[Hn _]]]); unfold is_door in *; congruence.
Qed.

Lemma retyped_alter_wall (g : WallLinkageGraph) (f : Wall.t -> Wall.t) (w : nat) :
  (forall wl, wall_retyped wl (f wl)) ->
  retyped g (mkGraph (corners g) (wall_corners g) (tolerance_distance g)
                     (alter f w (walls g))).
Proof.
  intros Hf. repeat split. simpl. apply Forall2_alter_r.
  - induction (walls g); constructor; [apply wall_retyped_refl|assumption].
  - intros x y Hx Hy _. rewrite Hx in Hy. injection Hy as <-. apply Hf.
Qed.

Lemma retyped_set_hole_type (g : WallLinkageGraph) (w i : nat) :
  retyped g (set_hole_type g w i "door").
Proof.
  apply retyped_alter_wall. intros wl. repeat split. simpl.
  apply Forall2_alter_r; [apply holes_retyped_refl|].
  intros x y Hx Hy _. rewrite Hx in Hy. injection Hy as <-.
  repeat split. right. left. reflexivity.
Qed.

Lemma retyped_set_holes_door (g : WallLinkageGraph) (w : nat) :
  retyped g (set_holes_door g w).
Proof.
  apply retyped_alter_wall. intros wl. repeat split. simpl.
  induction (Wall.holes wl) as [|a l IH]; simpl; constructor; [|exact IH].
  repeat split. right. left. reflexivity.
Qed.

Lemma set_holes_door_doors (g : WallLinkageGraph) (w : nat) :
  (w < length (walls g))%nat -> Forall is_door (Wall.holes (wall (set_holes_door g w) w)).
Proof.
  intros Hw. rewrite wall_lookup. simpl. rewrite list_lookup_alter_eq.
  destruct (lookup_lt_is_Some_2 _ _ Hw) as [wl ->]. simpl.
  apply Forall_forall. intros hole Hin. apply list_elem_of_fmap in Hin as (a & -> & _).
  reflexivity.
Qed.

Lemma retyped_set_remaining_windows (g : WallLinkageGraph) :
  retyped g (set_remaining_windows g)
  /\ forall w hole, hole ∈ Wall.holes (wall (set_remaining_windows g) w) ->
                    Hole.type hole <> None.
Proof.
  split.
  - repeat split. simpl. induction (walls g) as [|wl l IH]; simpl; constructor; [|exact IH].
    repeat split. simpl. induction (Wall.holes wl) as [|a la IHa]; simpl; constructor; [|exact IHa].
    destruct (Hole.type a) eqn:E; [apply hole_retyped_refl|].
    repeat split. simpl. right. right. split; [exact E|reflexivity].
  - intros w hole. rewrite wall_lookup. simpl.
    rewrite list_lookup_fmap. destruct (walls g !! w) as [wl|]; simpl; [|intros H; inversion H].
    intros Hin. apply list_elem_of_fmap in Hin as (a & -> & _).
    destruct (Hole.type a) eqn:E; simpl; congruence.
Qed.

Lemma classify_internal_walls_spec (keys : list (gset nat)) (ws : list nat) :
  forall g : WallLinkageGraph,
    let adjacent w := length (filter (fun room_key : gset nat => w ∈ room_key) keys) in
    let r := classify_internal_walls keys g ws in
    retyped g r.1
    /\ ((r.2 = Ok tt
         /\ (forall w, w ∈ ws -> (adjacent w <= 2)%nat)
         /\ (forall w, w ∈ ws -> (w < length (walls g))%nat -> adjacent w = 2%nat ->
                       Forall is_door (Wall.holes (wall r.1 w))))
        \/ (r.2 = Raise AssertionError /\ exists w, w ∈ ws /\ (2 < adjacent w)%nat)).
Proof.
  induction ws as [|w ws IH]; intros g adjacent; simpl.
  - split; [apply retyped_refl|]. left. split; [reflexivity|].
    split; intros w Hw; inversion Hw.
  - fold (adjacent w).
    destruct (Nat.ltb_spec 2 (adjacent w)) as [Hgt|Hle]; simpl.
    { split; [apply retyped_refl|]. right. split; [reflexivity|]. exists w. split; [left|exact Hgt]. }
    set (g1 := if Nat.eqb (adjacent w) 2 then set_holes_door g w else g).
    assert (Hg1 : retyped g g1).
    { subst g1. destruct (Nat.eqb (adjacent w) 2); [apply retyped_set_holes_door|apply retyped_refl]. }
    destruct (IH g1) as [Hr Hcase]. fold adjacent in Hcase.
    split; [eapply retyped_trans; eassumption|].
    destruct Hcase as [(Hok & Hall & Hdoors)|(Hraise & w' & Hw' & Hgt)].
    + left. split; [exact Hok|]. split.
      * intros w' Hw'. apply elem_of_cons in Hw' as [->|Hw']; [exact Hle|apply Hall, Hw'].
      * intros w' Hw' Hlt Hadj.
        destruct (decide (w' ∈ ws)) as [Hin|Hnin].
        { apply Hdoors; [exact Hin| |exact Hadj]. rewrite (retyped_length _ _ Hg1). exact Hlt. }
        apply elem_of_cons in Hw' as [->|Hw']; [|contradiction].
        apply (retyped_doors g1 _ w Hr). subst g1.
        rewrite (proj2 (Nat.eqb_eq _ _) Hadj). apply set_holes_door_doors. exact Hlt.
    + right. split; [exact Hraise|]. exists w'. split; [right; exact Hw'|exact Hgt].
Qed.

Lemma hole_to_line_raises (p1 p2 : Z * Z) (a b : Z) (e : exn) :
  hole_to_line p1 p2 a b = Raise e -> e = ZeroDivisionError /\ p1 = p2.
Proof.
  unfold hole_to_line.
  destruct (Z.eqb_spec ((p2.1 - p1.1) * (p2.1 - p1.1) + (p2.2 - p1.2) * (p2.2 - p1.2)) 0)
    as [H|H]; [|discriminate].
  intros He. injection He as <-. split; [reflexivity|].
  pose proof (Z.square_nonneg (p2.1 - p1.1)) as H1.
  pose proof (Z.square_nonneg (p2.2 - p1.2)) as H2.
  assert (Hx : (p2.1 - p1.1) * (p2.1 - p1.1) = 0) by lia.
  assert (Hy : (p2.2 - p1.2) * (p2.2 - p1.2) = 0) by lia.
  apply Z.mul_eq_0 in Hx, Hy. destruct p1, p2. simpl in *. f_equal; lia.
Qed.

Lemma closest_hole_in_wall_raises g annotation w (holes : list Hole.t) :
  forall i closest d e,
    closest_hole_in_wall g annotation w i holes closest d = Raise e ->
    e = ZeroDivisionError
    /\ pos_of g (Wall.p1 (wall g w)) = pos_of g (Wall.p2 (wall g w))
    /\ exists hole, hole ∈ holes /\ Hole.type hole = None.
Proof.
  induction holes as [|hole holes IH]; intros i closest d e; simpl; [discriminate|].
  assert (Hrest : forall i' c' d',
            closest_hole_in_wall g annotation w i' holes c' d' = Raise e ->
            e = ZeroDivisionError
            /\ pos_of g (Wall.p1 (wall g w)) = pos_of g (Wall.p2 (wall g w))
            /\ exists hole', hole' ∈ hole :: holes /\ Hole.type hole' = None).
  { intros i' c' d' H. destruct (IH _ _ _ _ H) as (He & Hp & hole' & Hin & Ht).
    split; [exact He|]. split; [exact Hp|]. exists hole'. split; [right; exact Hin|exact Ht]. }
  destruct (Hole.type hole) eqn:Et; [apply Hrest|].
  destruct (hole_to_line _ _ _ _) as [hl|e'] eqn:El; simpl.
  - destruct (Surd.ltb _ _); apply Hrest.
  - intros H. injection H as <-. destruct (hole_to_line_raises _ _ _ _ _ El) as [He Hp].
    split; [exact He|]. split; [exact Hp|]. exists hole. split; [left|exact Et].
Qed.

Lemma closest_hole_in_room_raises g annotation (ws : list nat) :
  forall closest d e,
    closest_hole_in_room g annotation ws closest d = Raise e ->
    e = ZeroDivisionError /\ exists w, w ∈ ws /\ collapsed_with_open_hole g w.
Proof.
  induction ws as [|w ws IH]; intros closest d e; simpl; [discriminate|].
  destruct (closest_hole_in_wall g annotation w 0 _ closest d) as [r|e'] eqn:E; simpl.
  - intros H. destruct (IH _ _ _ H) as (He & w' & Hw' & Hc).
    split; [exact He|]. exists w'. split; [right; exact Hw'|exact Hc].
  - intros H. injection H as <-.
    destruct (closest_hole_in_wall_raises _ _ _ _ _ _ _ _ E) as (He & Hp & Hh).
    split; [exact He|]. exists w. split; [left|]. split; assumption.
Qed.

Lemma classify_entrances_of_room_spec (room_walls : list nat)
    (annotations : list AABBAnnotation.t) :
  forall g : WallLinkageGraph,
    let r := classify_entrances_of_room g room_walls annotations in
    retyped g r.1
    /\ (r.2 = Ok tt
        \/ (r.2 = Raise ZeroDivisionError
            /\ exists w, w ∈ room_walls /\ collapsed_with_open_hole r.1 w)).
Proof.
  induction annotations as [|a annotations IH]; intros g; simpl.
  - split; [apply retyped_refl|left; reflexivity].
  - case_bool_decide as Hent; [|apply IH].
    destruct (closest_hole_in_room g a room_walls None _) as [[[[w i]|] d]|e] eqn:E.
    + destruct (IH (set_hole_type g w i "door")) as [Hr Hcase].
      split; [|exact Hcase]. eapply retyped_trans; [apply retyped_set_hole_type|exact Hr].
    + apply IH.
    + simpl. split; [apply retyped_refl|]. right.
      destruct (closest_hole_in_room_raises _ _ _ _ _ _ E) as (-> & Hc).
      split; [reflexivity|exact Hc].
Qed.

Lemma classify_entrances_spec (annotations : RoomDescription.t -> list AABBAnnotation.t)
    (items : list (gset nat * RoomDescription.t)) :
  forall g : WallLinkageGraph,
    let r := classify_entrances annotations g items in
    retyped g r.1
    /\ (r.2 = Ok tt
        \/ (r.2 = Raise ZeroDivisionError
            /\ exists item w, item ∈ items /\ w ∈ RoomDescription.walls item.2
                              /\ collapsed_with_open_hole r.1 w)).
Proof.
  induction items as [|[room_key rd] items IH]; intros g; simpl.
  - split; [apply retyped_refl|left; reflexivity].
  - pose proof (classify_entrances_of_room_spec (RoomDescription.walls rd) (annotations rd) g)
      as [Hr Hcase].
    destruct (classify_entrances_of_room g (RoomDescription.walls rd) (annotations rd))
      as [g1 [[]|e]]; simpl in *.
    + destruct (IH g1) as [Hr' Hcase']. split; [eapply retyped_trans; eassumption|].
      destruct Hcase' as [Hok|(He & item & w & Hitem & Hw & Hc)]; [left; exact Hok|right].
      split; [exact He|]. exists item, w. split; [right; exact Hitem|]. split; assumption.
    + split; [exact Hr|]. right.
      destruct Hcase as [Hok|(He & w & Hw & Hc)]; [discriminate Hok|].
      split; [exact He|]. exists (room_key, rd), w. split; [left|]. split; assumption.
Qed.

(** X19. When [classify_doors_and_windows] returns normally, the graph differs
    from the input at most in the types of its holes, where a type is
    kept, set to door, or set to window if it was unresolved; no hole is
    left unresolved; no wall belongs to more than two rooms; every hole of
    a wall between two rooms is a door; and the room map, the ordered
    rooms and the edge list are kept. *)
Theorem classify_doors_and_windows_resolves
    (annotations : RoomDescription.t -> list AABBAnnotation.t) (h h' : House.t) :
  classify_doors_and_windows annotations h = (h', Ok tt) ->
  let g := House.wall_graph h in
  let g' := House.wall_graph h' in
  retyped g g'
  /\ (forall w hole, hole ∈ Wall.holes (wall g' w) -> Hole.type hole <> None)
  /\ (forall w, (w < length (walls g))%nat -> (rooms_of_wall h w <= 2)%nat)
  /\ (forall w, (w < length (walls g))%nat -> rooms_of_wall h w = 2%nat ->
                Forall is_door (Wall.holes (wall g' w)))
  /\ House.room_description_map h' = House.room_description_map h
  /\ House.ordered_rooms h' = House.ordered_rooms h
  /\ House.rdr h' = House.rdr h.
Proof.
  unfold classify_doors_and_windows.
  pose proof (classify_internal_walls_spec (Dict.keys (House.room_description_map h))
                (seq 0 (length (walls (House.wall_graph h)))) (House.wall_graph h))
    as [Hr1 Hcase1].
  destruct (classify_internal_walls _ _ _) as [g1 [[]|e1]]; simpl in *;
    [|intros H; discriminate H].
  destruct Hcase1 as [(_ & Hall & Hdoors)|(Hraise & _)]; [|discriminate Hraise].
  pose proof (classify_entrances_spec annotations (House.room_description_map h) g1)
    as [Hr2 _].
  destruct (classify_entrances annotations g1 _) as [g2 [[]|e2]]; simpl in *;
    [|intros H; discriminate H].
  intros H. injection H as <-. simpl.
  destruct (retyped_set_remaining_windows g2) as [Hr3 Hnone].
  assert (Hr23 : retyped g1 (set_remaining_windows g2)) by (eapply retyped_trans; eassumption).
  split; [eapply retyped_trans; eassumption|]. split; [exact Hnone|].
  split; [intros w Hw; apply Hall, list_elem_of_In, in_seq; lia|].
  split; [|repeat split].
  intros w Hw Hadj. apply (retyped_doors g1 _ w Hr23).
  apply Hdoors; [apply list_elem_of_In, in_seq; lia|exact Hw|exact Hadj].
Qed.

(** The square with three openings and an entrance annotation below its bottom wall. *)
Lemma classify_doors_and_windows_resolves_witness :
  let annotations := fun _ : RoomDescription.t => [Examples.entrance_below] in
  let h := Examples.square_with_openings in
  let h' := (classify_doors_and_windows annotations h).1 in
  let g := House.wall_graph h in
  let g' := House.wall_graph h' in
  retyped g g'
  /\ (forall w hole, hole ∈ Wall.holes (wall g' w) -> Hole.type hole <> None)
  /\ (forall w, (w < length (walls g))%nat -> (rooms_of_wall h w <= 2)%nat)
  /\ (forall w, (w < length (walls g))%nat -> rooms_of_wall h w = 2%nat ->
                Forall is_door (Wall.holes (wall g' w)))
  /\ House.room_description_map h' = House.room_description_map h
  /\ House.ordered_rooms h' = House.ordered_rooms h
  /\ House.rdr h' = House.rdr h.
Proof.
  intros annotations h h'.
  apply (classify_doors_and_windows_resolves annotations h h').
  vm_compute. reflexivity.
Defined.

(** X20. When [classify_doors_and_windows] raises, the graph still differs from
    the input at most in the types of its holes, and the exception is
    either [AssertionError], with a wall that belongs to more than two
    rooms, or [ZeroDivisionError], with no such wall and with a wall of a
    room that has coincident ends and carries an unresolved hole. *)
Theorem classify_doors_and_windows_raises
    (annotations : RoomDescription.t -> list AABBAnnotation.t) (h h' : House.t) (e : exn) :
  classify_doors_and_windows annotations h = (h', Raise e) ->
  let g := House.wall_graph h in
  let g' := House.wall_graph h' in
  retyped g g'
  /\ ((e = AssertionError
       /\ exists w, (w < length (walls g))%nat /\ (2 < rooms_of_wall h w)%nat)
      \/ (e = ZeroDivisionError
          /\ (forall w, (w < length (walls g))%nat -> (rooms_of_wall h w <= 2)%nat)
          /\ exists item w, item ∈ House.room_description_map h
                            /\ w ∈ RoomDescription.walls item.2
                            /\ collapsed_with_open_hole g' w)).
Proof.
  unfold classify_doors_and_windows.
  pose proof (classify_internal_walls_spec (Dict.keys (House.room_description_map h))
                (seq 0 (length (walls (House.wall_graph h)))) (House.wall_graph h))
    as [Hr1 Hcase1].
  destruct (classify_internal_walls _ _ _) as [g1 [[]|e1]]; simpl in *.
  - destruct Hcase1 as [(_ & Hall & _)|(Hraise & _)]; [|discriminate Hraise].
    pose proof (classify_entrances_spec annotations (House.room_description_map h) g1)
      as [Hr2 Hcase2].
    destruct (classify_entrances annotations g1 _) as [g2 [[]|e2]]; simpl in *;
      [intros H; discriminate H|].
    intros H. injection H as <- <-. simpl.
    split; [eapply retyped_trans; eassumption|]. right.
    destruct Hcase2 as [Hok|(He & Hc)]; [discriminate Hok|]. injection He as ->.
    split; [reflexivity|]. split; [|exact Hc].
    intros w Hw. apply Hall, list_elem_of_In, in_seq. lia.
  - intros H. injection H as <- <-. simpl. split; [exact Hr1|]. left.
    destruct Hcase1 as [(Hok & _)|(Hraise & w & Hw & Hgt)]; [discriminate Hok|].
    injection Hraise as ->. split; [reflexivity|]. exists w.
    apply list_elem_of_In, in_seq in Hw. split; [lia|exact Hgt].
Qed.

(** The two rooms with a third room key on wall 1. *)
Lemma classify_doors_and_windows_raises_witness :
  let annotations := fun _ : RoomDescription.t => [Examples.entrance_below] in
  let h := Examples.three_rooms_on_one_wall in
  let g := House.wall_graph h in
  let g' := House.wall_graph (classify_doors_and_windows annotations h).1 in
  retyped g g'
  /\ ((AssertionError = AssertionError
       /\ exists w, (w < length (walls g))%nat /\ (2 < rooms_of_wall h w)%nat)
      \/ (AssertionError = ZeroDivisionError
          /\ (forall w, (w < length (walls g))%nat -> (rooms_of_wall h w <= 2)%nat)
          /\ exists item w, item ∈ House.room_description_map h
                            /\ w ∈ RoomDescription.walls item.2
                            /\ collapsed_with_open_hole g' w)).
Proof.
  intros annotations h.
  apply (classify_doors_and_windows_raises annotations h
           (classify_doors_and_windows annotations h).1 AssertionError).
  vm_compute. reflexivity.
Defined.

(* --------------------------------------------------------------------- *)
(** ** Wall identifiers *)

(** X21. [generate_wall_id] stores the identifier it returns on the wall, and a
    second call returns the same identifier, whatever room id it is given,
    and changes nothing. A wall that already has an identifier keeps it and
    no random number is drawn; otherwise the identifier is the room id
    followed by [_wall] and the next random number. No other wall, no
    corner and no hole is changed. *)
Theorem generate_wall_id_is_stable (room_id : string) (g : WallLinkageGraph) (w : nat)
    (ran : Random.t) :
  (w < length (walls g))%nat ->
  let '(id, g1, ran1) := generate_wall_id room_id g w ran in
  Wall.id (wall g1 w) = Some id
  /\ (forall room_id', generate_wall_id room_id' g1 w ran1 = (id, g1, ran1))
  /\ (forall w', w' <> w -> wall g1 w' = wall g w')
  /\ same_geometry g g1
  /\ Wall.holes (wall g1 w) = Wall.holes (wall g w)
  /\ match Wall.id (wall g w) with
     | Some id0 => id = id0 /\ g1 = g /\ ran1 = ran
     | None =>
         id = (room_id ++ "_wall" ++ str (Random.draws ran (Random.calls ran)))%string
         /\ Random.calls ran1 = S (Random.calls ran)
         /\ Random.draws ran1 = Random.draws ran
     end.
Proof.
  intros Hw. unfold generate_wall_id.
  destruct (Wall.id (wall g w)) as [id0|] eqn:Eid.
  - split; [exact Eid|]. split; [intros rid; rewrite Eid; reflexivity|].
    split; [reflexivity|]. split; [apply same_geometry_refl|]. repeat split.
  - unfold Random.randint. cbv zeta.
    set (id := (room_id ++ "_wall" ++ str (Random.draws ran (Random.calls ran)))%string).
    destruct (lookup_lt_is_Some_2 _ _ Hw) as [wl Hwl].
    assert (Hnew : wall (set_wall_id g w id) w
                   = Wall.mk (Wall.p1 wl) (Wall.p2 wl) (Wall.holes wl)
                             (Wall.left_room_type wl) (Wall.right_room_type wl) (Some id)).
    { rewrite wall_lookup. simpl. rewrite list_lookup_alter_eq, Hwl. reflexivity. }
    assert (Hold : wall g w = wl) by (rewrite wall_lookup, Hwl; reflexivity).
    assert (Hother : forall w', w' <> w -> wall (set_wall_id g w id) w' = wall g w').
    { intros w' Hne. rewrite !wall_lookup. simpl.
      rewrite list_lookup_alter_ne by congruence. reflexivity. }
    split; [rewrite Hnew; reflexivity|].
    split; [intros rid; rewrite Hnew; reflexivity|].
    split; [exact Hother|]. split.
    { split; [reflexivity|]. split; [simpl; apply length_alter|].
      intros w'. destruct (decide (w' = w)) as [->|Hne].
      - rewrite Hnew, Hold. split; reflexivity.
      - rewrite (Hother w' Hne). split; reflexivity. }
    split; [rewrite Hnew, Hold; reflexivity|]. repeat split.
Qed.

(** Wall 0 of the square in room_0, next random number 7. *)
Lemma generate_wall_id_is_stable_witness :
  let g := Examples.unit_square in
  let ran := Examples.ran 7 in
  let '(id, g1, ran1) := generate_wall_id "room_0" g 0%nat ran in
  Wall.id (wall g1 0%nat) = Some id
  /\ (forall room_id', generate_wall_id room_id' g1 0%nat ran1 = (id, g1, ran1))
  /\ (forall w', w' <> 0%nat -> wall g1 w' = wall g w')
  /\ same_geometry g g1
  /\ Wall.holes (wall g1 0%nat) = Wall.holes (wall g 0%nat)
  /\ match Wall.id (wall g 0%nat) with
     | Some id0 => id = id0 /\ g1 = g /\ ran1 = ran
     | None =>
         id = ("room_0" ++ "_wall" ++ str (Random.draws ran (Random.calls ran)))%string
         /\ Random.calls ran1 = S (Random.calls ran)
         /\ Random.draws ran1 = Random.draws ran
     end.
Proof.
  intros g ran.
  apply (generate_wall_id_is_stable "room_0" g 0%nat ran).
  vm_compute. lia.
Defined.


(* --------------------------------------------------------------------- *)
(** ** Loading *)

Lemma fold_left_min_le (l : list Z) (z : Z) :
  fold_left Z.min l z <= z /\ forall x, x ∈ l -> fold_left Z.min l z <= x.
Proof.
  revert z. induction l as [|y l IH]; intros z; simpl.
  - split; [lia|]. intros x Hx. inversion Hx.
  - destruct (IH (Z.min z y)) as [H1 H2]. split; [lia|].
    intros x Hx. apply elem_of_cons in Hx as [->|Hx]; [lia|apply H2, Hx].
Qed.

Lemma fold_left_max_ge (l : list Z) (z : Z) :
  z <= fold_left Z.max l z /\ forall x, x ∈ l -> x <= fold_left Z.max l z.
Proof.
  revert z. induction l as [|y l IH]; intros z; simpl.
  - split; [lia|]. intros x Hx. inversion Hx.
  - destruct (IH (Z.max z y)) as [H1 H2]. split; [lia|].
    intros x Hx. apply elem_of_cons in Hx as [->|Hx]; [lia|apply H2, Hx].
Qed.

Lemma list_min_spec (l : list Z) (m : Z) :
  list_min l = Some m -> forall x, x ∈ l -> m <= x.
Proof.
  destruct l as [|z l]; simpl; [discriminate|]. intros H. injection H as <-.
  destruct (fold_left_min_le l z) as [H1 H2].
  intros x Hx. apply elem_of_cons in Hx as [->|Hx]; [exact H1|apply H2, Hx].
Qed.

Lemma list_max_spec (l : list Z) (m : Z) :
  list_max l = Some m -> forall x, x ∈ l -> x <= m.
Proof.
  destruct l as [|z l]; simpl; [discriminate|]. intros H. injection H as <-.
  destruct (fold_left_max_ge l z) as [H1 H2].
  intros x Hx. apply elem_of_cons in Hx as [->|Hx]; [exact H1|apply H2, Hx].
Qed.

Lemma filter_partition3 {A : Type} (f g k : A -> bool) (l : list A) :
  (forall x, (f x = true /\ g x = false /\ k x = false)
             \/ (f x = false /\ g x = true /\ k x = false)
             \/ (f x = false /\ g x = false /\ k x = true)) ->
  Permutation l (List.filter f l ++ List.filter g l ++ List.filter k l).
Proof.
  intros H. induction l as [|x l IH]; simpl; [constructor|].
  destruct (H x) as [(-> & -> & ->)|[(-> & -> & ->)|(-> & -> & ->)]]; simpl.
  - constructor. exact IH.
  - etransitivity; [constructor; exact IH|]. apply Permutation_middle.
  - etransitivity; [constructor; exact IH|].
    rewrite app_assoc. etransitivity; [apply Permutation_middle|].
    rewrite <- app_assoc. reflexivity.
Qed.

(** X22. [_load_data] fails on an empty record list only (the [ValueError] of
    [min]). Otherwise every record is a wall, an opening or a room
    annotation, exactly one of them; the raw objects are the room
    annotations that are no entrances, the entrances those that are, the
    stairs are among the raw objects; and the bounds contain every
    coordinate of every record. *)
Theorem load_data_partitions_records (data : list Datum.t) :
  match _load_data data with
  | None => data = []
  | Some r =>
      data <> []
      /\ Permutation data (Loaded.walls r ++ Loaded.openings r ++ Loaded.raw_room_annotations r)
      /\ Loaded.raw_objects r
         = List.filter (fun x => negb (category_is "entrance" x)) (Loaded.raw_room_annotations r)
      /\ Loaded.entrances r = List.filter (category_is "entrance") (Loaded.raw_room_annotations r)
      /\ Loaded.stairs r = List.filter (category_is "stairs") (Loaded.raw_objects r)
      /\ forall x, x ∈ data ->
           Loaded.x_min r <= Datum.x_min x <= Loaded.x_max r
           /\ Loaded.x_min r <= Datum.x_max x <= Loaded.x_max r
           /\ Loaded.y_min r <= Datum.y_min x <= Loaded.y_max r
           /\ Loaded.y_min r <= Datum.y_max x <= Loaded.y_max r
  end.
Proof.
  unfold _load_data.
  destruct data as [|d data]; [reflexivity|].
  set (all := d :: data).
  destruct (list_min (map Datum.x_min all ++ map Datum.x_max all)) as [x0|] eqn:Ex0;
    [|discriminate Ex0].
  destruct (list_min (map Datum.y_min all ++ map Datum.y_max all)) as [y0|] eqn:Ey0;
    [|discriminate Ey0].
  destruct (list_max (map Datum.x_min all ++ map Datum.x_max all)) as [x1|] eqn:Ex1;
    [|discriminate Ex1].
  destruct (list_max (map Datum.y_min all ++ map Datum.y_max all)) as [y1|] eqn:Ey1;
    [|discriminate Ey1].
  cbn [mbind option_bind Loaded.walls Loaded.openings Loaded.raw_room_annotations
       Loaded.raw_objects Loaded.entrances Loaded.stairs
       Loaded.x_min Loaded.x_max Loaded.y_min Loaded.y_max].
  assert (Hcat : forall x : Datum.t,
            (category_is "wall" x = true /\ category_is "door" x = false
             /\ category_not_in ["wall"; "door"]%string x = false)
            \/ (category_is "wall" x = false /\ category_is "door" x = true
                /\ category_not_in ["wall"; "door"]%string x = false)
            \/ (category_is "wall" x = false /\ category_is "door" x = false
                /\ category_not_in ["wall"; "door"]%string x = true)).
  { intros x. unfold category_is, category_not_in.
    destruct (decide (Datum.category x = "wall"%string)) as [Hw|Hw].
    - left. rewrite Hw. repeat split.
    - destruct (decide (Datum.category x = "door"%string)) as [Hd|Hd].
      + right. left. rewrite Hd. repeat split.
      + right. right. rewrite !bool_decide_eq_false_2 by assumption.
        repeat split. apply negb_true_iff, bool_decide_eq_false_2.
        intros Hin. apply elem_of_cons in Hin as [Hin|Hin]; [contradiction|].
        apply list_elem_of_singleton in Hin. contradiction. }
  split; [discriminate|]. split; [apply filter_partition3, Hcat|].
  assert (Hfilter : forall (f k : Datum.t -> bool) (l : list Datum.t),
            List.filter f (List.filter k l) = List.filter (fun x => k x && f x) l).
  { intros f k l. induction l as [|x l IH]; simpl; [reflexivity|].
    destruct (k x); simpl; [destruct (f x); simpl; rewrite IH; reflexivity|exact IH]. }
  assert (Hext : forall (f k : Datum.t -> bool) (l : list Datum.t),
            (forall x, f x = k x) -> List.filter f l = List.filter k l).
  { intros f k l H. induction l as [|x l IH]; simpl; [reflexivity|]. rewrite H, IH. reflexivity. }
  split.
  { rewrite Hfilter. apply Hext. intros x. unfold category_is, category_not_in.
    destruct (decide (Datum.category x = "wall"%string)) as [Hw|Hw]; [rewrite Hw; reflexivity|].
    destruct (decide (Datum.category x = "door"%string)) as [Hd|Hd]; [rewrite Hd; reflexivity|].
    destruct (decide (Datum.category x = "entrance"%string)) as [He|He]; [rewrite He; reflexivity|].
    rewrite (bool_decide_eq_false_2 (Datum.category x = "entrance"%string)) by exact He.
    rewrite !(bool_decide_eq_false_2 (_ ∈ _)); [reflexivity| |].
    - intros Hin. repeat (apply elem_of_cons in Hin as [Hin|Hin]; [contradiction|]). inversion Hin.
    - intros Hin. repeat (apply elem_of_cons in Hin as [Hin|Hin]; [contradiction|]). inversion Hin. }
  split.
  { rewrite Hfilter. apply Hext. intros x. unfold category_is, category_not_in.
    destruct (decide (Datum.category x = "entrance"%string)) as [He|He]; [rewrite He; reflexivity|].
    rewrite (bool_decide_eq_false_2 (Datum.category x = "entrance"%string)) by exact He.
    rewrite andb_false_r. reflexivity. }
  split.
  { rewrite Hfilter. apply Hext. intros x. unfold category_is, category_not_in.
    destruct (decide (Datum.category x = "stairs"%string)) as [He|He]; [rewrite He; reflexivity|].
    rewrite (bool_decide_eq_false_2 (Datum.category x = "stairs"%string)) by exact He.
    rewrite andb_false_r. reflexivity. }
  intros x Hx.
  assert (Hxs : forall f : Datum.t -> Z, f x ∈ map f all)
    by (intros f; apply list_elem_of_fmap; exists x; split; [reflexivity|exact Hx]).
  pose proof (list_min_spec _ _ Ex0) as Hx0. pose proof (list_max_spec _ _ Ex1) as Hx1.
  pose proof (list_min_spec _ _ Ey0) as Hy0. pose proof (list_max_spec _ _ Ey1) as Hy1.
  repeat split;
    first [apply Hx0|apply Hx1|apply Hy0|apply Hy1];
    apply elem_of_app; first [left; apply Hxs|right; apply Hxs].
Qed.

